(** * OpenMemX: episodic store, surprise scorer, knowledge graph, registry

    A shallow embedding of [openmemx/core_logic.py], [openmemx/memory_engine.py],
    the conversation registry, the configuration and the logging tools of
    [openmemx/mcp_server.py], the log ingester of [openmemx/ingestion.py]
    and the configuration and migration commands of [openmemx/cli.py].

    Conventions of the embedding.
    - a numpy float is a real number or one of the IEEE special values
      [+inf], [-inf] and [nan]. The arithmetic of numpy (float32 on the
      embeddings) is a parameter, the class [Numpy]: nothing is assumed of
      its rounding, underflow or overflow. The few statements that need a
      fact of arithmetic name it as the hypothesis [IEEE754].
      [exact_numpy], the arithmetic without rounding, serves the examples
      whose floating-point computation is exact.
    - the sentence-embedding model is external: it is the parameter [embed],
      which may fail ([None] stands for an exception raised by [encode]).
    - the SQLite tables are lists of rows in rowid order, the LanceDB table
      is an optional list of records ([None]: the table was never created).
    - an operation of the engine that may raise returns a [result] next
      to the state it leaves behind.
    - the values [json.load] returns are the type [jvalue]; time stamps in
      seconds are exact rationals.
    - the other operations that may raise, with one of Python's built-in
      exceptions, return an [outcome]. *)

From Stdlib Require Import Reals Lra Lia ZArith QArith Qcanon Ascii.
From stdpp Require Import numbers base option list sorting gmap strings pretty.

Local Open Scope list_scope.

#[local] Set Warnings "-clear-no-such-hyp".

(** * Part I: the model *)

(** ** Exceptions *)

Inductive exn : Type :=
  | EmbeddingFailure
  | IndexError
  | ValueError (msg : string)
  | IntegrityError.

Inductive result (A : Type) : Type :=
  | Ok (a : A)
  | Err (e : exn).
Arguments Ok {A} a.
Arguments Err {A} e.

(** The built-in exceptions of Python the other operations raise. *)
Inductive py_error : Type :=
  | AttributeError
  | KeyError
  | TypeError
  | OSError
  | OverflowError.

Inductive outcome (A : Type) : Type :=
  | Done (a : A)
  | Raise (err : py_error).

Arguments Done {A} a.
Arguments Raise {A} err.

Definition and_then {A B : Type} (x : outcome A) (f : A → outcome B)
    : outcome B :=
  match x with
  | Done a => f a
  | Raise err => Raise err
  end.

(** ** numpy floating-point values *)

#[global] Instance R_eq_dec : EqDecision R := Req_dec_T.
#[global] Instance Rlt_decision (x y : R) : Decision (x < y)%R := Rlt_dec x y.

(** A numpy float: a real number or one of the IEEE special values. *)
Inductive npfloat : Type :=
  | Fin (r : R)
  | PInf
  | NInf
  | NaN.

(** The comparisons and the maximum the program applies to floats: they
    round nothing, so they are functions of the values. *)
Module Np.

(** [np.maximum]: a [nan] operand wins. *)
Definition maximum (a b : npfloat) : npfloat :=
  match a, b with
  | NaN, _ | _, NaN => NaN
  | PInf, _ | _, PInf => PInf
  | NInf, x | x, NInf => x
  | Fin x, Fin y => Fin (Rmax x y)
  end.

(** [np.max] of a one-dimensional array; it raises on an empty one. *)
Fixpoint max (l : list npfloat) : option npfloat :=
  match l with
  | [] => None
  | x :: t =>
      match max t with
      | None => Some x
      | Some m => Some (maximum x m)
      end
  end.

(** Python's [x < r] and [x > r] for a float [x] and a finite [r]:
    every comparison with [nan] is false. *)
Definition lt (x : npfloat) (r : R) : bool :=
  match x with
  | Fin a => if Rlt_dec a r then true else false
  | NInf => true
  | PInf | NaN => false
  end.

Definition gt (x : npfloat) (r : R) : bool :=
  match x with
  | Fin a => if Rlt_dec r a then true else false
  | PInf => true
  | NInf | NaN => false
  end.

Definition is_nan (x : npfloat) : bool :=
  match x with NaN => true | _ => false end.

(** The order of the floats that are not [nan]. *)
Definition le (x y : npfloat) : Prop :=
  match x, y with
  | NaN, _ | _, NaN => False
  | NInf, _ | _, PInf => True
  | Fin a, Fin b => (a <= b)%R
  | PInf, _ | _, NInf => False
  end.

End Np.

(** The unit interval, as a property of a returned score. *)
Definition in_interval (lo hi : R) (x : npfloat) : Prop :=
  match x with
  | Fin r => (lo <= r <= hi)%R
  | _ => False
  end.

Definition vec : Type := list R.

(** ** numpy's arithmetic *)

(** The operations [calculate_surprise] computes in floating point. The
    rows of the arrays the program multiplies have one length, the
    dimension of the embedding. *)
Class Numpy : Type := {
  (** [np.dot] of two rows and [np.linalg.norm] of a row. *)
  np_dot : vec → vec → npfloat;
  np_norm : vec → npfloat;
  (** [x * y], [x / y] and [1.0 - x]. *)
  np_mul : npfloat → npfloat → npfloat;
  np_div : npfloat → npfloat → npfloat;
  np_one_minus : npfloat → npfloat
}.

(** Facts of IEEE 754 arithmetic, in every format: they hold of the
    operations on floats, whatever the rounding. *)
Record IEEE754 (np : Numpy) : Prop := {
  (** A row of zeros has the dot product zero with every row, and the
      norm zero. *)
  np_dot_zeros : ∀ h v, Forall (λ x, x = 0%R) h → np_dot h v = Fin 0;
  np_norm_zeros : ∀ h, Forall (λ x, x = 0%R) h → np_norm h = Fin 0;
  (** [0 * y] is zero, or [nan] when [y] is infinite or [nan]. *)
  np_mul_zero : ∀ y, np_mul (Fin 0) y = Fin 0 ∨ np_mul (Fin 0) y = NaN;
  (** [0 / 0] is [nan], and so is every quotient by [nan]. *)
  np_div_zero_zero : np_div (Fin 0) (Fin 0) = NaN;
  np_div_nan : ∀ x, np_div x NaN = NaN;
  (** [1.0 - nan] is [nan]. *)
  np_one_minus_nan : np_one_minus NaN = NaN;
  (** Rounding is monotone and keeps 0 and 1: [1.0 - x] is in the unit
      interval when [x] is, and a larger [x] gives no larger [1.0 - x]. *)
  np_one_minus_unit :
    ∀ x, (0 <= x <= 1)%R → in_interval 0 1 (np_one_minus (Fin x));
  np_one_minus_antitone :
    ∀ x y, Np.le x y → Np.le (np_one_minus y) (np_one_minus x)
}.

(** The arithmetic without rounding, on real numbers. *)
Module Exact.

Fixpoint dot (a b : list R) : R :=
  match a, b with
  | x :: a', y :: b' => (x * y + dot a' b')%R
  | _, _ => 0%R
  end.

Definition norm (a : list R) : R := sqrt (dot a a).

Definition mul (x y : npfloat) : npfloat :=
  match x, y with
  | NaN, _ | _, NaN => NaN
  | Fin a, Fin b => Fin (a * b)
  | Fin a, PInf | PInf, Fin a =>
      if Req_dec_T a 0 then NaN else if Rlt_dec 0 a then PInf else NInf
  | Fin a, NInf | NInf, Fin a =>
      if Req_dec_T a 0 then NaN else if Rlt_dec 0 a then NInf else PInf
  | PInf, PInf | NInf, NInf => PInf
  | PInf, NInf | NInf, PInf => NInf
  end.

(** [0/0] is [nan], [x/0] is [±inf]; zero has no sign here. *)
Definition div (x y : npfloat) : npfloat :=
  match x, y with
  | NaN, _ | _, NaN => NaN
  | Fin a, Fin b =>
      if Req_dec_T b 0 then
        if Req_dec_T a 0 then NaN
        else if Rlt_dec 0 a then PInf else NInf
      else Fin (a / b)
  | Fin _, (PInf | NInf) => Fin 0
  | PInf, Fin b => if Rlt_dec b 0 then NInf else PInf
  | NInf, Fin b => if Rlt_dec b 0 then PInf else NInf
  | (PInf | NInf), (PInf | NInf) => NaN
  end.

Definition one_minus (x : npfloat) : npfloat :=
  match x with
  | Fin r => Fin (1 - r)
  | PInf => NInf
  | NInf => PInf
  | NaN => NaN
  end.

End Exact.

Definition exact_numpy : Numpy := {|
  np_dot h v := Fin (Exact.dot h v);
  np_norm h := Fin (Exact.norm h);
  np_mul := Exact.mul;
  np_div := Exact.div;
  np_one_minus := Exact.one_minus
|}.

(** ** core_logic.py: [MemoryLogic.calculate_surprise] *)

Section Surprise.

Context {np : Numpy}.

(** [self.model.encode]: one vector per text, or an exception. *)
Variable embed : string → option vec.

Definition encode (texts : list string) : option (list vec) :=
  mapM embed texts.

(** Cosine similarity of one historical row with the new embedding, as
    the quotient numpy computes:
    [np.dot(hist, new) / (norm(hist, axis=1) * norm(new))]. *)
Definition similarity (new_embedding h : vec) : npfloat :=
  np_div (np_dot h new_embedding)
    (np_mul (np_norm h) (np_norm new_embedding)).

Definition calculate_surprise
    (new_content : string) (historical_contents : list string)
    : result npfloat :=
  match historical_contents with
  | [] => Ok (Fin 1)
  | _ :: _ =>
      match encode [new_content] with
      | None => Err EmbeddingFailure
      | Some [] => Err IndexError
      | Some (new_embedding :: _) =>
          match encode historical_contents with
          | None => Err EmbeddingFailure
          | Some hist_embeddings =>
              let similarities :=
                map (similarity new_embedding) hist_embeddings in
              match Np.max similarities with
              | None => Err (ValueError "zero-size array")
              | Some max_sim => Ok (np_one_minus max_sim)
              end
          end
      end
  end.

End Surprise.

(** ** memory_engine.py: the tables *)

(** Scalar values of the [node_data] dictionary. The column holds the JSON
    text of a dictionary with string keys; [json.loads] after [json.dumps]
    gives the dictionary back, so the row carries the dictionary itself. *)
Inductive json : Type :=
  | JNull
  | JBool (b : bool)
  | JInt (z : Z)
  | JStr (s : string).

Record Interaction : Type := mkInteraction {
  i_id : nat;
  i_timestamp : Z;
  i_role : string;
  i_content : string;
  i_surprise_score : npfloat;
  i_conversation_id : string
}.

Record VectorRecord : Type := mkVectorRecord {
  v_vector : vec;
  v_id : string;
  v_content : string;
  v_role : string;
  v_conversation_id : string;
  v_timestamp : Z
}.

Record KnowledgeNode : Type := mkKnowledgeNode {
  n_id : nat;
  n_entity : string;
  n_description : string;
  n_node_data : gmap string json
}.

Record KnowledgeEdge : Type := mkKnowledgeEdge {
  e_id : nat;
  e_source_id : nat;
  e_target_id : nat;
  e_relationship : string;
  e_weight : R
}.

(** The persisted state a [MemoryEngine] works on: the three SQLite tables
    and the LanceDB table "master_vectors". *)
Record Engine : Type := mkEngine {
  interactions : list Interaction;
  master_vectors : option (list VectorRecord);
  knowledge_nodes : list KnowledgeNode;
  knowledge_edges : list KnowledgeEdge
}.

Definition empty_engine : Engine := mkEngine [] None [] [].

(** The integer primary key SQLite gives to a new row: one more than the
    largest key in the table, 1 in an empty table. *)
Definition next_rowid (ids : list nat) : nat := S (max_list ids).

(** [str(interaction_id)]. *)
Definition str (n : nat) : string := pretty n.

(** ** Episodic store *)

(** [ORDER BY timestamp DESC]. SQL leaves the order of rows with equal
    time stamps open: here it is the order [merge_sort] gives them, and
    [most_recent] below says what is claimed of the rows returned whatever
    that order is. *)
Definition newer_first (a b : Interaction) : Prop :=
  (i_timestamp b ≤ i_timestamp a)%Z.

#[global] Instance newer_first_dec (a b : Interaction) :
  Decision (newer_first a b) := Z_le_dec _ _.

Definition retrieve_episodic
    (e : Engine) (conversation_id : string) (limit : nat)
    : list Interaction :=
  take limit
    (merge_sort newer_first
       (filter (λ i, i_conversation_id i = conversation_id)
          (interactions e))).

Section Ingest.

Context {np : Numpy}.

(** The embedding model is called at two moments, before and after the
    commit of the row: [embed] is what it does while the score is computed,
    [embed_later] what it does for the vector record. A deterministic model
    is the same function twice. *)
Variable embed embed_later : string → option vec.

(** [ingest_interaction]; [now] and [now_vec] are the two clock readings,
    one for the row and one for the vector record. The state returned next
    to an error is the state the exception leaves behind. The column
    [surprise_score] is [NOT NULL] and SQLite stores [nan] as [NULL]: the
    commit of a row whose score is [nan] raises [IntegrityError] and writes
    nothing. *)
Definition ingest_interaction
    (e : Engine) (now now_vec : Z)
    (conversation_id role content : string) : result nat * Engine :=
  let history := retrieve_episodic e conversation_id 50 in
  let hist_contents := i_content <$> history in
  match calculate_surprise embed content hist_contents with
  | Err err => (Err err, e)
  | Ok surprise_score =>
      if Np.is_nan surprise_score then (Err IntegrityError, e)
      else
      let interaction_id := next_rowid (i_id <$> interactions e) in
      let interaction :=
        mkInteraction interaction_id now role content surprise_score
          conversation_id in
      let e1 :=
        mkEngine (interactions e ++ [interaction]) (master_vectors e)
          (knowledge_nodes e) (knowledge_edges e) in
      match encode embed_later [content] with
      | None => (Err EmbeddingFailure, e1)
      | Some [] => (Err IndexError, e1)
      | Some (embedding :: _) =>
          let data_packet :=
            [mkVectorRecord embedding (str interaction_id) content role
               conversation_id now_vec] in
          let table :=
            match master_vectors e1 with
            | None => data_packet
            | Some rows => rows ++ data_packet
            end in
          (Ok interaction_id,
           mkEngine (interactions e1) (Some table)
             (knowledge_nodes e1) (knowledge_edges e1))
      end
  end.

End Ingest.

(** ** Pruning and consolidation *)

(** The [WHERE] clause of [prune_interactions]. *)
Definition prunable (cid : string) (threshold : R) (i : Interaction) : Prop :=
  i_conversation_id i = cid ∧ Np.lt (i_surprise_score i) threshold.

Definition to_prune
    (e : Engine) (conversation_id : string) (threshold : R)
    : list Interaction :=
  filter (prunable conversation_id threshold) (interactions e).

Definition ids_to_prune
    (e : Engine) (conversation_id : string) (threshold : R) : list string :=
  (λ i, str (i_id i)) <$> to_prune e conversation_id threshold.

(** [prune_interactions]: rows are deleted from SQLite by primary key, then
    the same identities are deleted from the vector table; a missing table
    raises inside the [try] and is only reported. *)
Definition prune_interactions
    (e : Engine) (conversation_id : string) (threshold : R) : nat * Engine :=
  let doomed := to_prune e conversation_id threshold in
  let ids := ids_to_prune e conversation_id threshold in
  if decide (ids = []) then (0, e)
  else
    let rows :=
      filter (λ i, i_id i ∉ i_id <$> doomed) (interactions e) in
    let table :=
      filter (λ r, v_id r ∉ ids) <$> master_vectors e in
    (length ids,
     mkEngine rows table (knowledge_nodes e) (knowledge_edges e)).

(** [consolidate_memory], up to the formatting of its report: the promotion
    candidates, the number of pruned rows, and the state left behind. *)
Definition consolidate_memory
    (e : Engine) (conversation_id : string)
    : list Interaction * nat * Engine :=
  let history := retrieve_episodic e conversation_id 100 in
  let high_surprise :=
    filter (λ h, Np.gt (i_surprise_score h) 0.5) history in
  let '(num_pruned, e') := prune_interactions e conversation_id 0.1 in
  (high_surprise, num_pruned, e').

(** ** Knowledge graph *)

#[global] Instance json_eq_dec : EqDecision json.
Proof. solve_decision. Defined.

Definition newline : string := String (Ascii.ascii_of_nat 10) EmptyString.

(** The text put between the old and the new description. *)
Definition separator : string := newline +:+ "---" +:+ newline.

(** [select(KnowledgeNode).where(KnowledgeNode.entity == entity).first()]. *)
Definition find_entity (e : Engine) (entity : string) : option KnowledgeNode :=
  head (filter (λ n, n_entity n = entity) (knowledge_nodes e)).

(** [session.get(KnowledgeNode, id)]. *)
Definition get_node (e : Engine) (id : nat) : option KnowledgeNode :=
  head (filter (λ n, n_id n = id) (knowledge_nodes e)).

(** [current_data.update(node_data)], skipped when [node_data] is [None] or
    an empty dictionary. *)
Definition merge_node_data
    (current : gmap string json) (node_data : option (gmap string json))
    : gmap string json :=
  match node_data with
  | Some d => if decide (d = ∅) then current else d ∪ current
  | None => current
  end.

(** The row update [UPDATE knowledgenode ... WHERE id = ?]. *)
Definition update_node (updated : KnowledgeNode) (n : KnowledgeNode)
    : KnowledgeNode :=
  if decide (n_id n = n_id updated) then updated else n.

(** [add_knowledge_node]: an existing entity has its description extended
    and its attributes merged; a new entity gets a new row. *)
Definition add_knowledge_node
    (e : Engine) (entity description : string)
    (node_data : option (gmap string json)) : nat * Engine :=
  match find_entity e entity with
  | Some existing =>
      let updated :=
        mkKnowledgeNode (n_id existing) (n_entity existing)
          (n_description existing +:+ separator +:+ description)
          (merge_node_data (n_node_data existing) node_data) in
      (n_id existing,
       mkEngine (interactions e) (master_vectors e)
         (update_node updated <$> knowledge_nodes e)
         (knowledge_edges e))
  | None =>
      let node :=
        mkKnowledgeNode (next_rowid (n_id <$> knowledge_nodes e)) entity
          description (default ∅ node_data) in
      (n_id node,
       mkEngine (interactions e) (master_vectors e)
         (knowledge_nodes e ++ [node]) (knowledge_edges e))
  end.

(** The exception [add_knowledge_edge] raises for an entity without node. *)
Definition unknown_entity : exn :=
  ValueError "Source or Target entity not found in Knowledge Graph".

Definition add_knowledge_edge
    (e : Engine) (source_entity target_entity relationship : string)
    (weight : R) : result nat * Engine :=
  match find_entity e source_entity, find_entity e target_entity with
  | Some source, Some target =>
      let edge :=
        mkKnowledgeEdge (next_rowid (e_id <$> knowledge_edges e))
          (n_id source) (n_id target) relationship weight in
      (Ok (e_id edge),
       mkEngine (interactions e) (master_vectors e) (knowledge_nodes e)
         (knowledge_edges e ++ [edge]))
  | _, _ => (Err unknown_entity, e)
  end.

(** ** Knowledge graph: traversal *)

(** One entry of the result list of [traverse_graph]. *)
Record PathRecord : Type := mkPathRecord {
  p_source : string;
  p_relationship : string;
  p_target : string;
  p_description : string
}.

(** A hop of the traversal: the node expanded, the edge followed and the
    node reached. The dictionary appended to [results] is built from these
    three rows. *)
Definition Hop : Type := KnowledgeNode * KnowledgeEdge * KnowledgeNode.

Definition hop_target (h : Hop) : KnowledgeNode := h.2.

Definition record_of (h : Hop) : PathRecord :=
  mkPathRecord (n_entity h.1.1) (e_relationship h.1.2) (n_entity h.2)
    (n_description h.2).

(** [select(KnowledgeEdge).where(KnowledgeEdge.source_id == id).all()]. *)
Definition edges_from (e : Engine) (id : nat) : list KnowledgeEdge :=
  filter (λ edge, e_source_id edge = id) (knowledge_edges e).

(** The [for edge in edges] loop on [visited], [results] and [queue]. *)
Fixpoint expand
    (e : Engine) (current_node : KnowledgeNode) (depth : nat)
    (edges : list KnowledgeEdge)
    (visited : gset nat) (results : list Hop)
    (queue : list (KnowledgeNode * nat))
    : gset nat * list Hop * list (KnowledgeNode * nat) :=
  match edges with
  | [] => (visited, results, queue)
  | edge :: edges' =>
      match get_node e (e_target_id edge) with
      | Some target_node =>
          if decide (n_id target_node ∈ visited)
          then expand e current_node depth edges' visited results queue
          else
            expand e current_node depth edges'
              ({[n_id target_node]} ∪ visited)
              (results ++ [(current_node, edge, target_node)])
              (queue ++ [(target_node, S depth)])
      | None => expand e current_node depth edges' visited results queue
      end
  end.

(** The [while queue] loop, bounded by [fuel] iterations: [None] when the
    bound is reached with a non-empty queue. *)
Fixpoint bfs
    (fuel : nat) (e : Engine) (max_depth : Z)
    (visited : gset nat) (results : list Hop)
    (queue : list (KnowledgeNode * nat)) {struct fuel}
    : option (list Hop) :=
  match queue with
  | [] => Some results
  | (current_node, depth) :: rest =>
      match fuel with
      | 0 => None
      | S fuel' =>
          if decide (max_depth ≤ Z.of_nat depth)%Z
          then bfs fuel' e max_depth visited results rest
          else
            let '(visited', results', queue') :=
              expand e current_node depth
                (edges_from e (n_id current_node)) visited results rest in
            bfs fuel' e max_depth visited' results' queue'
      end
  end.

(** The hops of a traversal; the loop is given one iteration per node row
    and one more, which is enough (see [traverse_hops_total]). *)
Definition traverse_hops
    (e : Engine) (start_entity : string) (max_depth : Z)
    : option (list Hop) :=
  match find_entity e start_entity with
  | None => Some []
  | Some start_node =>
      bfs (S (length (knowledge_nodes e))) e max_depth
        {[n_id start_node]} [] [(start_node, 0)]
  end.

(** [traverse_graph]: the records of the hops. [None] stands for a loop
    that is not over within its bound, which does not happen (see
    [traverse_hops_total]). *)
Definition traverse_graph
    (e : Engine) (start_entity : string) (max_depth : Z)
    : option (list PathRecord) :=
  match traverse_hops e start_entity max_depth with
  | Some hops => Some (record_of <$> hops)
  | None => None
  end.

(** ** mcp_server.py: the conversation registry *)

(** What [get_conversation_id] reads and writes: the module global
    [_current_conversation_id], the working directory of the process, and
    the registry file ([None]: the file is missing or cannot be parsed, in
    which case [load_project_registry] returns the empty dictionary).
    The file holds what the server writes to it, a JSON object from
    directories to identifiers, and it can be written. A file that holds
    other JSON, on which the membership test or the assignment raises, and
    a save that fails are not among the states of [Server]: the statements
    about the registry are about the runs in which these calls return. *)
Record Server : Type := mkServer {
  current_conversation_id : option string;
  cwd : string;
  registry_file : option (gmap string string)
}.

Definition load_project_registry (s : Server) : gmap string string :=
  default ∅ (registry_file s).

(** [fresh] is the identifier the generator gives at the time of the call
    (a timestamp and a random suffix); it is used only when no identifier
    is known for the directory. *)
Definition get_conversation_id (fresh : string) (s : Server)
    : string * Server :=
  match current_conversation_id s with
  | Some id => (id, s)
  | None =>
      let registry := load_project_registry s in
      match registry !! cwd s with
      | Some id => (id, mkServer (Some id) (cwd s) (registry_file s))
      | None =>
          (fresh,
           mkServer (Some fresh) (cwd s)
             (Some (<[cwd s := fresh]> registry)))
      end
  end.

(** [reset_conversation_id]: a new identifier, whatever was known. *)
Definition reset_conversation_id (fresh : string) (s : Server)
    : string * Server :=
  let registry := load_project_registry s in
  (fresh,
   mkServer (Some fresh) (cwd s) (Some (<[cwd s := fresh]> registry))).

(** A new process started in the same directory on the same files. *)
Definition restart (s : Server) : Server :=
  mkServer None (cwd s) (registry_file s).

(** ** Vocabulary of the statements *)

(** What "the up-to-[n] most recent interactions of a conversation" means:
    at most [n] rows of that conversation, newest first, and no row of the
    conversation left out is newer than a row taken. *)
Definition most_recent
    (e : Engine) (cid : string) (n : nat) (l : list Interaction) : Prop :=
  length l ≤ n
  ∧ StronglySorted newer_first l
  ∧ (∀ i, i ∈ l → i ∈ interactions e ∧ i_conversation_id i = cid)
  ∧ (∀ i j, i ∈ l → j ∈ interactions e → i_conversation_id j = cid →
            j ∉ l → newer_first i j)
  ∧ (length l < n →
     ∀ j, j ∈ interactions e → i_conversation_id j = cid → j ∈ l).

(** The invariant of the node table: the primary key is unique, and so is
    the entity, which [add_knowledge_node] looks up before it inserts. *)
Definition nodes_wf (e : Engine) : Prop :=
  NoDup (n_id <$> knowledge_nodes e) ∧ NoDup (n_entity <$> knowledge_nodes e).

(** [t in s] on Python strings. *)
Definition contains (s t : string) : Prop :=
  ∃ pre post, s = pre +:+ (t +:+ post).

(** The identities of the nodes reached, in the order of the hops. *)
Definition target_ids (hops : list Hop) : list nat :=
  (λ h, n_id (hop_target h)) <$> hops.

(** The hops appended by the [for edge in edges] loop, as a function of the
    edges and of the visited set at its start. *)
Fixpoint new_hops
    (e : Engine) (current_node : KnowledgeNode)
    (edges : list KnowledgeEdge) (visited : gset nat) : list Hop :=
  match edges with
  | [] => []
  | edge :: edges' =>
      match get_node e (e_target_id edge) with
      | Some target_node =>
          if decide (n_id target_node ∈ visited)
          then new_hops e current_node edges' visited
          else
            (current_node, edge, target_node)
            :: new_hops e current_node edges' ({[n_id target_node]} ∪ visited)
      | None => new_hops e current_node edges' visited
      end
  end.

(** The queue entries the loop appends with these hops. *)
Definition enqueue (depth : nat) (hops : list Hop)
    : list (KnowledgeNode * nat) :=
  (λ h, (hop_target h, S depth)) <$> hops.

(** An edge followed from [cur] is the first edge of its list that leads to
    its target. *)
Definition first_to_target
    (edges : list KnowledgeEdge) (edge : KnowledgeEdge) : Prop :=
  ∃ before after,
    edges = before ++ edge :: after
    ∧ Forall (λ e', e_target_id e' ≠ e_target_id edge) before.

(** A hop follows an edge of the table out of its source node to the node
    the edge designates, and that edge is the first out-edge of the source,
    in creation order, that leads there. *)
Definition hop_ok (e : Engine) (h : Hop) : Prop :=
  (h.1).2 ∈ knowledge_edges e
  ∧ e_source_id (h.1).2 = n_id (h.1).1
  ∧ get_node e (e_target_id (h.1).2) = Some (hop_target h)
  ∧ first_to_target (edges_from e (n_id (h.1).1)) (h.1).2.

(** [visited] is the start node and the nodes reached so far, each once. *)
Definition bfs_inv
    (e : Engine) (start_node : KnowledgeNode)
    (visited : gset nat) (results : list Hop) : Prop :=
  visited = list_to_set (n_id start_node :: target_ids results)
  ∧ NoDup (n_id start_node :: target_ids results)
  ∧ Forall (hop_ok e) results.

(** Rows of the node table whose identity is not in the visited set. *)
Definition unvisited (e : Engine) (V : gset nat) : nat :=
  length (filter (λ n, n_id n ∉ V) (knowledge_nodes e)).

(** The nodes in the order in which the traversal first meets them. *)
Definition discovered (start_node : KnowledgeNode) (hops : list Hop)
    : list KnowledgeNode :=
  start_node :: (hop_target <$> hops).

(** Every out-edge of [u] leads to a visited node. *)
Definition closed (e : Engine) (V : gset nat) (u : KnowledgeNode) : Prop :=
  Forall (λ edge, ∀ t, get_node e (e_target_id edge) = Some t → n_id t ∈ V)
    (edges_from e (n_id u)).

(** No out-edge of [u] has the target of [edge]. *)
Definition no_edge_to
    (e : Engine) (u : KnowledgeNode) (edge : KnowledgeEdge) : Prop :=
  Forall (λ edge', e_target_id edge' ≠ e_target_id edge)
    (edges_from e (n_id u)).

(** The source of a hop is the earliest node, in the order given, with an
    edge to the target of the hop. *)
Definition earliest_source
    (e : Engine) (order : list KnowledgeNode) (h : Hop) : Prop :=
  ∃ earlier later,
    order = earlier ++ (h.1).1 :: later
    ∧ Forall (λ u, no_edge_to e u (h.1).2) earlier.

(** The depths along the queue: they go up, by at most one in all. *)
Definition depth_ok (ds : list nat) : Prop :=
  StronglySorted le ds
  ∧ match ds with
    | [] => True
    | d0 :: rest => Forall (λ x, x ≤ S d0) rest
    end.

(** The part of the loop invariant that is about order: [done] are the
    nodes taken off the queue. *)
Definition order_inv
    (e : Engine) (start_node : KnowledgeNode) (max_depth : Z)
    (done : list KnowledgeNode) (V : gset nat) (r : list Hop)
    (q : list (KnowledgeNode * nat)) : Prop :=
  discovered start_node r = done ++ (fst <$> q)
  ∧ depth_ok (snd <$> q)
  ∧ Forall (λ u, closed e V u
                 ∨ Forall (λ x, (max_depth ≤ Z.of_nat x.2)%Z) q) done
  ∧ Forall (earliest_source e (discovered start_node r)) r.

(** ** Example data *)

(** Three embedding functions: one with two opposite vectors, one with a
    zero vector, one that always fails. *)
Definition embed_signed (s : string) : option vec :=
  if decide (s = "b") then Some [(-1)%R] else Some [1%R].

Definition embed_zero (s : string) : option vec :=
  if decide (s = "z") then Some [0%R] else Some [1%R].

Definition embed_fail (s : string) : option vec := None.

(** An episodic store with a redundant row, a novel row and a row of
    another conversation. *)
Definition row1 : Interaction := mkInteraction 1 10 "user" "a" (Fin 0.05) "s1".
Definition row2 : Interaction := mkInteraction 2 20 "user" "b" (Fin 0.7) "s1".
Definition row3 : Interaction := mkInteraction 3 30 "user" "c" (Fin 0.3) "s2".

Definition example_engine : Engine := mkEngine [row1; row2; row3] None [] [].

(** The scenario of the specification: "X" added with "first", then with
    "second". *)
Definition engine_with_x : Engine :=
  (add_knowledge_node empty_engine "X" "first" None).2.

(** A graph with a cycle and a doubled edge: A -knows-> B, A -likes-> B and
    B -knows-> A. *)
Definition node_a : KnowledgeNode := mkKnowledgeNode 1 "A" "first node" ∅.
Definition node_b : KnowledgeNode := mkKnowledgeNode 2 "B" "second node" ∅.
Definition edge_ab : KnowledgeEdge := mkKnowledgeEdge 1 1 2 "knows" 1.
Definition edge_ab' : KnowledgeEdge := mkKnowledgeEdge 2 1 2 "likes" 1.
Definition edge_ba : KnowledgeEdge := mkKnowledgeEdge 3 2 1 "knows" 1.

Definition cyclic_engine : Engine :=
  mkEngine [] None [node_a; node_b] [edge_ab; edge_ab'; edge_ba].

(** ** Further operations of the engine *)

(** Clock readings count microseconds, the resolution of [datetime],
    from the first instant of the year 1; [datetime_max] is the last
    instant of the year 9999. *)
Definition datetime_max : Z := 3652059 * 86400000000 - 1.

(** [timedelta(hours=hours)], in microseconds: the days of a [timedelta]
    have magnitude at most 999999999. *)
Definition timedelta_hours (hours : Z) : outcome Z :=
  if decide (-999999999 ≤ hours `div` 24 ≤ 999999999)%Z
  then Done (hours * 3600000000)%Z
  else Raise OverflowError.

(** [t - delta] on a [datetime]: the result is a [datetime]. *)
Definition datetime_sub (t delta : Z) : outcome Z :=
  if decide (0 ≤ t - delta ≤ datetime_max)%Z
  then Done (t - delta)%Z
  else Raise OverflowError.

(** [fetch_recent_activities]: the rows of every conversation stamped at or
    after [now] minus [hours], newest first. *)
Definition fetch_recent_activities
    (e : Engine) (now hours : Z) : outcome (list Interaction) :=
  and_then (timedelta_hours hours) (λ delta,
  and_then (datetime_sub now delta) (λ cutoff,
  Done
    (merge_sort newer_first
       (filter (λ i, (cutoff ≤ i_timestamp i)%Z) (interactions e))))).

(** The windows [fetch_recent_activities] can compute. *)
Definition window_ok (now hours : Z) : Prop :=
  (-999999999 ≤ hours `div` 24 ≤ 999999999)%Z
  ∧ (0 ≤ now - hours * 3600000000 ≤ datetime_max)%Z.

(** [get_all_nodes]. *)
Definition get_all_nodes (e : Engine) : list KnowledgeNode :=
  knowledge_nodes e.

(** The rows of the vector table, none when the table was never created. *)
Definition vector_rows (e : Engine) : list VectorRecord :=
  default [] (master_vectors e).

(** A vector record is backed by a row: same identity, same content, role
    and conversation. *)
Definition backed_by (r : VectorRecord) (i : Interaction) : Prop :=
  v_id r = str (i_id i)
  ∧ v_content r = i_content i
  ∧ v_role r = i_role i
  ∧ v_conversation_id r = i_conversation_id i.

(** The invariant of the two stores: the primary key of the interactions is
    unique, every vector record is backed by an interaction, and no two
    vector records have one identity. *)
Definition store_inv (e : Engine) : Prop :=
  NoDup (i_id <$> interactions e)
  ∧ Forall (λ r, ∃ i, i ∈ interactions e ∧ backed_by r i) (vector_rows e)
  ∧ NoDup (v_id <$> vector_rows e).

(** ** Vocabulary: integrity of the graph and reachability *)

(** The invariant of the edge table: the primary key is unique, and both
    ends of every edge are rows of the node table. *)
Definition edges_wf (e : Engine) : Prop :=
  NoDup (e_id <$> knowledge_edges e)
  ∧ Forall (λ edge, is_Some (get_node e (e_source_id edge))
                    ∧ is_Some (get_node e (e_target_id edge)))
      (knowledge_edges e).

Definition graph_inv (e : Engine) : Prop := nodes_wf e ∧ edges_wf e.

(** [reach e a k b]: [k] edges of the table lead from the node with
    identity [a] to the node with identity [b], each to a row that exists. *)
Inductive reach (e : Engine) (a : nat) : nat → nat → Prop :=
  | reach_here : reach e a 0 a
  | reach_step (k b : nat) (edge : KnowledgeEdge) (t : KnowledgeNode) :
      reach e a k b →
      edge ∈ knowledge_edges e →
      e_source_id edge = b →
      get_node e (e_target_id edge) = Some t →
      reach e a (S k) (n_id t).

(** The loop invariant on depths: [done] are the queue entries taken off
    so far. The entries are the nodes discovered; those taken off have
    depths below those waiting; and every out-edge of an entry expanded
    leads to an entry at most one level deeper. *)
Definition reach_inv
    (e : Engine) (start_node : KnowledgeNode) (max_depth : Z)
    (done : list (KnowledgeNode * nat)) (V : gset nat) (r : list Hop)
    (q : list (KnowledgeNode * nat)) : Prop :=
  discovered start_node r = fst <$> (done ++ q)
  ∧ V = list_to_set (n_id <$> discovered start_node r)
  ∧ depth_ok (snd <$> q)
  ∧ (∀ x y, x ∈ done → y ∈ q → x.2 ≤ y.2)
  ∧ (∀ x edge t,
       x ∈ done → (Z.of_nat x.2 < max_depth)%Z →
       edge ∈ edges_from e (n_id x.1) →
       get_node e (e_target_id edge) = Some t →
       ∃ y, y ∈ done ++ q ∧ n_id y.1 = n_id t ∧ y.2 ≤ S x.2)
  ∧ (start_node, 0) ∈ done ++ q.

(** The loop invariant on paths: a queue entry is as many edges away from
    the start as its depth says, and every node reached is within the
    bound. *)
Definition sound_inv
    (e : Engine) (start_node : KnowledgeNode) (max_depth : Z)
    (r : list Hop) (q : list (KnowledgeNode * nat)) : Prop :=
  Forall (λ x, reach e (n_id start_node) x.2 (n_id x.1)) q
  ∧ Forall (λ h, ∃ k, 1 ≤ k ∧ (Z.of_nat k ≤ max_depth)%Z
                      ∧ reach e (n_id start_node) k (n_id (hop_target h)))
      r.

(** ** ingestion.py: [UniversalLogIngester] *)

#[local] Set Warnings "-register-all".

(** A value [json.load] returns. An [int] is an integer and a [float] an
    exact rational ([nan] and the infinities, which [json.load] accepts
    too, are left out); a [dict] is a finite map, in which a key bound to
    [null] is a key of the map. *)
Inductive jvalue : Type :=
  | VNull
  | VBool (b : bool)
  | VInt (n : Z)
  | VFloat (q : Qc)
  | VStr (s : string)
  | VList (l : list jvalue)
  | VDict (d : gmap string jvalue).

(** The truth value of a Python object: [not x] is its negation. *)
Definition truthy (x : jvalue) : bool :=
  match x with
  | VNull => false
  | VBool b => b
  | VInt n => negb (bool_decide (n = 0%Z))
  | VFloat q => negb (bool_decide (q = 0%Qc))
  | VStr s => negb (bool_decide (s = EmptyString))
  | VList l => negb (bool_decide (length l = 0))
  | VDict d => negb (bool_decide (size d = 0))
  end.

(** [x or y]. *)
Definition py_or (x y : jvalue) : jvalue := if truthy x then x else y.

(** [s.split(sep)] for a separator of one character: the pieces between
    the occurrences of [sep], one piece more than there are occurrences. *)
Fixpoint split_on (sep : Ascii.ascii) (s : string) : list string :=
  match s with
  | EmptyString => [EmptyString]
  | String c s' =>
      if decide (c = sep) then EmptyString :: split_on sep s'
      else
        match split_on sep s' with
        | [] => [String c EmptyString]
        | piece :: pieces => String c piece :: pieces
        end
  end.

(** [s.replace(c, new)] for an old text of one character. *)
Fixpoint replace_char (c : Ascii.ascii) (new s : string) : string :=
  match s with
  | EmptyString => EmptyString
  | String a s' =>
      if decide (a = c) then new +:+ replace_char c new s'
      else String a (replace_char c new s')
  end.

(** The loop of [_extract_field] over the keys of the path. *)
Fixpoint extract_keys (val : jvalue) (keys : list string) : jvalue :=
  match keys with
  | [] => val
  | k :: keys' =>
      match val with
      | VDict d => extract_keys (default VNull (d !! k)) keys'
      | _ => VNull
      end
  end.

(** [_extract_field]: [None] is [VNull]. *)
Definition _extract_field (record : jvalue) (field_path : string) : jvalue :=
  match field_path with
  | EmptyString => VNull
  | String _ _ => extract_keys record (split_on "."%char field_path)
  end.

(** The bound above which a number is taken for milliseconds: [1e11]. *)
Definition millis_from : Qc := Qc_of_Z 100000000000.

(** The integers [float(n)] and [n / 1000.0] convert to a float: at
    [2^1024 - 2^970], half-way between the largest float and [2^1024], and
    beyond, the conversion raises [OverflowError]. *)
Definition float_max_int : Z := 2 ^ 1024 - 2 ^ 970.

(** The numeric branch of [_parse_timestamp]. *)
Definition to_seconds (ts_val : Qc) : Qc :=
  if decide (millis_from < ts_val)%Qc then (ts_val / Qc_of_Z 1000)%Qc
  else ts_val.

(** One entry of the list [scan_all] returns; the [datetime] of its
    time stamp is represented by the POSIX seconds it was made from. *)
Record Activity : Type := mkActivity {
  a_source : string;
  a_project : jvalue;
  a_timestamp : Qc;
  a_role : jvalue;
  a_content : jvalue
}.

(** What a call of [_map_record] does: it returns an item, returns [None],
    or raises. *)
Inductive mapped : Type :=
  | Mapped (item : Activity)
  | NoItem
  | Raised.

(** A file the glob of a source finds: its modification time and its
    lines as Python reads them, each with its line end ([None]: the file
    cannot be opened). *)
Record LogFile : Type := mkLogFile {
  f_mtime : Qc;
  f_lines : option (list string)
}.

(** An entry of [external_sources], with the files its path matches. *)
Record Source : Type := mkSource {
  s_name : option string;
  s_format : option string;
  s_mapping : option (gmap string string);
  s_files : list LogFile
}.

Section Ingester.

(** What the library does for the ingester: [iso_timestamp s] is
    [datetime.fromisoformat(s).timestamp()], [None] when that raises;
    [representable ts] tells whether [datetime.fromtimestamp(ts)] is in
    the range of the platform, outside of which it raises; [strip] is
    [str.strip] and [loads] is [json.loads], [None] when it raises. *)
Variable iso_timestamp : string → option Qc.
Variable representable : Qc → bool.
Variable strip : string → string.
Variable loads : string → option jvalue.

(** [_parse_timestamp]. A [bool] is an [int] in Python; an [int] too
    large for a float raises [OverflowError]. *)
Definition _parse_timestamp (ts_val : jvalue) : outcome (option Qc) :=
  if truthy ts_val then
    match ts_val with
    | VBool b => Done (Some (to_seconds (if b then 1%Qc else 0%Qc)))
    | VInt n =>
        if decide (- float_max_int < n < float_max_int)%Z
        then Done (Some (to_seconds (Qc_of_Z n)))
        else Raise OverflowError
    | VFloat q => Done (Some (to_seconds q))
    | VStr s => Done (iso_timestamp (replace_char "Z"%char "+00:00" s))
    | VNull | VList _ | VDict _ => Done None
    end
  else Done None.

(** The field a mapping names, or a default where the mapping does not
    name one or the field is missing or false. *)
Definition mapped_field
    (raw_record : jvalue) (mapping : gmap string string) (key : string)
    (dflt : jvalue) : jvalue :=
  match mapping !! key with
  | Some field_path => py_or (_extract_field raw_record field_path) dflt
  | None => dflt
  end.

(** [_map_record]. *)
Definition _map_record
    (raw_record : jvalue) (name : string) (mapping : gmap string string)
    (file_ts cutoff_ts : Qc) : mapped :=
  let project := mapped_field raw_record mapping "project" (VStr "External") in
  let parsed :=
    match mapping !! "timestamp" with
    | Some field_path =>
        match _parse_timestamp (_extract_field raw_record field_path) with
        | Done (Some parsed_ts) =>
            Done (if decide (parsed_ts = 0%Qc) then file_ts else parsed_ts)
        | Done None => Done file_ts
        | Raise err => Raise err
        end
    | None => Done file_ts
    end in
  match parsed with
  | Raise _ => Raised
  | Done ts =>
      if decide (ts < cutoff_ts)%Qc then NoItem
      else
        let role := mapped_field raw_record mapping "role" (VStr "unknown") in
        let content :=
          mapped_field raw_record mapping "content" (VStr EmptyString) in
        if truthy content then
          if representable ts
          then Mapped (mkActivity name project ts role content)
          else Raised
        else NoItem
  end.

(** The loop of [_parse_jsonl] over the lines: a line that is blank, is
    not JSON, or makes [_map_record] raise is passed over. *)
Fixpoint jsonl_items
    (name : string) (mapping : gmap string string) (file_ts cutoff_ts : Qc)
    (lines : list string) : list Activity :=
  match lines with
  | [] => []
  | line :: lines' =>
      let items := jsonl_items name mapping file_ts cutoff_ts lines' in
      if decide (strip line = EmptyString) then items
      else
        match loads line with
        | Some record =>
            match _map_record record name mapping file_ts cutoff_ts with
            | Mapped item => item :: items
            | NoItem | Raised => items
            end
        | None => items
        end
  end.

Definition _parse_jsonl
    (f : LogFile) (name : string) (mapping : gmap string string)
    (cutoff_ts : Qc) : list Activity :=
  match f_lines f with
  | Some lines => jsonl_items name mapping (f_mtime f) cutoff_ts lines
  | None => []
  end.

(** The characters of a string, each a string. *)
Fixpoint chars (s : string) : list string :=
  match s with
  | EmptyString => []
  | String c s' => String c EmptyString :: chars s'
  end.

(** What [for record in records] goes through: the entries of a list, the
    keys of a dictionary (in the order of the map here, in insertion order
    in Python), the characters of a string; [None] for a value that cannot
    be iterated, on which the loop raises. *)
Definition iterate (records : jvalue) : option (list jvalue) :=
  match records with
  | VList l => Some l
  | VDict d => Some (VStr <$> (map_to_list d).*1)
  | VStr s => Some (VStr <$> chars s)
  | VNull | VBool _ | VInt _ | VFloat _ => None
  end.

(** The loop of [_parse_json] over the records, inside one [try]: the
    first record that makes [_map_record] raise ends it, and the items
    found before are kept. *)
Fixpoint json_items
    (name : string) (mapping : gmap string string) (file_ts cutoff_ts : Qc)
    (records : list jvalue) : list Activity :=
  match records with
  | [] => []
  | record :: records' =>
      match _map_record record name mapping file_ts cutoff_ts with
      | Mapped item =>
          item :: json_items name mapping file_ts cutoff_ts records'
      | NoItem => json_items name mapping file_ts cutoff_ts records'
      | Raised => []
      end
  end.

(** The records of a document: the root when it is a list, else the root
    alone; the value of ["messages"] when the root is a dictionary with that
    key. *)
Definition records_of (data : jvalue) : jvalue :=
  match data with
  | VList _ => data
  | VDict d =>
      match d !! "messages" with
      | Some messages => messages
      | None => VList [data]
      end
  | VNull | VBool _ | VInt _ | VFloat _ | VStr _ => VList [data]
  end.

(** [_parse_json]; [json.load] reads the whole file. *)
Definition _parse_json
    (f : LogFile) (name : string) (mapping : gmap string string)
    (cutoff_ts : Qc) : list Activity :=
  match f_lines f with
  | Some lines =>
      match loads (String.concat EmptyString lines) with
      | Some data =>
          match iterate (records_of data) with
          | Some records =>
              json_items name mapping (f_mtime f) cutoff_ts records
          | None => []
          end
      | None => []
      end
  | None => []
  end.

(** The loop of [_parse_text] over the lines. *)
Fixpoint text_items
    (name : string) (file_ts : Qc) (lines : list string) : list Activity :=
  match lines with
  | [] => []
  | line :: lines' =>
      let line := strip line in
      if decide (line = EmptyString) then text_items name file_ts lines'
      else if representable file_ts then
        mkActivity name (VStr "Log File") file_ts (VStr "system") (VStr line)
        :: text_items name file_ts lines'
      else []
  end.

(** [_parse_text]: the last 100 lines of the file. *)
Definition _parse_text
    (f : LogFile) (name : string) (cutoff_ts : Qc) : list Activity :=
  if decide (f_mtime f < cutoff_ts)%Qc then []
  else
    match f_lines f with
    | Some lines =>
        text_items name (f_mtime f) (drop (length lines - 100) lines)
    | None => []
    end.

(** What [_scan_source] adds to its results for one file. *)
Definition scan_file
    (name format_type : string) (mapping : gmap string string)
    (cutoff_ts : Qc) (f : LogFile) : list Activity :=
  if decide (f_mtime f < cutoff_ts)%Qc then []
  else if decide (format_type = "jsonl") then
    _parse_jsonl f name mapping cutoff_ts
  else if decide (format_type = "json") then
    _parse_json f name mapping cutoff_ts
  else if decide (format_type = "text") then _parse_text f name cutoff_ts
  else [].

Definition _scan_source (source_config : Source) (cutoff_ts : Qc)
    : list Activity :=
  let name := default "Unknown Source" (s_name source_config) in
  let format_type := default "json" (s_format source_config) in
  let mapping := default ∅ (s_mapping source_config) in
  concat (scan_file name format_type mapping cutoff_ts
            <$> s_files source_config).

(** [scan_all]; [now] is the clock, in POSIX seconds. *)
Definition scan_all (sources : list Source) (now : Qc) (hours : Z)
    : list Activity :=
  let cutoff_ts := (now - Qc_of_Z hours * Qc_of_Z 3600)%Qc in
  concat ((λ source, _scan_source source cutoff_ts) <$> sources).

End Ingester.

(** [c in s] for a character [c]. *)
Fixpoint occurs (c : Ascii.ascii) (s : string) : bool :=
  match s with
  | EmptyString => false
  | String a s' => if decide (a = c) then true else occurs c s'
  end.

(** [x.get(k)] for a value [x] that is a dictionary, [None] otherwise. *)
Definition get_key (x : jvalue) (k : string) : jvalue :=
  match x with
  | VDict d => default VNull (d !! k)
  | VNull | VBool _ | VInt _ | VFloat _ | VStr _ | VList _ => VNull
  end.

(** What holds of an item reported for the source [name] with the cutoff
    [cutoff_ts]: it names the source, its content, project and role are
    true values, and its time stamp is in the window and is a date. *)
Definition recent_item
    (representable : Qc → bool) (name : string) (cutoff_ts : Qc)
    (item : Activity) : Prop :=
  a_source item = name
  ∧ truthy (a_content item) = true
  ∧ truthy (a_project item) = true
  ∧ truthy (a_role item) = true
  ∧ (cutoff_ts ≤ a_timestamp item)%Qc
  ∧ representable (a_timestamp item) = true.

(** ** mcp_server.py: the configuration *)

(** [s.startswith(p)] and [p in s] on strings. *)
Fixpoint starts_with (p s : string) : bool :=
  match p, s with
  | EmptyString, _ => true
  | String a p', String b s' => bool_decide (a = b) && starts_with p' s'
  | String _ _, EmptyString => false
  end.

Fixpoint str_in (p s : string) : bool :=
  starts_with p s
  || match s with
     | EmptyString => false
     | String _ s' => str_in p s'
     end.

(** [k in x] for a string [k]: a key of a dictionary, an entry of a list,
    a part of a string; other values are not containers. *)
Definition py_in (k : string) (x : jvalue) : outcome bool :=
  match x with
  | VDict d => Done (bool_decide (is_Some (d !! k)))
  | VList l =>
      Done (existsb (λ y, match y with
                          | VStr s => bool_decide (s = k)
                          | _ => false
                          end) l)
  | VStr s => Done (str_in k s)
  | VNull | VBool _ | VInt _ | VFloat _ => Raise TypeError
  end.

(** [x[k]] for a string [k]. *)
Definition py_getitem (x : jvalue) (k : string) : outcome jvalue :=
  match x with
  | VDict d =>
      match d !! k with
      | Some v => Done v
      | None => Raise KeyError
      end
  | _ => Raise TypeError
  end.

(** [x[k] = v] for a string [k]. *)
Definition py_setitem (x : jvalue) (k : string) (v : jvalue)
    : outcome jvalue :=
  match x with
  | VDict d => Done (VDict (<[k := v]> d))
  | _ => Raise TypeError
  end.

(** [x.get(k, dflt)]. *)
Definition py_get (x : jvalue) (k : string) (dflt : jvalue)
    : outcome jvalue :=
  match x with
  | VDict d => Done (default dflt (d !! k))
  | _ => Raise AttributeError
  end.

(** A value of [DEFAULT_CONFIG]: a dictionary, with its items in the
    order in which they are written, or another value. *)
Inductive default_value : Type :=
  | DDict (items : list (string * jvalue))
  | DOther (v : jvalue).

Definition to_jvalue (dv : default_value) : jvalue :=
  match dv with
  | DDict items => VDict (list_to_map items)
  | DOther v => v
  end.

Definition default_source
    (name path format : string) (mapping : list (string * jvalue))
    : jvalue :=
  VDict (list_to_map
           [("name", VStr name); ("path", VStr path);
            ("format", VStr format);
            ("mapping", VDict (list_to_map mapping))]).

(** The items of [DEFAULT_CONFIG]. *)
Definition default_items : list (string * default_value) :=
  [("auto_ingest",
    DDict [("enabled", VBool true); ("log_queries", VBool true);
           ("log_responses", VBool true);
           ("conversation_timeout_minutes", VInt 30)]);
   ("storage",
    DDict [("base_path", VStr "~/.openmemx");
           ("max_episodic_items", VInt 1000)]);
   ("external_sources",
    DOther
      (VList
         [default_source "Nanobot" "~/.nanobot/sessions/cli_direct.jsonl"
            "jsonl"
            [("timestamp", VStr "created_at"); ("role", VStr "role");
             ("content", VStr "content"); ("project", VStr "project")];
          default_source "OpenWork" "~/.openwork/owpenbot/logs/*.log" "text"
            [];
          default_source "Gemini CLI" "~/.gemini/tmp/**/chats/*.json" "json"
            [("timestamp", VStr "timestamp"); ("role", VStr "role");
             ("content", VStr "text")]]))].

Definition DEFAULT_CONFIG : jvalue :=
  VDict (list_to_map
           ((λ item : string * default_value, (item.1, to_jvalue item.2))
              <$> default_items)).

(** One turn of the inner loop of [load_config]:
    [if sub_key not in _config[key]: _config[key][sub_key] = sub_value]. *)
Definition merge_sub_key
    (config : jvalue) (key : string) (item : string * jvalue)
    : outcome jvalue :=
  and_then (py_getitem config key) (λ section,
  and_then (py_in item.1 section) (λ present,
  if present then Done config
  else
    and_then (py_setitem section item.1 item.2) (λ section',
    py_setitem config key section'))).

(** One turn of the outer loop of [load_config]. *)
Definition merge_key (config : jvalue) (item : string * default_value)
    : outcome jvalue :=
  and_then (py_in item.1 config) (λ present,
  if negb present then py_setitem config item.1 (to_jvalue item.2)
  else
    match item.2 with
    | DDict items =>
        foldl (λ acc sub, and_then acc (λ cfg, merge_sub_key cfg item.1 sub))
          (Done config) items
    | DOther _ => Done config
    end).

(** The two loops that complete what was read with the defaults. *)
Definition merge_defaults (config : jvalue) : outcome jvalue :=
  foldl (λ acc item, and_then acc (λ cfg, merge_key cfg item))
    (Done config) default_items.

(** The file [~/.openmemx/config.json]: missing, there but not to be
    opened or not JSON, or holding a value. *)
Inductive config_file_state : Type :=
  | NoFile
  | BadFile
  | GoodFile (v : jvalue).

(** The module global [_config], the configuration file, and whether the
    file can be written. The directory of the file can be created. *)
Record Settings : Type := mkSettings {
  _config : option jvalue;
  config_file : config_file_state;
  config_writable : bool
}.

(** [load_config]: the value returned and the state left behind. *)
Definition load_config (s : Settings) : jvalue * Settings :=
  match _config s with
  | Some config => (config, s)
  | None =>
      match config_file s with
      | GoodFile v =>
          let config :=
            match merge_defaults v with
            | Done merged => merged
            | Raise _ => DEFAULT_CONFIG
            end in
          (config, mkSettings (Some config) (config_file s)
                     (config_writable s))
      | BadFile =>
          (DEFAULT_CONFIG,
           mkSettings (Some DEFAULT_CONFIG) (config_file s)
             (config_writable s))
      | NoFile =>
          (DEFAULT_CONFIG,
           mkSettings (Some DEFAULT_CONFIG)
             (if config_writable s then GoodFile DEFAULT_CONFIG else NoFile)
             (config_writable s))
      end
  end.

(** [save_config]: [json.dump] writes [null] for [None]. *)
Definition save_config (s : Settings) : outcome unit * Settings :=
  if config_writable s then
    (Done (),
     mkSettings (_config s) (GoodFile (default VNull (_config s)))
       (config_writable s))
  else (Raise OSError, s).

(** [config["auto_ingest"][key] = value]. *)
Definition set_flag (config : jvalue) (key : string) (value : bool)
    : outcome jvalue :=
  and_then (py_getitem config "auto_ingest") (λ section,
  and_then (py_setitem section key (VBool value)) (λ section',
  py_setitem config "auto_ingest" section')).

(** [configure_auto_ingest], up to the text it returns. The dictionary
    returned by [load_config] is the object [_config] names, so that each
    assignment that succeeds is kept when a later one raises. *)
Definition configure_auto_ingest
    (s : Settings) (enabled log_queries log_responses : bool)
    : outcome unit * Settings :=
  let '(config, s0) := load_config s in
  let keep c :=
    mkSettings (Some c) (config_file s0) (config_writable s0) in
  match set_flag config "enabled" enabled with
  | Raise err => (Raise err, s0)
  | Done c1 =>
      match set_flag c1 "log_queries" log_queries with
      | Raise err => (Raise err, keep c1)
      | Done c2 =>
          match set_flag c2 "log_responses" log_responses with
          | Raise err => (Raise err, keep c2)
          | Done c3 => save_config (keep c3)
          end
      end
  end.

(** A new process on the same files. *)
Definition restart_settings (s : Settings) : Settings :=
  mkSettings None (config_file s) (config_writable s).

(** [config.get("auto_ingest", {}).get(key, True)]. *)
Definition auto_ingest_flag (config : jvalue) (key : string)
    : outcome jvalue :=
  and_then (py_get config "auto_ingest" (VDict ∅)) (λ section,
  py_get section key (VBool true)).

(** What the merge is to give for a key of the defaults: the default
    where the file has no value; the entries of the file, completed with
    the default entries it lacks, where both are dictionaries; the value of
    the file otherwise. *)
Definition with_defaults (fv : option jvalue) (dv : default_value)
    : jvalue :=
  match fv, dv with
  | None, _ => to_jvalue dv
  | Some (VDict fc), DDict items => VDict (fc ∪ list_to_map items)
  | Some v, _ => v
  end.

(** A configuration that lacks nothing: a dictionary in which every key
    of the defaults has a value the merge would leave as it is, a
    dictionary where the default is one. *)
Definition complete (config : jvalue) : Prop :=
  ∃ d,
    config = VDict d
    ∧ ∀ k dv, (k, dv) ∈ default_items →
        ∃ v, d !! k = Some v
             ∧ with_defaults (Some v) dv = v
             ∧ ∀ sub, dv = DDict sub → ∃ fc, v = VDict fc.

(** In a dictionary read from the file, the values of the keys whose
    default is a dictionary are dictionaries. *)
Definition sections_are_dicts (v : jvalue) : Prop :=
  ∀ f k sub x,
    v = VDict f → (k, DDict sub) ∈ default_items → f !! k = Some x →
    ∃ fc, x = VDict fc.

(** ** mcp_server.py: automatic logging *)

(** What [get_engine] reads in the configuration:
    [config.get("storage", {}).get("base_path", "~/.openmemx")], given to
    [os.path.expanduser], which wants a string. *)
Definition engine_base_path (config : jvalue) : outcome string :=
  and_then (py_get config "storage" (VDict ∅)) (λ storage,
  and_then (py_get storage "base_path" (VStr "~/.openmemx")) (λ base_path,
  match base_path with
  | VStr path => Done path
  | _ => Raise TypeError
  end)).

(** The state of a server process: the configuration, the registry, the
    module global [_engine] ([engine_set]: it is no longer [None]), the
    store at the base path of the configuration, and whether the
    constructor of [MemoryEngine] succeeds on it ([store_opens]): it makes
    the directory, opens the two stores and the repository and loads the
    embedding model. An exception of the constructor stands here as
    [OSError]. *)
Record Process : Type := mkProcess {
  settings : Settings;
  server : Server;
  engine_set : bool;
  engine : Engine;
  store_opens : bool
}.

Definition get_engine (p : Process) : outcome unit * Process :=
  if engine_set p then (Done (), p)
  else
    let '(config, s) := load_config (settings p) in
    match engine_base_path config with
    | Done _ =>
        if store_opens p
        then (Done (), mkProcess s (server p) true (engine p) (store_opens p))
        else
          (Raise OSError,
           mkProcess s (server p) false (engine p) (store_opens p))
    | Raise err =>
        (Raise err, mkProcess s (server p) false (engine p) (store_opens p))
    end.

(** The truth value of an optional string: [None] and [""] are false. *)
Definition given (text : option string) : bool :=
  match text with
  | Some (String _ _) => true
  | Some EmptyString | None => false
  end.

Section AutoLog.

Context {np : Numpy}.

(** The embedding model and the clock at the two calls of
    [ingest_interaction], and the identifier the generator would give. *)
Variable embed_q embed_q_later embed_r embed_r_later : string → option vec.
Variable now_q now_q_vec now_r now_r_vec : Z.
Variable fresh : string.

(** [try: engine.ingest_interaction(conv_id, role, text)] with its
    [except Exception], under the condition of its [if]. *)
Definition log_if
    (embed embed_later : string → option vec) (now now_vec : Z)
    (config : jvalue) (flag : string) (text : option string)
    (conv_id role : string) (p : Process) : outcome unit * Process :=
  if given text then
    match auto_ingest_flag config flag with
    | Raise err => (Raise err, p)
    | Done wanted =>
        if truthy wanted then
          (Done (),
           mkProcess (settings p) (server p) (engine_set p)
             (ingest_interaction embed embed_later (engine p) now now_vec
                conv_id role (default EmptyString text)).2
             (store_opens p))
        else (Done (), p)
    end
  else (Done (), p).

Definition auto_log_interaction
    (p : Process) (query_text response_text conversation_id : option string)
    : outcome unit * Process :=
  let '(config, s) := load_config (settings p) in
  let p0 :=
    mkProcess s (server p) (engine_set p) (engine p) (store_opens p) in
  match auto_ingest_flag config "enabled" with
  | Raise err => (Raise err, p0)
  | Done enabled =>
      if truthy enabled then
        match get_engine p0 with
        | (Raise err, p1) => (Raise err, p1)
        | (Done _, p1) =>
            let '(conv_id, srv) :=
              if given conversation_id
              then (default EmptyString conversation_id, server p1)
              else get_conversation_id fresh (server p1) in
            let p2 :=
              mkProcess (settings p1) srv (engine_set p1) (engine p1)
                (store_opens p1) in
            match log_if embed_q embed_q_later now_q now_q_vec config
                    "log_queries" query_text conv_id "user" p2 with
            | (Raise err, p3) => (Raise err, p3)
            | (Done _, p3) =>
                log_if embed_r embed_r_later now_r now_r_vec config
                  "log_responses" response_text conv_id "assistant" p3
            end
        end
      else (Done (), p0)
  end.

End AutoLog.

(** ** mcp_server.py: [log_interaction] *)

Section LogInteraction.

Context {np : Numpy}.

(** The embedding model and the clock at the call, and the identifier
    the generator would give. *)
Variable embed embed_later : string → option vec.
Variable now now_vec : Z.
Variable fresh : string.

(** [log_interaction], up to the text it returns: [Raise] when
    [get_engine] raises, otherwise what [ingest_interaction] does. *)
Definition log_interaction (p : Process) (content role : string)
    : outcome (result nat) * Process :=
  let '(conv_id, srv) := get_conversation_id fresh (server p) in
  let p0 :=
    mkProcess (settings p) srv (engine_set p) (engine p) (store_opens p) in
  match get_engine p0 with
  | (Raise err, p1) => (Raise err, p1)
  | (Done _, p1) =>
      let '(r, e) :=
        ingest_interaction embed embed_later (engine p1) now now_vec conv_id
          role content in
      (Done r,
       mkProcess (settings p1) (server p1) (engine_set p1) e
         (store_opens p1))
  end.

End LogInteraction.

(** A new server process in the same directory on the same files. *)
Definition restart_process (p : Process) : Process :=
  mkProcess (restart_settings (settings p)) (restart (server p)) false
    (engine p) (store_opens p).

(** ** cli.py *)

(** [update_json_config]: the file at [path] and what is written to it.
    [key_path] is not used by the code. A file that is there but is not
    JSON ([BadFile] here; a file that cannot be opened is left out) is
    read as the empty dictionary; the file is written last, so that it is
    as before when an assignment raises. *)
Definition update_json_config
    (file : config_file_state) (writable : bool) (key_path : string)
    (config_val : jvalue) : outcome unit * config_file_state :=
  let data :=
    match file with
    | GoodFile v => v
    | NoFile | BadFile => VDict ∅
    end in
  let updated :=
    and_then (py_in "mcpServers" data) (λ present,
    and_then (if present then Done data
              else py_setitem data "mcpServers" (VDict ∅)) (λ data1,
    and_then (py_getitem data1 "mcpServers") (λ servers,
    and_then (py_setitem servers "openmemx" config_val) (λ servers',
    py_setitem data1 "mcpServers" servers')))) in
  match updated with
  | Done data2 =>
      if writable then (Done (), GoodFile data2) else (Raise OSError, file)
  | Raise err => (Raise err, file)
  end.

Section Migrate.

Context {np : Numpy}.

(** [re_split] is [re.split] with the pattern of [migrate_command] and
    [strip] is [str.strip]; the embedding model is the same at every call,
    and [now n] and [now_vec n] are the clock readings of the call made
    after [n] segments were ingested. *)
Variable re_split : string → list string.
Variable strip : string → string.
Variable embed embed_later : string → option vec.
Variable now now_vec : nat → Z.

(** The loop of [migrate_command] over the parts; an exception of
    [ingest_interaction] ends it. *)
Fixpoint migrate_parts
    (e : Engine) (conv_id : string) (count : nat) (parts : list string)
    : result nat * Engine :=
  match parts with
  | [] => (Ok count, e)
  | part :: parts' =>
      let clean_part := strip part in
      if decide (clean_part = EmptyString)
      then migrate_parts e conv_id count parts'
      else
        match ingest_interaction embed embed_later e (now count)
                (now_vec count) conv_id "user" clean_part with
        | (Ok _, e') => migrate_parts e' conv_id (S count) parts'
        | (Err err, e') => (Err err, e')
        end
  end.

(** [migrate_command]: [file] is the content of the file, [None] when
    the file does not exist; the result is the number of segments
    ingested. *)
Definition migrate_command
    (e : Engine) (file : option string) (conversation_id : option string)
    : result nat * Engine :=
  match file with
  | None => (Ok 0, e)
  | Some content =>
      let conv_id :=
        if given conversation_id then default EmptyString conversation_id
        else "migration_import" in
      migrate_parts e conv_id 0 (re_split content)
  end.

End Migrate.

(** * Part II: proofs *)

(** Closes [NoDup] goals on explicit lists of keys. *)
Ltac distinct_keys :=
  repeat (apply NoDup_cons_2;
          [rewrite ?elem_of_cons, elem_of_nil; intuition discriminate|]);
  apply NoDup_nil_2.

(** ** The arithmetic without rounding *)

Lemma dot_zeros (h v : vec) :
  Forall (λ x, x = 0%R) h → Exact.dot h v = 0%R.
Proof.
  revert v. induction h as [|x h IH]; intros v Hz; [reflexivity|].
  destruct v as [|y v]; [reflexivity|].
  apply Forall_cons in Hz as [-> Hz]. simpl. rewrite (IH v Hz). lra.
Qed.

Lemma norm_zeros (h : vec) :
  Forall (λ x, x = 0%R) h → Exact.norm h = 0%R.
Proof.
  intros Hz. unfold Exact.norm. rewrite (dot_zeros h h Hz). apply sqrt_0.
Qed.

Lemma exact_div_nonzero (x y : R) :
  y ≠ 0%R → Exact.div (Fin x) (Fin y) = Fin (x / y).
Proof.
  intros H. unfold Exact.div. destruct (Req_dec_T y 0); [done | reflexivity].
Qed.

(** The exact arithmetic has the properties asked of an arithmetic. *)
Lemma exact_numpy_ieee : IEEE754 exact_numpy.
Proof.
  split; simpl.
  - intros h v Hz. by rewrite (dot_zeros h v Hz).
  - intros h Hz. by rewrite (norm_zeros h Hz).
  - intros [b| | |]; simpl.
    + left. f_equal. lra.
    + right. by destruct (Req_dec_T 0 0).
    + right. by destruct (Req_dec_T 0 0).
    + by right.
  - by destruct (Req_dec_T 0 0).
  - by intros [].
  - reflexivity.
  - intros x Hx. lra.
  - intros [a| | |] [b| | |]; simpl; try done. lra.
Qed.

(** ** Facts about [max] and the scorer *)

Lemma max_nan (l : list npfloat) : NaN ∈ l → Np.max l = Some NaN.
Proof.
  induction l as [|x l IH]; intros H; [by apply elem_of_nil in H|].
  apply elem_of_cons in H as [<-|H]; simpl.
  - by destruct (Np.max l) as [[]|].
  - rewrite (IH H). by destruct x.
Qed.

Lemma max_is_Some (l : list npfloat) : l ≠ [] → is_Some (Np.max l).
Proof.
  destruct l as [|x l]; [done|]. intros _. simpl.
  by destruct (Np.max l).
Qed.

Section SurpriseFacts.

Context {np : Numpy}.
Variable embed : string → option vec.

Lemma encode_one (c : string) :
  encode embed [c] = (λ v, [v]) <$> embed c.
Proof. unfold encode. simpl. by destruct (embed c). Qed.

Lemma encode_length (texts : list string) (vs : list vec) :
  encode embed texts = Some vs → length vs = length texts.
Proof.
  unfold encode. intros H. apply mapM_Some in H.
  symmetry. by eapply Forall2_length.
Qed.

(** A historical embedding that is a row of zeros gives [0/0], or the
    quotient by a [nan]. *)
Lemma similarity_zero_row (v z : vec) :
  IEEE754 np → Forall (λ x, x = 0%R) z → similarity v z = NaN.
Proof.
  intros Hnp Hz. unfold similarity.
  rewrite (np_dot_zeros np Hnp z v Hz), (np_norm_zeros np Hnp z Hz).
  destruct (np_mul_zero np Hnp (np_norm v)) as [-> | ->].
  - apply (np_div_zero_zero np Hnp).
  - apply (np_div_nan np Hnp).
Qed.

Lemma calculate_surprise_unfold (c : string) (h : list string)
    (v : vec) (hs : list vec) :
  h ≠ [] → embed c = Some v → encode embed h = Some hs →
  calculate_surprise embed c h =
    match Np.max (map (similarity v) hs) with
    | None => Err (ValueError "zero-size array")
    | Some max_sim => Ok (np_one_minus max_sim)
    end.
Proof.
  intros Hne Hc Hh. unfold calculate_surprise.
  destruct h as [|h0 h]; [done|].
  rewrite encode_one, Hc, Hh. reflexivity.
Qed.

(** On a non-empty history whose embeddings are computed the score is one
    minus the largest similarity. *)
Lemma calculate_surprise_max (c : string) (h : list string)
    (v : vec) (hs : list vec) :
  h ≠ [] → embed c = Some v → encode embed h = Some hs →
  ∃ max_sim,
    Np.max (map (similarity v) hs) = Some max_sim
    ∧ calculate_surprise embed c h = Ok (np_one_minus max_sim).
Proof.
  intros Hne Hc Hh.
  rewrite (calculate_surprise_unfold c h v hs Hne Hc Hh).
  destruct (max_is_Some (map (similarity v) hs)) as [m Hm].
  - intros Hnil. apply map_eq_nil in Hnil. subst hs.
    apply encode_length in Hh. destruct h; [done | discriminate].
  - exists m. by rewrite Hm.
Qed.

End SurpriseFacts.

(** ** Claims on the surprise scorer *)

Lemma norm_one : Exact.norm [1%R] = 1%R.
Proof.
  unfold Exact.norm. simpl. replace (1 * 1 + 0)%R with 1%R by lra.
  apply sqrt_1.
Qed.

Lemma norm_minus_one : Exact.norm [(-1)%R] = 1%R.
Proof.
  unfold Exact.norm. simpl. replace (-1 * -1 + 0)%R with 1%R by lra.
  apply sqrt_1.
Qed.

Lemma similarity_opposite :
  similarity (np := exact_numpy) [1%R] [(-1)%R] = Fin (-1).
Proof.
  unfold similarity. simpl. rewrite norm_one, norm_minus_one.
  change (Exact.div (Fin (-1 * 1 + 0)) (Fin (1 * 1)) = Fin (-1)).
  rewrite exact_div_nonzero by lra. f_equal. lra.
Qed.

Lemma similarity_same : similarity (np := exact_numpy) [1%R] [1%R] = Fin 1.
Proof.
  unfold similarity. simpl. rewrite norm_one.
  change (Exact.div (Fin (1 * 1 + 0)) (Fin (1 * 1)) = Fin 1).
  rewrite exact_div_nonzero by lra. f_equal. lra.
Qed.

(** C2, as stated, fails: with an embedding that maps the new content and
    the single historical content to the opposite vectors [1] and [-1]
    the similarity is -1 and the score is 2, outside [0,1]. Every step of
    this computation is exact in floating point. *)
Lemma calculate_surprise_above_one :
  calculate_surprise (np := exact_numpy) embed_signed "a" ["b"] = Ok (Fin 2)
  ∧ ¬ in_interval 0 1 (Fin 2).
Proof.
  split.
  - rewrite (calculate_surprise_unfold (np := exact_numpy) embed_signed
               "a" ["b"] [1%R] [[(-1)%R]] ltac:(discriminate) eq_refl
               eq_refl).
    change (map (similarity [1%R]) [[(-1)%R]])
      with [similarity (np := exact_numpy) [1%R] [(-1)%R]].
    rewrite similarity_opposite. simpl. do 2 f_equal. lra.
  - simpl. lra.
Qed.

(** C2 (amended): [calculate_surprise] returns 1 for an empty history; for
    a non-empty history whose embeddings are computed it returns one minus
    the largest similarity, and nothing clamps it: the score lies in [0,1]
    when the largest similarity does, and is not confined to it otherwise.
    This holds for every arithmetic with the properties [IEEE754]. *)
Theorem calculate_surprise_unclamped
    {np : Numpy} (embed : string → option vec) (c : string) (h : list string)
    (v : vec) (hs : list vec) :
  IEEE754 np →
  embed c = Some v →
  encode embed h = Some hs →
  (h = [] → calculate_surprise embed c h = Ok (Fin 1))
  ∧ (h ≠ [] →
     ∃ max_sim,
       Np.max (map (similarity v) hs) = Some max_sim
       ∧ calculate_surprise embed c h = Ok (np_one_minus max_sim)
       ∧ (in_interval 0 1 max_sim →
          in_interval 0 1 (np_one_minus max_sim))).
Proof.
  intros Hnp Hc Hh. split; [by intros ->|]. intros Hne.
  destruct (calculate_surprise_max embed c h v hs Hne Hc Hh)
    as (m & Hmax & Hscore).
  exists m. split; [done|]. split; [done|].
  destruct m as [x| | |]; simpl; try done.
  apply (np_one_minus_unit np Hnp).
Qed.

Lemma calculate_surprise_unclamped_witness :
  (["b"] = [] →
   calculate_surprise (np := exact_numpy) embed_signed "a" ["b"]
   = Ok (Fin 1))
  ∧ (["b"] ≠ [] →
     ∃ max_sim,
       Np.max (map (similarity (np := exact_numpy) [1%R]) [[(-1)%R]])
       = Some max_sim
       ∧ calculate_surprise (np := exact_numpy) embed_signed "a" ["b"]
         = Ok (Exact.one_minus max_sim)
       ∧ (in_interval 0 1 max_sim →
          in_interval 0 1 (Exact.one_minus max_sim))).
Proof.
  apply (calculate_surprise_unclamped (np := exact_numpy)
           embed_signed "a" ["b"] [1%R] [[(-1)%R]]).
  - exact exact_numpy_ieee.
  - reflexivity.
  - reflexivity.
Defined.

(** C3, as stated, fails: a zero-norm historical embedding is not excluded.
    With history ["a"; "z"], where "z" embeds to the zero vector, the score
    is nan, while the score computed from the remaining vector is 0. Every
    step of this computation is exact in floating point. *)
Lemma calculate_surprise_zero_norm_nan :
  embed_zero "z" = Some [0%R]
  ∧ np_norm (Numpy := exact_numpy) [0%R] = Fin 0
  ∧ calculate_surprise (np := exact_numpy) embed_zero "a" ["a"; "z"] = Ok NaN
  ∧ calculate_surprise (np := exact_numpy) embed_zero "a" ["a"] = Ok (Fin 0).
Proof.
  split; [reflexivity|].
  split; [apply (np_norm_zeros _ exact_numpy_ieee); by repeat constructor|].
  split.
  - rewrite (calculate_surprise_unfold (np := exact_numpy) embed_zero "a"
               ["a"; "z"] [1%R] [[1%R]; [0%R]] ltac:(discriminate) eq_refl
               eq_refl).
    change (map (similarity [1%R]) [[1%R]; [0%R]])
      with [similarity (np := exact_numpy) [1%R] [1%R];
            similarity (np := exact_numpy) [1%R] [0%R]].
    rewrite similarity_same.
    rewrite (similarity_zero_row [1%R] [0%R] exact_numpy_ieee)
      by (by repeat constructor).
    reflexivity.
  - rewrite (calculate_surprise_unfold (np := exact_numpy) embed_zero "a"
               ["a"] [1%R] [[1%R]] ltac:(discriminate) eq_refl eq_refl).
    change (map (similarity [1%R]) [[1%R]])
      with [similarity (np := exact_numpy) [1%R] [1%R]].
    rewrite similarity_same. simpl. do 2 f_equal. lra.
Qed.

(** C3 (amended): [calculate_surprise] excludes no historical vector: on a
    non-empty history whose embeddings are computed, the score is one minus
    the maximum of the quotients of all historical embeddings. It is nan as
    soon as one quotient is nan, and the quotient of a historical embedding
    that is a row of zeros is nan. This holds for every arithmetic with the
    properties [IEEE754]. *)
Theorem calculate_surprise_keeps_zero_rows
    {np : Numpy} (embed : string → option vec) (c : string) (h : list string)
    (v : vec) (hs : list vec) :
  IEEE754 np →
  h ≠ [] →
  embed c = Some v →
  encode embed h = Some hs →
  (∃ max_sim,
     Np.max (map (similarity v) hs) = Some max_sim
     ∧ calculate_surprise embed c h = Ok (np_one_minus max_sim))
  ∧ (NaN ∈ map (similarity v) hs → calculate_surprise embed c h = Ok NaN)
  ∧ (∀ z, z ∈ hs → Forall (λ x, x = 0%R) z →
       similarity v z = NaN ∧ calculate_surprise embed c h = Ok NaN).
Proof.
  intros Hnp Hne Hc Hh.
  assert (NaN ∈ map (similarity v) hs →
          calculate_surprise embed c h = Ok NaN) as Hnan.
  { intros Hin. rewrite (calculate_surprise_unfold embed c h v hs Hne Hc Hh).
    rewrite (max_nan _ Hin). f_equal. apply (np_one_minus_nan np Hnp). }
  split; [by apply calculate_surprise_max|]. split; [exact Hnan|].
  intros z Hz Hzero.
  pose proof (similarity_zero_row v z Hnp Hzero) as Hsim.
  split; [exact Hsim|]. apply Hnan.
  apply list_elem_of_fmap. exists z. by split.
Qed.

Lemma calculate_surprise_keeps_zero_rows_witness :
  (∃ max_sim,
     Np.max (map (similarity (np := exact_numpy) [1%R]) [[1%R]; [0%R]])
     = Some max_sim
     ∧ calculate_surprise (np := exact_numpy) embed_zero "a" ["a"; "z"]
       = Ok (Exact.one_minus max_sim))
  ∧ (NaN ∈ map (similarity (np := exact_numpy) [1%R]) [[1%R]; [0%R]] →
     calculate_surprise (np := exact_numpy) embed_zero "a" ["a"; "z"]
     = Ok NaN)
  ∧ (∀ z, z ∈ [[1%R]; [0%R]] → Forall (λ x, x = 0%R) z →
       similarity (np := exact_numpy) [1%R] z = NaN
       ∧ calculate_surprise (np := exact_numpy) embed_zero "a" ["a"; "z"]
         = Ok NaN).
Proof.
  apply (calculate_surprise_keeps_zero_rows (np := exact_numpy)
           embed_zero "a" ["a"; "z"]).
  - exact exact_numpy_ieee.
  - discriminate.
  - reflexivity.
  - reflexivity.
Defined.

(** ** Facts about the episodic store *)

#[global] Instance newer_first_trans : Transitive newer_first.
Proof. unfold newer_first. intros a b c ??. lia. Qed.

#[global] Instance newer_first_total : Total newer_first.
Proof. unfold newer_first. intros a b. lia. Qed.

Lemma filter_none {A : Type} (P : A → Prop) `{∀ x, Decision (P x)}
    (l : list A) :
  Forall (λ x, ¬ P x) l → filter P l = [].
Proof.
  induction 1 as [|x l Hx _ IH]; [reflexivity|].
  rewrite filter_cons. by destruct (decide (P x)).
Qed.

Lemma merge_sort_nil {A : Type} (R : relation A)
    `{∀ x y, Decision (R x y)} (l : list A) :
  l = [] → merge_sort R l = [].
Proof.
  intros ->. apply Permutation_nil_r, merge_sort_Permutation.
Qed.

Lemma retrieve_episodic_no_history (e : Engine) (cid : string) (n : nat) :
  Forall (λ i, i_conversation_id i ≠ cid) (interactions e) →
  retrieve_episodic e cid n = [].
Proof.
  intros H. unfold retrieve_episodic.
  rewrite merge_sort_nil; [apply take_nil|].
  by apply filter_none.
Qed.

Lemma retrieve_episodic_most_recent (e : Engine) (cid : string) (n : nat) :
  most_recent e cid n (retrieve_episodic e cid n).
Proof.
  unfold retrieve_episodic.
  set (conv := filter (λ i, i_conversation_id i = cid) (interactions e)).
  set (sorted := merge_sort newer_first conv).
  assert (StronglySorted newer_first sorted) as Hss
    by (apply StronglySorted_merge_sort; apply _).
  assert (sorted ≡ₚ conv) as Hperm by apply merge_sort_Permutation.
  assert (∀ i, i ∈ sorted ↔ i ∈ interactions e ∧ i_conversation_id i = cid)
    as Hmem.
  { intros i. rewrite Hperm. unfold conv. rewrite list_elem_of_filter.
    tauto. }
  rewrite <- (take_drop n sorted) in Hss.
  repeat split.
  - rewrite length_take. lia.
  - by apply StronglySorted_app_1_l in Hss.
  - apply Hmem. eapply elem_of_sublist; [done | apply sublist_take].
  - apply Hmem. eapply elem_of_sublist; [done | apply sublist_take].
  - intros i j Hi Hj Hcid Hnot.
    assert (j ∈ sorted) as Hjs by (apply Hmem; done).
    rewrite <- (take_drop n sorted) in Hjs.
    apply elem_of_app in Hjs as [Hjs|Hjs]; [done|].
    eapply StronglySorted_app_1_elem_of; eauto.
  - intros Hlen j Hj Hcid.
    rewrite length_take in Hlen.
    rewrite take_ge by lia. apply Hmem. done.
Qed.

(** ** Claims on ingestion *)

(** C1, as stated, fails: on the first interaction of a conversation the
    score is computed without any embedding, the row is committed, and only
    then is the content embedded. When that embedding fails the interaction
    is in the metadata store and the vector table was never written. *)
Lemma ingest_first_embedding_failure :
  ingest_interaction (np := exact_numpy) embed_fail embed_fail empty_engine
    0 0 "s1" "user" "hello"
  = (Err EmbeddingFailure,
     mkEngine [mkInteraction 1 0 "user" "hello" (Fin 1) "s1"] None [] []).
Proof. reflexivity. Qed.

(** C1 (amended): if an embedding computation fails while the novelty score
    is computed, which is where the content is first embedded whenever the
    conversation has history, [ingest_interaction] fails with that error and
    writes neither store; and whenever it returns an identity, the metadata
    store has received the row and the vector table the record under the
    same identity. *)
Theorem ingest_interaction_stores
    {np : Numpy} (embed embed_later : string → option vec) (e : Engine)
    (now now_vec : Z) (cid role content : string) :
  let history := i_content <$> retrieve_episodic e cid 50 in
  let out :=
    ingest_interaction embed embed_later e now now_vec cid role content in
  (∀ err, calculate_surprise embed content history = Err err →
          out = (Err err, e))
  ∧ (history ≠ [] → embed content = None →
     out = (Err EmbeddingFailure, e))
  ∧ (∀ id, out.1 = Ok id →
       ∃ score v,
         embed_later content = Some v
         ∧ id = next_rowid (i_id <$> interactions e)
         ∧ interactions out.2
           = interactions e ++ [mkInteraction id now role content score cid]
         ∧ master_vectors out.2
           = Some (default [] (master_vectors e)
                   ++ [mkVectorRecord v (str id) content role cid now_vec])).
Proof.
  intros history out. subst out history. unfold ingest_interaction.
  split; [|split].
  - intros err ->. reflexivity.
  - intros Hne Hc.
    unfold calculate_surprise at 1.
    destruct (i_content <$> retrieve_episodic e cid 50); [done|].
    by rewrite encode_one, Hc.
  - intros id.
    destruct (calculate_surprise _ _ _) as [score|err]; [|discriminate].
    destruct (Np.is_nan score); [discriminate|].
    rewrite encode_one.
    destruct (embed_later content) as [v|]; simpl; [|discriminate].
    intros [= <-]. exists score, v.
    repeat split. by destruct (master_vectors e).
Qed.

(** When the score is computed and the later embedding fails, the row stays
    in the metadata store and the vector table is as it was. *)
Lemma ingest_interaction_orphan
    {np : Numpy} (embed embed_later : string → option vec) (e : Engine)
    (now now_vec : Z) (cid role content : string) (score : npfloat) :
  calculate_surprise embed content (i_content <$> retrieve_episodic e cid 50)
  = Ok score →
  Np.is_nan score = false →
  embed_later content = None →
  ingest_interaction embed embed_later e now now_vec cid role content
  = (Err EmbeddingFailure,
     mkEngine
       (interactions e
        ++ [mkInteraction (next_rowid (i_id <$> interactions e)) now role
              content score cid])
       (master_vectors e) (knowledge_nodes e) (knowledge_edges e)).
Proof.
  intros Hscore Hnan Hlater. unfold ingest_interaction.
  by rewrite Hscore, Hnan, encode_one, Hlater.
Qed.

(** ** Claims on the novelty of a first interaction *)

(** C8: with an empty history [calculate_surprise] returns exactly 1.0, so
    the first interaction ingested into a conversation that has no row yet
    is stored with novelty score exactly 1.0. *)
Theorem first_interaction_novelty
    {np : Numpy} (embed embed_later : string → option vec) (e : Engine)
    (now now_vec : Z) (cid role content : string) :
  Forall (λ i, i_conversation_id i ≠ cid) (interactions e) →
  calculate_surprise embed content [] = Ok (Fin 1)
  ∧ interactions
      (ingest_interaction embed embed_later e now now_vec cid role
         content).2
    = interactions e
      ++ [mkInteraction (next_rowid (i_id <$> interactions e)) now role
            content (Fin 1) cid].
Proof.
  intros Hfresh. split; [reflexivity|].
  unfold ingest_interaction.
  rewrite (retrieve_episodic_no_history e cid 50 Hfresh).
  rewrite encode_one. by destruct (embed_later content).
Qed.

Lemma first_interaction_novelty_witness :
  calculate_surprise (np := exact_numpy) embed_signed "hello" [] = Ok (Fin 1)
  ∧ interactions
      (ingest_interaction (np := exact_numpy) embed_signed embed_fail
         empty_engine 7 8 "s1" "user" "hello").2
    = interactions empty_engine
      ++ [mkInteraction (next_rowid (i_id <$> interactions empty_engine)) 7
            "user" "hello" (Fin 1) "s1"].
Proof.
  apply (first_interaction_novelty (np := exact_numpy) embed_signed
           embed_fail empty_engine 7 8 "s1" "user" "hello").
  simpl. constructor.
Defined.

(** ** Facts about pruning *)

Lemma filter_ext_elem {A : Type} (P Q : A → Prop)
    `{∀ x, Decision (P x)} `{∀ x, Decision (Q x)} (l : list A) :
  (∀ x, x ∈ l → P x ↔ Q x) → filter P l = filter Q l.
Proof.
  induction l as [|x l IH]; intros Hext; [reflexivity|].
  rewrite !filter_cons.
  assert (P x ↔ Q x) as Hx by apply Hext, list_elem_of_here.
  rewrite IH by (intros y Hy; apply Hext; by apply list_elem_of_further).
  destruct (decide (P x)), (decide (Q x)); tauto || reflexivity.
Qed.

Lemma filter_split_length {A : Type} (P : A → Prop)
    `{∀ x, Decision (P x)} (l : list A) :
  length l = length (filter P l) + length (filter (λ x, ¬ P x) l).
Proof.
  induction l as [|x l IH]; [reflexivity|].
  rewrite !filter_cons.
  destruct (decide (P x)), (decide (¬ P x)); simpl; try tauto; lia.
Qed.

(** Rows of one table with the same primary key are the same row. *)
Lemma primary_key_inj {A B : Type} (key : A → B) (l : list A) (x y : A) :
  NoDup (key <$> l) → x ∈ l → y ∈ l → key x = key y → x = y.
Proof.
  induction l as [|z l IH]; intros Hnd Hx Hy Hk; [by apply elem_of_nil in Hx|].
  rewrite fmap_cons in Hnd. apply NoDup_cons in Hnd as [Hz Hnd].
  apply elem_of_cons in Hx as [->|Hx]; apply elem_of_cons in Hy as [->|Hy].
  - reflexivity.
  - destruct Hz. rewrite Hk. apply list_elem_of_fmap. by exists y.
  - destruct Hz. rewrite <- Hk. apply list_elem_of_fmap. by exists x.
  - by apply IH.
Qed.

Lemma prune_interactions_count (e : Engine) (cid : string) (t : R) :
  (prune_interactions e cid t).1 = length (to_prune e cid t).
Proof.
  unfold prune_interactions, ids_to_prune.
  destruct (decide _) as [Hnil|Hne]; simpl.
  - apply fmap_nil_inv in Hnil. by rewrite Hnil.
  - by rewrite length_fmap.
Qed.

Lemma prune_interactions_rows (e : Engine) (cid : string) (t : R) :
  interactions (prune_interactions e cid t).2
  = filter (λ i, i_id i ∉ i_id <$> to_prune e cid t) (interactions e).
Proof.
  unfold prune_interactions, ids_to_prune.
  destruct (decide _) as [Hnil|Hne]; simpl; [|reflexivity].
  apply fmap_nil_inv in Hnil. rewrite Hnil. simpl.
  symmetry. induction (interactions e) as [|x l IH]; [reflexivity|].
  rewrite filter_cons.
  destruct (decide _) as [_|Hin]; [by rewrite IH|].
  destruct Hin. apply not_elem_of_nil.
Qed.

Lemma prune_interactions_vectors (e : Engine) (cid : string) (t : R) :
  master_vectors (prune_interactions e cid t).2
  = filter (λ r, v_id r ∉ ids_to_prune e cid t) <$> master_vectors e.
Proof.
  unfold prune_interactions.
  destruct (decide _) as [Hnil|Hne]; simpl; [|reflexivity].
  rewrite Hnil. destruct (master_vectors e) as [rows|]; [|reflexivity].
  simpl. f_equal.
  induction rows as [|x l IH]; [reflexivity|].
  rewrite filter_cons.
  destruct (decide _) as [_|Hin]; [by rewrite <- IH|].
  destruct Hin. apply not_elem_of_nil.
Qed.

Lemma prune_interactions_graph (e : Engine) (cid : string) (t : R) :
  knowledge_nodes (prune_interactions e cid t).2 = knowledge_nodes e
  ∧ knowledge_edges (prune_interactions e cid t).2 = knowledge_edges e.
Proof.
  unfold prune_interactions. by destruct (decide _).
Qed.

Lemma prune_interactions_none_left
    (e : Engine) (cid : string) (t : R) (i : Interaction) :
  i ∈ interactions (prune_interactions e cid t).2 →
  ¬ prunable cid t i.
Proof.
  rewrite prune_interactions_rows, list_elem_of_filter.
  intros [Hid Hin] Hp. apply Hid.
  apply list_elem_of_fmap. exists i. split; [reflexivity|].
  unfold to_prune. apply list_elem_of_filter. by split.
Qed.

Lemma prune_interactions_exact (e : Engine) (cid : string) (t : R) :
  NoDup (i_id <$> interactions e) →
  interactions (prune_interactions e cid t).2
  = filter (λ i, ¬ prunable cid t i) (interactions e).
Proof.
  intros Hpk. rewrite prune_interactions_rows.
  apply filter_ext_elem. intros i Hi. split.
  - intros Hid Hp. apply Hid.
    apply list_elem_of_fmap. exists i. split; [reflexivity|].
    unfold to_prune. apply list_elem_of_filter. by split.
  - intros Hnp Hid. apply Hnp.
    apply list_elem_of_fmap in Hid as (j & Hk & Hj).
    unfold to_prune in Hj. apply list_elem_of_filter in Hj as [Hpj Hj].
    by rewrite (primary_key_inj i_id (interactions e) i j Hpk Hi Hj Hk).
Qed.

(** ** Claims on consolidation *)

(** C4: after [consolidate_memory] on a conversation, the promoted list is
    exactly the interactions with novelty score above 0.5 among the up-to-100
    most recent of the conversation; no interaction of the conversation with
    score below 0.1 remains in the episodic store; and the pruned count is
    the number of rows removed, whose identities are exactly those deleted
    from the vector table (a table that was never created stays absent). *)
Theorem consolidate_memory_spec (e : Engine) (cid : string) :
  NoDup (i_id <$> interactions e) →
  let out := consolidate_memory e cid in
  let promoted := out.1.1 in
  let pruned := out.1.2 in
  let e' := out.2 in
  let removed := to_prune e cid 0.1 in
  most_recent e cid 100 (retrieve_episodic e cid 100)
  ∧ promoted
    = filter (λ h, Np.gt (i_surprise_score h) 0.5)
        (retrieve_episodic e cid 100)
  ∧ (∀ i, i ∈ interactions e' → i_conversation_id i = cid →
          Np.lt (i_surprise_score i) 0.1 = false)
  ∧ interactions e' = filter (λ i, ¬ prunable cid 0.1 i) (interactions e)
  ∧ pruned = length removed
  ∧ length (interactions e) = pruned + length (interactions e')
  ∧ master_vectors e'
    = filter (λ r, v_id r ∉ (λ i, str (i_id i)) <$> removed)
      <$> master_vectors e.
Proof.
  intros Hpk out promoted pruned e' removed.
  subst out promoted pruned e' removed. unfold consolidate_memory.
  pose proof (prune_interactions_count e cid 0.1) as Hcount.
  pose proof (prune_interactions_exact e cid 0.1 Hpk) as Hrows.
  pose proof (prune_interactions_vectors e cid 0.1) as Hvec.
  pose proof (prune_interactions_none_left e cid 0.1) as Hnone.
  destruct (prune_interactions e cid 0.1) as [n e'] eqn:Hp. simpl in *.
  split; [apply retrieve_episodic_most_recent|].
  split; [reflexivity|].
  split.
  { intros i Hi Hcid. specialize (Hnone i Hi). unfold prunable in Hnone.
    destruct (Np.lt (i_surprise_score i) 0.1); [|reflexivity].
    destruct Hnone. by split. }
  split; [exact Hrows|]. split; [exact Hcount|]. split; [|exact Hvec].
  rewrite Hcount, Hrows.
  apply (filter_split_length (prunable cid 0.1)).
Qed.

(** The comparisons on finite scores, and the example store worked out. *)
Lemma lt_Fin (a r : R) : Np.lt (Fin a) r ↔ (a < r)%R.
Proof. unfold Np.lt. destruct (Rlt_dec a r); simpl; tauto. Qed.

Lemma gt_Fin (a r : R) : Np.gt (Fin a) r ↔ (r < a)%R.
Proof. unfold Np.gt. destruct (Rlt_dec r a); simpl; tauto. Qed.

Lemma consolidate_memory_spec_witness :
  NoDup (i_id <$> interactions example_engine)
  ∧ (consolidate_memory example_engine "s1").1.2
    = length (to_prune example_engine "s1" 0.1).
Proof.
  assert (NoDup (i_id <$> interactions example_engine)) as Hpk.
  { simpl. distinct_keys. }
  split; [exact Hpk|].
  exact (proj1 (proj2 (proj2 (proj2 (proj2
           (consolidate_memory_spec example_engine "s1" Hpk)))))).
Defined.

Lemma example_to_prune : to_prune example_engine "s1" 0.1 = [row1].
Proof.
  unfold to_prune, example_engine. simpl interactions.
  rewrite filter_cons_True
    by (simpl; split; [reflexivity | apply lt_Fin; lra]).
  rewrite filter_cons_False
    by (simpl; intros [_ H]; apply lt_Fin in H; lra).
  rewrite filter_cons_False by (simpl; intros [H _]; discriminate).
  reflexivity.
Qed.

Lemma example_recent : retrieve_episodic example_engine "s1" 100 = [row2; row1].
Proof. reflexivity. Qed.

Lemma consolidate_memory_example :
  consolidate_memory example_engine "s1"
  = ([row2], 1, mkEngine [row2; row3] None [] []).
Proof.
  unfold consolidate_memory, prune_interactions, ids_to_prune.
  rewrite example_recent, example_to_prune.
  rewrite filter_cons_True by (apply gt_Fin; simpl; lra).
  rewrite filter_cons_False by (intros H; apply gt_Fin in H; simpl in H; lra).
  simpl. unfold example_engine. simpl.
  reflexivity.
Qed.

(** ** Facts about node lookup *)

Lemma find_entity_unknown (e : Engine) (entity : string) :
  Forall (λ n, n_entity n ≠ entity) (knowledge_nodes e) →
  find_entity e entity = None.
Proof.
  intros H. unfold find_entity. by rewrite filter_none.
Qed.

Lemma find_entity_Some (e : Engine) (entity : string) (n : KnowledgeNode) :
  find_entity e entity = Some n →
  n ∈ knowledge_nodes e ∧ n_entity n = entity.
Proof.
  unfold find_entity. intros H. apply head_Some_elem_of in H.
  apply list_elem_of_filter in H. tauto.
Qed.

Lemma get_node_Some (e : Engine) (id : nat) (n : KnowledgeNode) :
  get_node e id = Some n → n ∈ knowledge_nodes e ∧ n_id n = id.
Proof.
  unfold get_node. intros H. apply head_Some_elem_of in H.
  apply list_elem_of_filter in H. tauto.
Qed.

(** ** Claims on edges *)

(** C5: when the source or the target entity does not resolve to a node,
    [add_knowledge_edge] fails with the unknown-entity error (the
    [ValueError] of the code) and leaves the state as it was: no edge is
    created, and every traversal gives what it gave before. *)
Theorem add_knowledge_edge_unknown
    (e : Engine) (source_entity target_entity relationship : string)
    (weight : R) :
  Forall (λ n, n_entity n ≠ source_entity) (knowledge_nodes e)
  ∨ Forall (λ n, n_entity n ≠ target_entity) (knowledge_nodes e) →
  let out :=
    add_knowledge_edge e source_entity target_entity relationship weight in
  out.1 = Err unknown_entity
  ∧ out.2 = e
  ∧ knowledge_edges out.2 = knowledge_edges e
  ∧ knowledge_nodes out.2 = knowledge_nodes e
  ∧ ∀ start max_depth,
      traverse_graph out.2 start max_depth = traverse_graph e start max_depth.
Proof.
  intros Hunknown out. subst out. unfold add_knowledge_edge.
  destruct Hunknown as [H|H]; apply find_entity_unknown in H; rewrite H.
  - by repeat split.
  - destruct (find_entity e source_entity); by repeat split.
Qed.

Lemma add_knowledge_edge_unknown_witness :
  let out := add_knowledge_edge empty_engine "A" "B" "knows" 1 in
  out.1 = Err unknown_entity
  ∧ out.2 = empty_engine
  ∧ knowledge_edges out.2 = knowledge_edges empty_engine
  ∧ knowledge_nodes out.2 = knowledge_nodes empty_engine
  ∧ ∀ start max_depth,
      traverse_graph out.2 start max_depth
      = traverse_graph empty_engine start max_depth.
Proof.
  apply (add_knowledge_edge_unknown empty_engine "A" "B" "knows" 1).
  left. simpl. constructor.
Defined.

(** ** Facts about strings and node updates *)

Lemma string_app_nil_r (s : string) : s +:+ EmptyString = s.
Proof.
  induction s as [|c s IH]; [reflexivity|].
  change (String c (s +:+ EmptyString) = String c s). by rewrite IH.
Qed.

Lemma string_app_assoc (s t u : string) :
  (s +:+ t) +:+ u = s +:+ (t +:+ u).
Proof.
  induction s as [|c s IH]; [reflexivity|].
  change (String c ((s +:+ t) +:+ u) = String c (s +:+ (t +:+ u))).
  by rewrite IH.
Qed.

Lemma contains_prefix (s t : string) : contains (s +:+ t) s.
Proof. by exists EmptyString, t. Qed.

Lemma contains_suffix (s t : string) : contains (s +:+ t) t.
Proof. exists s, EmptyString. by rewrite string_app_nil_r. Qed.

Lemma contains_app_r (s t u : string) : contains t u → contains (s +:+ t) u.
Proof.
  intros (pre & post & ->). exists (s +:+ pre), post.
  by rewrite string_app_assoc.
Qed.

Lemma update_node_hit (updated n : KnowledgeNode) :
  n_id n = n_id updated → update_node updated n = updated.
Proof. intros H. unfold update_node. by destruct (decide _). Qed.

Lemma update_node_miss (updated n : KnowledgeNode) :
  n_id n ≠ n_id updated → update_node updated n = n.
Proof. intros H. unfold update_node. by destruct (decide _). Qed.

Lemma update_node_other (updated : KnowledgeNode) (l : list KnowledgeNode) :
  Forall (λ n, n_id n ≠ n_id updated) l → update_node updated <$> l = l.
Proof.
  induction 1 as [|x l Hx _ IH]; [reflexivity|].
  rewrite fmap_cons, IH. unfold update_node. by destruct (decide _).
Qed.

Lemma NoDup_fmap_cons_Forall {A B : Type} (f : A → B) (x : A) (l : list A) :
  NoDup (f <$> x :: l) → Forall (λ y, f y ≠ f x) l.
Proof.
  rewrite fmap_cons. intros [Hx _]%NoDup_cons.
  apply Forall_forall. intros y Hy Heq. apply Hx. rewrite <- Heq.
  apply list_elem_of_fmap. by exists y.
Qed.

Lemma update_node_filter
    (existing updated : KnowledgeNode) (l : list KnowledgeNode) :
  NoDup (n_id <$> l) → NoDup (n_entity <$> l) →
  existing ∈ l →
  n_id updated = n_id existing → n_entity updated = n_entity existing →
  filter (λ n, n_entity n = n_entity existing) (update_node updated <$> l)
  = [updated].
Proof.
  intros Hid Hent Hin Hi He.
  induction l as [|x l IH]; [by apply elem_of_nil in Hin|].
  pose proof (NoDup_fmap_cons_Forall _ _ _ Hid) as Hids.
  pose proof (NoDup_fmap_cons_Forall _ _ _ Hent) as Hents.
  rewrite fmap_cons in Hid. rewrite fmap_cons in Hent.
  apply NoDup_cons in Hid as [_ Hid]. apply NoDup_cons in Hent as [_ Hent].
  rewrite fmap_cons, filter_cons.
  apply elem_of_cons in Hin as [<-|Hin].
  - rewrite update_node_hit by done.
    destruct (decide (n_entity updated = n_entity existing)); [|done].
    f_equal. rewrite update_node_other by (by rewrite Hi).
    by apply filter_none.
  - rewrite Forall_forall in Hids. rewrite Forall_forall in Hents.
    rewrite update_node_miss
      by (rewrite Hi; intros Heq; by destruct (Hids existing Hin)).
    destruct (decide (n_entity x = n_entity existing)) as [Heq|_].
    { by destruct (Hents existing Hin). }
    by apply IH.
Qed.

Lemma merge_node_data_lookup
    (current : gmap string json) (node_data : option (gmap string json))
    (k : string) :
  merge_node_data current node_data !! k
  = match default ∅ node_data !! k with
    | Some v => Some v
    | None => current !! k
    end.
Proof.
  unfold merge_node_data. destruct node_data as [d|]; simpl.
  - destruct (decide (d = ∅)) as [->|_]; [by rewrite lookup_empty|].
    destruct (d !! k) as [v|] eqn:Hk.
    + by apply lookup_union_Some_l.
    + by apply lookup_union_r.
  - by rewrite lookup_empty.
Qed.

(** ** Claims on nodes *)

Lemma next_rowid_fresh (ids : list nat) : next_rowid ids ∉ ids.
Proof.
  unfold next_rowid. intros Hin.
  pose proof (max_list_elem_of_le _ _ Hin). lia.
Qed.

Lemma update_node_fmap_key {B : Type} (key : KnowledgeNode → B)
    (updated : KnowledgeNode) (l : list KnowledgeNode) :
  (∀ n, n ∈ l → n_id n = n_id updated → key updated = key n) →
  key <$> (update_node updated <$> l) = key <$> l.
Proof.
  induction l as [|x l IH]; intros Hkey; [reflexivity|].
  rewrite !fmap_cons. f_equal.
  - unfold update_node. destruct (decide _) as [Heq|_]; [|reflexivity].
    apply Hkey; [apply list_elem_of_here | exact Heq].
  - apply IH. intros n Hn. apply Hkey. by apply list_elem_of_further.
Qed.

Lemma add_knowledge_node_wf
    (e : Engine) (entity description : string)
    (node_data : option (gmap string json)) :
  nodes_wf e → nodes_wf (add_knowledge_node e entity description node_data).2.
Proof.
  intros [Hid Hent]. unfold add_knowledge_node.
  destruct (find_entity e entity) as [existing|] eqn:Hfind; simpl.
  - apply find_entity_Some in Hfind as [Hin He].
    unfold nodes_wf. simpl.
    rewrite !update_node_fmap_key; [done | |];
      intros n Hn Heq; simpl in *;
      first [ by rewrite Heq
            | by rewrite (primary_key_inj n_id _ n existing Hid Hn Hin Heq) ].
  - unfold nodes_wf. simpl. rewrite !fmap_app. simpl. split.
    + apply NoDup_app. split; [done|]. split; [|distinct_keys].
      intros x Hx Hx'. apply list_elem_of_singleton in Hx'. subst x.
      by apply next_rowid_fresh in Hx.
    + apply NoDup_app. split; [done|]. split; [|distinct_keys].
      intros x Hx Hx'. apply list_elem_of_singleton in Hx'. subst x.
      apply list_elem_of_fmap in Hx as (n & Hn & Hin).
      unfold find_entity in Hfind. apply head_None in Hfind.
      by apply (filter_nil_not_elem_of _ _ n Hfind).
Qed.

Lemma nodes_wf_empty : nodes_wf empty_engine.
Proof. split; apply NoDup_nil_2. Qed.

Lemma add_knowledge_edge_wf
    (e : Engine) (source_entity target_entity relationship : string)
    (weight : R) :
  nodes_wf e →
  nodes_wf
    (add_knowledge_edge e source_entity target_entity relationship weight).2.
Proof.
  unfold add_knowledge_edge.
  by destruct (find_entity e source_entity), (find_entity e target_entity).
Qed.

(** C6: adding an entity that exists already leaves exactly one node for
    the entity; its description is the old text, the separator and the new
    text, so it contains both; its attributes are the old ones overridden
    key by key with the new ones. *)
Theorem add_knowledge_node_existing
    (e : Engine) (entity description : string)
    (node_data : option (gmap string json)) (existing : KnowledgeNode) :
  nodes_wf e →
  find_entity e entity = Some existing →
  let out := add_knowledge_node e entity description node_data in
  ∃ updated,
    out.1 = n_id existing
    ∧ filter (λ n, n_entity n = entity) (knowledge_nodes out.2) = [updated]
    ∧ n_id updated = n_id existing
    ∧ n_description updated
      = n_description existing +:+ separator +:+ description
    ∧ contains (n_description updated) (n_description existing)
    ∧ contains (n_description updated) description
    ∧ (∀ k, n_node_data updated !! k
            = match default ∅ node_data !! k with
              | Some v => Some v
              | None => n_node_data existing !! k
              end)
    ∧ length (knowledge_nodes out.2) = length (knowledge_nodes e)
    ∧ nodes_wf out.2.
Proof.
  intros Hwf Hfind out.
  pose proof (add_knowledge_node_wf e entity description node_data Hwf)
    as Hwf'.
  subst out. unfold add_knowledge_node in *. rewrite Hfind in *.
  simpl in *. destruct Hwf as [Hid Hent].
  apply find_entity_Some in Hfind as [Hin <-].
  eexists. split; [reflexivity|]. split.
  { by apply update_node_filter. }
  simpl. split; [reflexivity|]. split; [reflexivity|].
  split; [apply contains_prefix|].
  split; [apply contains_app_r, contains_suffix|].
  split; [apply merge_node_data_lookup|].
  split; [by rewrite length_fmap | exact Hwf'].
Qed.

Lemma add_knowledge_node_existing_witness :
  ∃ updated,
    filter (λ n, n_entity n = "X")
      (knowledge_nodes
         (add_knowledge_node engine_with_x "X" "second" None).2)
    = [updated]
    ∧ contains (n_description updated) "first"
    ∧ contains (n_description updated) "second".
Proof.
  destruct (add_knowledge_node_existing engine_with_x "X" "second" None
              (mkKnowledgeNode 1 "X" "first" ∅))
    as (updated & _ & Hone & _ & _ & Hfirst & Hsecond & _).
  - split; simpl; distinct_keys.
  - reflexivity.
  - by exists updated.
Defined.

(** ** Traversal: the hops one expansion adds *)

Lemma expand_new_hops
    (e : Engine) (cur : KnowledgeNode) (depth : nat)
    (es : list KnowledgeEdge) (V : gset nat) (r : list Hop)
    (q : list (KnowledgeNode * nat)) :
  expand e cur depth es V r q
  = (list_to_set (target_ids (new_hops e cur es V)) ∪ V,
     r ++ new_hops e cur es V,
     q ++ enqueue depth (new_hops e cur es V)).
Proof.
  revert V r q. induction es as [|edge es IH]; intros V r q; simpl.
  - rewrite !app_nil_r. f_equal. f_equal. set_solver.
  - destruct (get_node e (e_target_id edge)) as [t|]; [|apply IH].
    destruct (decide (n_id t ∈ V)); [apply IH|].
    rewrite IH. simpl. rewrite <- !app_assoc. simpl.
    f_equal. f_equal. unfold hop_target. simpl. set_solver.
Qed.

Lemma first_to_target_cons
    (edges : list KnowledgeEdge) (edge0 edge : KnowledgeEdge) :
  e_target_id edge0 ≠ e_target_id edge →
  first_to_target edges edge → first_to_target (edge0 :: edges) edge.
Proof.
  intros Hne (before & after & -> & Hb).
  exists (edge0 :: before), after. split; [reflexivity|].
  by constructor.
Qed.

Lemma new_hops_spec
    (e : Engine) (cur : KnowledgeNode) (es : list KnowledgeEdge)
    (V : gset nat) :
  NoDup (target_ids (new_hops e cur es V))
  ∧ Forall (λ h, (n_id (hop_target h) ∉ V)
               ∧ (h.1).1 = cur
               ∧ get_node e (e_target_id (h.1).2) = Some (hop_target h)
               ∧ first_to_target es (h.1).2)
      (new_hops e cur es V).
Proof.
  revert V. induction es as [|edge es IH]; intros V; simpl.
  { split; [apply NoDup_nil_2 | constructor]. }
  destruct (get_node e (e_target_id edge)) as [t|] eqn:Hget.
  - destruct (decide (n_id t ∈ V)) as [Hin|Hnin].
    + destruct (IH V) as [Hnd Hall]. split; [exact Hnd|].
      eapply Forall_impl; [exact Hall|]. simpl.
      intros h (Hv & Hc & Hg & Hf). repeat split; try done.
      apply first_to_target_cons; [|done].
      intros Heq. rewrite Heq, Hg in Hget. injection Hget as <-. done.
    + destruct (IH ({[n_id t]} ∪ V)) as [Hnd Hall].
      rewrite Forall_forall in Hall. split.
      * unfold target_ids. rewrite fmap_cons. apply NoDup_cons_2; [|done].
        intros Hin. apply list_elem_of_fmap in Hin as (h & Hid & Hh).
        destruct (Hall h Hh) as (Hv & _). apply Hv.
        unfold hop_target at 1 in Hid. simpl in Hid. set_solver.
      * constructor.
        { repeat split; try done. by exists [], es. }
        apply Forall_forall. intros h Hh.
        destruct (Hall h Hh) as (Hv & Hc & Hg & Hf).
        repeat split; try done; [set_solver|].
        apply first_to_target_cons; [|done].
        intros Heq. rewrite Heq, Hg in Hget. injection Hget as <-.
        set_solver.
  - destruct (IH V) as [Hnd Hall]. split; [exact Hnd|].
    eapply Forall_impl; [exact Hall|]. simpl.
    intros h (Hv & Hc & Hg & Hf). repeat split; try done.
    apply first_to_target_cons; [|done].
    intros Heq. rewrite Heq, Hg in Hget. discriminate.
Qed.

(** ** Traversal: the loop invariant *)

Lemma target_ids_app (r1 r2 : list Hop) :
  target_ids (r1 ++ r2) = target_ids r1 ++ target_ids r2.
Proof. unfold target_ids. apply fmap_app. Qed.

Lemma expand_inv
    (e : Engine) (s cur : KnowledgeNode) (V : gset nat) (r : list Hop) :
  bfs_inv e s V r →
  bfs_inv e s
    (list_to_set
       (target_ids (new_hops e cur (edges_from e (n_id cur)) V)) ∪ V)
    (r ++ new_hops e cur (edges_from e (n_id cur)) V).
Proof.
  intros (HV & Hnd & Hok).
  destruct (new_hops_spec e cur (edges_from e (n_id cur)) V) as [Hnd' Hall].
  set (hops := new_hops e cur (edges_from e (n_id cur)) V) in *.
  rewrite Forall_forall in Hall.
  repeat split.
  - rewrite target_ids_app, HV. simpl. rewrite list_to_set_app_L. set_solver.
  - rewrite target_ids_app, app_comm_cons. apply NoDup_app.
    split; [done|]. split; [|done].
    intros x Hx Hx'. apply list_elem_of_fmap in Hx' as (h & -> & Hh).
    destruct (Hall h Hh) as (Hv & _). apply Hv. rewrite HV.
    by apply elem_of_list_to_set.
  - apply Forall_app. split; [done|].
    apply Forall_forall. intros h Hh.
    destruct (Hall h Hh) as (_ & Hc & Hg & Hf).
    destruct Hf as (before & after & Hsplit & Hb).
    assert ((h.1).2 ∈ edges_from e (n_id cur)) as Hin.
    { rewrite Hsplit. apply elem_of_app. right. apply list_elem_of_here. }
    unfold edges_from in Hin. apply list_elem_of_filter in Hin as [Hsrc Hin].
    unfold hop_ok. rewrite Hc. repeat split; try done.
    by exists before, after.
Qed.

Lemma bfs_inv_result
    (e : Engine) (s : KnowledgeNode) (max_depth : Z) (fuel : nat)
    (V : gset nat) (r : list Hop) (q : list (KnowledgeNode * nat))
    (res : list Hop) :
  bfs_inv e s V r →
  bfs fuel e max_depth V r q = Some res →
  ∃ V', bfs_inv e s V' res.
Proof.
  revert V r q. induction fuel as [|fuel IH]; intros V r q Hinv Hrun.
  - destruct q as [|[cur depth] rest]; simpl in Hrun; [|discriminate].
    injection Hrun as <-. by exists V.
  - destruct q as [|[cur depth] rest]; simpl in Hrun.
    { injection Hrun as <-. by exists V. }
    destruct (decide (max_depth ≤ Z.of_nat depth)%Z).
    + by eapply IH.
    + rewrite expand_new_hops in Hrun.
      eapply IH; [|exact Hrun]. by apply expand_inv.
Qed.

(** ** Traversal: termination *)

Lemma filter_length_mono {A : Type} (P Q : A → Prop)
    `{∀ x, Decision (P x)} `{∀ x, Decision (Q x)} (l : list A) :
  (∀ x, P x → Q x) → length (filter P l) ≤ length (filter Q l).
Proof.
  intros Himp. induction l as [|x l IH]; [reflexivity|].
  rewrite !filter_cons.
  destruct (decide (P x)) as [HP|HP], (decide (Q x)) as [HQ|HQ]; simpl;
    try lia.
  destruct HQ. by apply Himp.
Qed.

Lemma filter_length_strict {A : Type} (P Q : A → Prop)
    `{∀ x, Decision (P x)} `{∀ x, Decision (Q x)} (l : list A) (x0 : A) :
  (∀ x, P x → Q x) → x0 ∈ l → Q x0 → ¬ P x0 →
  length (filter P l) < length (filter Q l).
Proof.
  intros Himp Hin HQ0 HP0. induction l as [|x l IH].
  { by apply elem_of_nil in Hin. }
  rewrite !filter_cons.
  pose proof (filter_length_mono P Q l Himp) as Hle.
  apply elem_of_cons in Hin as [<-|Hin].
  - destruct (decide (P x0)), (decide (Q x0)); simpl; try done; lia.
  - specialize (IH Hin).
    destruct (decide (P x)) as [HP|HP], (decide (Q x)) as [HQ|HQ]; simpl;
      try lia.
    destruct HQ. by apply Himp.
Qed.

Lemma unvisited_visit (e : Engine) (V : gset nat) (n : KnowledgeNode) :
  n ∈ knowledge_nodes e → n_id n ∉ V →
  unvisited e ({[n_id n]} ∪ V) < unvisited e V.
Proof.
  intros Hin Hnew. unfold unvisited.
  apply (filter_length_strict _ _ _ n); [set_solver | done | done | set_solver].
Qed.

Lemma new_hops_measure
    (e : Engine) (cur : KnowledgeNode) (es : list KnowledgeEdge)
    (V : gset nat) :
  unvisited e (list_to_set (target_ids (new_hops e cur es V)) ∪ V)
  + length (new_hops e cur es V)
  ≤ unvisited e V.
Proof.
  revert V. induction es as [|edge es IH]; intros V; simpl.
  { replace (∅ ∪ V) with V by set_solver. lia. }
  destruct (get_node e (e_target_id edge)) as [t|] eqn:Hget; [|apply IH].
  destruct (decide (n_id t ∈ V)) as [Hin|Hnin]; [apply IH|].
  apply get_node_Some in Hget as [Ht _].
  pose proof (unvisited_visit e V t Ht Hnin) as Hlt.
  specialize (IH ({[n_id t]} ∪ V)). simpl.
  replace ({[n_id t]}
           ∪ list_to_set
               (target_ids (new_hops e cur es ({[n_id t]} ∪ V))) ∪ V)
    with (list_to_set (target_ids (new_hops e cur es ({[n_id t]} ∪ V)))
          ∪ ({[n_id t]} ∪ V)) by set_solver.
  lia.
Qed.

(** The loop ends within one iteration per queued node and one per node
    still to be visited. *)
Lemma bfs_total
    (e : Engine) (max_depth : Z) (fuel : nat)
    (V : gset nat) (r : list Hop) (q : list (KnowledgeNode * nat)) :
  length q + unvisited e V ≤ fuel →
  ∃ res, bfs fuel e max_depth V r q = Some res.
Proof.
  revert V r q. induction fuel as [|fuel IH]; intros V r q Hfuel.
  - destruct q as [|[cur depth] rest]; simpl in *; [by eexists | lia].
  - destruct q as [|[cur depth] rest]; simpl in *; [by eexists|].
    destruct (decide (max_depth ≤ Z.of_nat depth)%Z).
    + apply IH. lia.
    + rewrite expand_new_hops. apply IH.
      pose proof (new_hops_measure e cur (edges_from e (n_id cur)) V).
      rewrite length_app. unfold enqueue. rewrite length_fmap. lia.
Qed.

(** More iterations than needed change nothing. *)
Lemma bfs_fuel_mono
    (e : Engine) (max_depth : Z) (fuel fuel' : nat)
    (V : gset nat) (r : list Hop) (q : list (KnowledgeNode * nat))
    (res : list Hop) :
  fuel ≤ fuel' →
  bfs fuel e max_depth V r q = Some res →
  bfs fuel' e max_depth V r q = Some res.
Proof.
  revert fuel' V r q. induction fuel as [|fuel IH]; intros fuel' V r q Hle Hrun.
  - destruct q as [|[cur depth] rest]; simpl in Hrun; [|discriminate].
    by destruct fuel'.
  - destruct fuel' as [|fuel']; [lia|].
    destruct q as [|[cur depth] rest]; simpl in *; [done|].
    destruct (decide (max_depth ≤ Z.of_nat depth)%Z).
    + apply IH; [lia | done].
    + destruct (expand _ _ _ _ _ _ _) as [[V' r'] q'].
      apply IH; [lia | done].
Qed.

Lemma traverse_hops_total
    (e : Engine) (start_entity : string) (max_depth : Z) :
  ∃ hops, traverse_hops e start_entity max_depth = Some hops.
Proof.
  unfold traverse_hops.
  destruct (find_entity e start_entity) as [s|]; [|by eexists].
  apply bfs_total. simpl. unfold unvisited.
  pose proof (length_filter (λ n, n_id n ∉ ({[n_id s]} : gset nat))
                (knowledge_nodes e)).
  lia.
Qed.

Lemma traverse_hops_inv
    (e : Engine) (start_entity : string) (max_depth : Z)
    (s : KnowledgeNode) (hops : list Hop) :
  find_entity e start_entity = Some s →
  traverse_hops e start_entity max_depth = Some hops →
  NoDup (n_id s :: target_ids hops) ∧ Forall (hop_ok e) hops.
Proof.
  unfold traverse_hops. intros -> Hrun.
  apply (bfs_inv_result e s) in Hrun as (V' & _ & Hnd & Hok); [done|].
  repeat split; simpl.
  - set_solver.
  - apply NoDup_singleton.
  - constructor.
Qed.

(** ** Traversal: breadth-first order *)

Lemma closed_mono (e : Engine) (V V' : gset nat) (u : KnowledgeNode) :
  V ⊆ V' → closed e V u → closed e V' u.
Proof.
  intros Hsub Hc. unfold closed in *.
  eapply Forall_impl; [exact Hc|]. simpl. intros edge Hedge t Ht.
  apply Hsub. by apply Hedge.
Qed.

Lemma new_hops_reach
    (e : Engine) (cur : KnowledgeNode) (es : list KnowledgeEdge)
    (V : gset nat) :
  Forall (λ edge, ∀ t, get_node e (e_target_id edge) = Some t →
                       n_id t ∈ list_to_set (target_ids (new_hops e cur es V))
                                ∪ V)
    es.
Proof.
  revert V. induction es as [|edge es IH]; intros V; [constructor|].
  simpl. destruct (get_node e (e_target_id edge)) as [t|] eqn:Hget.
  - destruct (decide (n_id t ∈ V)) as [Hin|Hnin].
    + constructor; [|apply IH]. intros t' Ht'.
      assert (t' = t) as -> by congruence. set_solver.
    + constructor.
      * intros t' Ht'. assert (t' = t) as -> by congruence.
        unfold target_ids. simpl. set_solver.
      * specialize (IH ({[n_id t]} ∪ V)).
        eapply Forall_impl; [exact IH|]. simpl. intros edge' Hedge t' Ht'.
        specialize (Hedge t' Ht'). unfold target_ids in *. simpl.
        set_solver.
  - constructor; [|apply IH]. intros t' Ht'. congruence.
Qed.

Lemma earliest_source_app
    (e : Engine) (order more : list KnowledgeNode) (h : Hop) :
  earliest_source e order h → earliest_source e (order ++ more) h.
Proof.
  intros (D1 & D2 & -> & Hall). exists D1, (D2 ++ more).
  split; [|done]. by rewrite <- app_assoc.
Qed.

Lemma constant_sorted (c : nat) (l : list nat) :
  Forall (λ x, x = c) l → StronglySorted le l.
Proof.
  induction 1 as [|x l -> Hl IH]; constructor; [done|].
  eapply Forall_impl; [exact Hl|]. simpl. lia.
Qed.

Lemma depth_ok_pop (d : nat) (ds : list nat) :
  depth_ok (d :: ds) → depth_ok ds ∧ Forall (λ x, d ≤ x) ds.
Proof.
  intros [Hs Hb]. apply StronglySorted_inv in Hs as [Hs Hmin].
  split; [|done]. split; [done|].
  destruct ds as [|d1 ds]; [done|].
  apply Forall_cons in Hb as [_ Hb]. apply Forall_cons in Hmin as [Hd _].
  eapply Forall_impl; [exact Hb|]. simpl. lia.
Qed.

Lemma depth_ok_push (d : nat) (ds new : list nat) :
  depth_ok (d :: ds) → Forall (λ x, x = S d) new → depth_ok (ds ++ new).
Proof.
  intros Hok Hnew. pose proof Hok as [_ Hb].
  apply depth_ok_pop in Hok as [[Hs Hb'] Hmin]. split.
  - apply StronglySorted_app_2; [|done|by eapply constant_sorted].
    intros x y Hx Hy.
    rewrite Forall_forall in Hb. rewrite Forall_forall in Hnew.
    rewrite (Hnew y Hy). by apply Hb.
  - destruct ds as [|d1 ds]; simpl.
    + destruct new as [|n new]; [done|].
      apply Forall_cons in Hnew as [-> Hnew].
      eapply Forall_impl; [exact Hnew|]. simpl. lia.
    + apply Forall_cons in Hmin as [Hd _].
      apply Forall_app. split; [done|].
      eapply Forall_impl; [exact Hnew|]. simpl. lia.
Qed.

Lemma enqueue_nodes (depth : nat) (hops : list Hop) :
  fst <$> enqueue depth hops = hop_target <$> hops.
Proof. unfold enqueue. by rewrite <- list_fmap_compose. Qed.

Lemma enqueue_depths (depth : nat) (hops : list Hop) :
  Forall (λ x, x = S depth) (snd <$> enqueue depth hops).
Proof.
  unfold enqueue. rewrite <- list_fmap_compose.
  induction hops; constructor; done.
Qed.

Lemma order_inv_skip
    (e : Engine) (s : KnowledgeNode) (max_depth : Z)
    (done : list KnowledgeNode) (V : gset nat) (r : list Hop)
    (cur : KnowledgeNode) (depth : nat) (rest : list (KnowledgeNode * nat)) :
  (max_depth ≤ Z.of_nat depth)%Z →
  order_inv e s max_depth done V r ((cur, depth) :: rest) →
  order_inv e s max_depth (done ++ [cur]) V r rest.
Proof.
  intros Hdeep (Hdisc & Hdepth & Hdone & Hhops).
  simpl in Hdepth. apply depth_ok_pop in Hdepth as [Hdepth Hmin].
  assert (Forall (λ x, (max_depth ≤ Z.of_nat x.2)%Z) rest) as Hrest.
  { rewrite Forall_fmap in Hmin. eapply Forall_impl; [exact Hmin|].
    simpl. intros x Hx. lia. }
  split; [|split; [|split]]; try done.
  - rewrite Hdisc. simpl. by rewrite <- app_assoc.
  - apply Forall_app. split.
    + eapply Forall_impl; [exact Hdone|]. simpl. intros u _. by right.
    + constructor; [by right | constructor].
Qed.

Lemma order_inv_expand
    (e : Engine) (s : KnowledgeNode) (max_depth : Z)
    (done : list KnowledgeNode) (V : gset nat) (r : list Hop)
    (cur : KnowledgeNode) (depth : nat) (rest : list (KnowledgeNode * nat)) :
  ¬ (max_depth ≤ Z.of_nat depth)%Z →
  order_inv e s max_depth done V r ((cur, depth) :: rest) →
  order_inv e s max_depth (done ++ [cur])
    (list_to_set
       (target_ids (new_hops e cur (edges_from e (n_id cur)) V)) ∪ V)
    (r ++ new_hops e cur (edges_from e (n_id cur)) V)
    (rest ++ enqueue depth (new_hops e cur (edges_from e (n_id cur)) V)).
Proof.
  intros Hshallow (Hdisc & Hdepth & Hdone & Hhops).
  destruct (new_hops_spec e cur (edges_from e (n_id cur)) V) as [_ Hnew].
  pose proof (new_hops_reach e cur (edges_from e (n_id cur)) V) as Hreach.
  set (hops := new_hops e cur (edges_from e (n_id cur)) V) in *.
  assert (Forall (closed e V) done) as Hclosed.
  { eapply Forall_impl; [exact Hdone|]. simpl. intros u [Hu|Hu]; [done|].
    apply Forall_cons in Hu as [Hu _]. simpl in Hu. lia. }
  assert (discovered s (r ++ hops)
          = (done ++ [cur]) ++ (fst <$> rest ++ enqueue depth hops)) as Hdisc'.
  { unfold discovered in *. rewrite fmap_app, app_comm_cons, Hdisc.
    rewrite fmap_app, enqueue_nodes. simpl. by rewrite <- !app_assoc. }
  split; [|split; [|split]].
  - exact Hdisc'.
  - rewrite fmap_app. eapply depth_ok_push; [exact Hdepth|].
    apply enqueue_depths.
  - apply Forall_app. split.
    + eapply Forall_impl; [exact Hclosed|]. simpl. intros u Hu. left.
      eapply closed_mono; [|exact Hu]. set_solver.
    + constructor; [|constructor]. by left.
  - apply Forall_app. split.
    + eapply Forall_impl; [exact Hhops|]. simpl. intros h Hh.
      unfold discovered. rewrite fmap_app, app_comm_cons.
      by apply earliest_source_app.
    + apply Forall_forall. intros h Hh.
      rewrite Forall_forall in Hnew.
      destruct (Hnew h Hh) as (Hfresh & Hsrc & Hget & _).
      exists done, ((fst <$> rest ++ enqueue depth hops)).
      split; [by rewrite Hdisc', Hsrc, <- app_assoc|].
      eapply Forall_impl; [exact Hclosed|]. simpl. intros u Hu.
      unfold closed in Hu. unfold no_edge_to.
      eapply Forall_impl; [exact Hu|]. simpl. intros edge' Hedge' Heq.
      apply Hfresh. apply Hedge'. by rewrite Heq.
Qed.

Lemma bfs_order_result
    (e : Engine) (s : KnowledgeNode) (max_depth : Z) (fuel : nat)
    (done : list KnowledgeNode) (V : gset nat) (r : list Hop)
    (q : list (KnowledgeNode * nat)) (res : list Hop) :
  order_inv e s max_depth done V r q →
  bfs fuel e max_depth V r q = Some res →
  Forall (earliest_source e (discovered s res)) res.
Proof.
  revert done V r q. induction fuel as [|fuel IH]; intros done V r q Hinv Hrun.
  - destruct q as [|[cur depth] rest]; simpl in Hrun; [|discriminate].
    injection Hrun as <-. by destruct Hinv as (_ & _ & _ & Hhops).
  - destruct q as [|[cur depth] rest]; simpl in Hrun.
    { injection Hrun as <-. by destruct Hinv as (_ & _ & _ & Hhops). }
    destruct (decide (max_depth ≤ Z.of_nat depth)%Z) as [Hdeep|Hshallow].
    + eapply IH; [|exact Hrun].
      exact (order_inv_skip e s max_depth done V r cur depth rest Hdeep Hinv).
    + rewrite expand_new_hops in Hrun.
      eapply IH; [|exact Hrun].
      exact (order_inv_expand e s max_depth done V r cur depth rest
               Hshallow Hinv).
Qed.

Lemma traverse_hops_order
    (e : Engine) (start_entity : string) (max_depth : Z)
    (s : KnowledgeNode) (hops : list Hop) :
  find_entity e start_entity = Some s →
  traverse_hops e start_entity max_depth = Some hops →
  Forall (earliest_source e (discovered s hops)) hops.
Proof.
  unfold traverse_hops. intros -> Hrun.
  eapply (bfs_order_result e s max_depth _ []); [|exact Hrun].
  split; [|split; [|split]]; simpl.
  - reflexivity.
  - split; repeat constructor.
  - constructor.
  - constructor.
Qed.

(** ** Claims on traversal *)

Lemma cyclic_engine_built :
  let e1 := (add_knowledge_node empty_engine "A" "first node" None).2 in
  let e2 := (add_knowledge_node e1 "B" "second node" None).2 in
  let e3 := (add_knowledge_edge e2 "A" "B" "knows" 1).2 in
  let e4 := (add_knowledge_edge e3 "A" "B" "likes" 1).2 in
  (add_knowledge_edge e4 "B" "A" "knows" 1).2 = cyclic_engine.
Proof. reflexivity. Qed.

Lemma traverse_hops_cyclic :
  traverse_hops cyclic_engine "A" 5 = Some [(node_a, edge_ab, node_b)].
Proof. reflexivity. Qed.

Lemma traverse_graph_cyclic :
  traverse_graph cyclic_engine "A" 5
  = Some [mkPathRecord "A" "knows" "B" "second node"].
Proof. reflexivity. Qed.

(** C7: on every graph, cyclic or not, and for every depth bound, the
    traversal terminates with a result: the loop is over within one iteration
    per node row and one more, and any larger bound gives the same hops. The
    start node and the nodes reached are pairwise distinct, so that no node
    is visited twice; and an unknown start entity gives the empty sequence,
    not an error. *)
Theorem traverse_graph_terminates
    (e : Engine) (start_entity : string) (max_depth : Z) :
  ∃ hops,
    traverse_hops e start_entity max_depth = Some hops
    ∧ traverse_graph e start_entity max_depth = Some (record_of <$> hops)
    ∧ (Forall (λ n, n_entity n ≠ start_entity) (knowledge_nodes e) →
       traverse_graph e start_entity max_depth = Some [])
    ∧ (∀ s, find_entity e start_entity = Some s →
            NoDup (n_id s :: target_ids hops))
    ∧ (∀ s fuel, find_entity e start_entity = Some s →
                 S (length (knowledge_nodes e)) ≤ fuel →
                 bfs fuel e max_depth {[n_id s]} [] [(s, 0)] = Some hops).
Proof.
  destruct (traverse_hops_total e start_entity max_depth) as [hops Hrun].
  exists hops. split; [exact Hrun|]. split; [|split; [|split]].
  - unfold traverse_graph. by rewrite Hrun.
  - intros Hunknown. apply find_entity_unknown in Hunknown.
    unfold traverse_graph, traverse_hops. by rewrite Hunknown.
  - intros s Hs.
    by destruct (traverse_hops_inv e start_entity max_depth s hops Hs Hrun).
  - intros s fuel Hs Hfuel. unfold traverse_hops in Hrun. rewrite Hs in Hrun.
    by eapply bfs_fuel_mono.
Qed.

Lemma hop_target_in_nodes (e : Engine) (h : Hop) :
  hop_ok e h → hop_target h ∈ knowledge_nodes e.
Proof. intros (_ & _ & Hget & _). by apply get_node_Some in Hget as [? _]. Qed.

(** C10: in the result of a traversal every node occurs at most once as a
    target, and the start node never does. Each hop follows an edge of the
    table from its source to the node the edge designates; that edge is the
    first edge met in breadth-first order that leads there: no node met
    before the source has an edge to the target, and among the out-edges of
    the source it is the first in creation order. Every other edge to the
    node yields no record. Where entities name one node each, no target name
    occurs twice in the returned records. *)
Theorem traverse_targets_once
    (e : Engine) (start_entity : string) (max_depth : Z) (hops : list Hop) :
  traverse_hops e start_entity max_depth = Some hops →
  NoDup (target_ids hops)
  ∧ Forall (hop_ok e) hops
  ∧ (∀ s, find_entity e start_entity = Some s →
          (n_id s ∉ target_ids hops)
          ∧ Forall (earliest_source e (discovered s hops)) hops)
  ∧ traverse_graph e start_entity max_depth = Some (record_of <$> hops)
  ∧ (NoDup (n_entity <$> knowledge_nodes e) →
     NoDup (p_target <$> (record_of <$> hops))).
Proof.
  intros Hrun.
  assert (∀ s, find_entity e start_entity = Some s →
               Forall (earliest_source e (discovered s hops)) hops) as Hord.
  { intros s Hs. by eapply traverse_hops_order. }
  assert (NoDup (target_ids hops) ∧ Forall (hop_ok e) hops
          ∧ ∀ s, find_entity e start_entity = Some s →
                 n_id s ∉ target_ids hops) as (Hnd & Hok & Hstart).
  { destruct (find_entity e start_entity) as [s|] eqn:Hs.
    - destruct (traverse_hops_inv e start_entity max_depth s hops Hs Hrun)
        as [Hnd Hok].
      apply NoDup_cons in Hnd as [Hs' Hnd].
      repeat split; try done. by intros ? [= <-].
    - unfold traverse_hops in Hrun. rewrite Hs in Hrun.
      injection Hrun as <-. repeat split; [apply NoDup_nil_2 | constructor |].
      intros ? [=]. }
  split; [done|]. split; [done|]. split; [|split].
  - intros s Hs. split; [by apply Hstart | by apply Hord].
  - unfold traverse_graph. by rewrite Hrun.
  - intros Hent.
    rewrite <- list_fmap_compose.
    replace (p_target ∘ record_of) with (n_entity ∘ hop_target)
      by reflexivity.
    rewrite list_fmap_compose.
    apply NoDup_fmap_2_strong.
    + intros x y Hx Hy Heq.
      apply list_elem_of_fmap in Hx as (hx & -> & Hhx).
      apply list_elem_of_fmap in Hy as (hy & -> & Hhy).
      rewrite Forall_forall in Hok.
      eapply (primary_key_inj n_entity); eauto using hop_target_in_nodes.
    + unfold target_ids in Hnd.
      rewrite (list_fmap_compose hop_target n_id) in Hnd.
      by apply NoDup_fmap_1 in Hnd.
Qed.

Lemma traverse_targets_once_witness :
  NoDup (target_ids [(node_a, edge_ab, node_b)])
  ∧ Forall (hop_ok cyclic_engine) [(node_a, edge_ab, node_b)]
  ∧ (∀ s, find_entity cyclic_engine "A" = Some s →
          (n_id s ∉ target_ids [(node_a, edge_ab, node_b)])
          ∧ Forall
              (earliest_source cyclic_engine
                 (discovered s [(node_a, edge_ab, node_b)]))
              [(node_a, edge_ab, node_b)])
  ∧ traverse_graph cyclic_engine "A" 5
    = Some (record_of <$> [(node_a, edge_ab, node_b)])
  ∧ (NoDup (n_entity <$> knowledge_nodes cyclic_engine) →
     NoDup (p_target <$> (record_of <$> [(node_a, edge_ab, node_b)]))).
Proof.
  apply (traverse_targets_once cyclic_engine "A" 5).
  reflexivity.
Defined.

(** ** Facts about the registry *)

Lemma get_conversation_id_sets (fresh : string) (s : Server) :
  current_conversation_id (get_conversation_id fresh s).2
  = Some (get_conversation_id fresh s).1.
Proof.
  unfold get_conversation_id.
  destruct (current_conversation_id s) as [id|] eqn:Hcur; [done|].
  by destruct (load_project_registry s !! cwd s).
Qed.

Lemma get_conversation_id_registered (fresh : string) (s : Server) :
  current_conversation_id s = None →
  load_project_registry (get_conversation_id fresh s).2
    !! cwd (get_conversation_id fresh s).2
  = Some (get_conversation_id fresh s).1.
Proof.
  intros Hnone. unfold get_conversation_id. rewrite Hnone.
  destruct (load_project_registry s !! cwd s) as [id|] eqn:Hreg; simpl.
  - exact Hreg.
  - unfold load_project_registry. simpl. apply lookup_insert_eq.
Qed.

(** ** Claims on the conversation registry *)

(** C9: two calls of [get_conversation_id] with no reset in between return
    the same identifier, whatever the directory, the registry file and the
    identifiers the generator would give; the second call changes nothing.
    In a process that starts afresh in the same directory the identifier is
    found again in the registry. *)
Theorem get_conversation_id_stable (s : Server) (fresh1 fresh2 : string) :
  let first := get_conversation_id fresh1 s in
  let second := get_conversation_id fresh2 first.2 in
  second.1 = first.1
  ∧ second.2 = first.2
  ∧ (current_conversation_id s = None →
     (get_conversation_id fresh2 (restart first.2)).1 = first.1).
Proof.
  intros first second. subst first second.
  pose proof (get_conversation_id_sets fresh1 s) as Hset.
  split; [|split].
  - unfold get_conversation_id at 1. by rewrite Hset.
  - unfold get_conversation_id at 1. by rewrite Hset.
  - intros Hnone.
    pose proof (get_conversation_id_registered fresh1 s Hnone) as Hreg.
    unfold get_conversation_id at 1. simpl.
    unfold load_project_registry, restart in *. simpl in *.
    by rewrite Hreg.
Qed.

(** After a reset the identifier is the new one. *)
Lemma reset_then_get (s : Server) (fresh1 fresh2 : string) :
  (get_conversation_id fresh2 (reset_conversation_id fresh1 s).2).1 = fresh1.
Proof. reflexivity. Qed.

Lemma get_conversation_id_example :
  let s := mkServer None "/home/u/app" None in
  (get_conversation_id "auto_1" s).1 = "auto_1"
  ∧ (get_conversation_id "auto_2" (get_conversation_id "auto_1" s).2).1
    = "auto_1"
  ∧ (get_conversation_id "auto_3"
       (reset_conversation_id "auto_2" (get_conversation_id "auto_1" s).2).2).1
    = "auto_2".
Proof. by repeat split. Qed.

(** * Part III: further properties *)

(** ** The two stores under ingestion and pruning *)

Lemma str_inj (a b : nat) : str a = str b → a = b.
Proof. unfold str. apply (inj pretty). Qed.

(** The three ways [ingest_interaction] ends: before the commit (the
    score is not computed, or it is [nan] and the commit is refused),
    between the commit and the vector record, or with both written. *)
Lemma ingest_interaction_cases
    {np : Numpy} (embed embed_later : string → option vec) (e : Engine)
    (now now_vec : Z)
    (cid role content : string) :
  let out :=
    ingest_interaction embed embed_later e now now_vec cid role content in
  let id := next_rowid (i_id <$> interactions e) in
  (∃ err, out = (Err err, e))
  ∨ ∃ score,
      calculate_surprise embed content
        (i_content <$> retrieve_episodic e cid 50) = Ok score
      ∧ Np.is_nan score = false
      ∧ (out = (Err EmbeddingFailure,
                mkEngine
                  (interactions e
                   ++ [mkInteraction id now role content score cid])
                  (master_vectors e) (knowledge_nodes e) (knowledge_edges e))
         ∨ ∃ v,
             embed_later content = Some v
             ∧ out = (Ok id,
                      mkEngine
                        (interactions e
                         ++ [mkInteraction id now role content score cid])
                        (Some (vector_rows e
                               ++ [mkVectorRecord v (str id) content role cid
                                     now_vec]))
                        (knowledge_nodes e) (knowledge_edges e))).
Proof.
  intros out id. subst out id. unfold ingest_interaction.
  destruct (calculate_surprise _ _ _) as [score|err]; [|left; by eexists].
  destruct (Np.is_nan score) eqn:Hnan; [left; by eexists|].
  right. exists score. split; [reflexivity|]. split; [exact Hnan|].
  rewrite encode_one. destruct (embed_later content) as [v|]; simpl.
  - right. exists v. split; [reflexivity|].
    unfold vector_rows. by destruct (master_vectors e).
  - by left.
Qed.

Lemma backed_weaken
    (rows rows' : list Interaction) (table : list VectorRecord) :
  (∀ i, i ∈ rows → i ∈ rows') →
  Forall (λ r, ∃ i, i ∈ rows ∧ backed_by r i) table →
  Forall (λ r, ∃ i, i ∈ rows' ∧ backed_by r i) table.
Proof.
  intros Hsub Hall. eapply Forall_impl; [exact Hall|]. simpl.
  intros r (i & Hi & Hb). exists i. split; [by apply Hsub | done].
Qed.

Lemma NoDup_snoc_fresh {A : Type} (l : list A) (x : A) :
  NoDup l → x ∉ l → NoDup (l ++ [x]).
Proof.
  intros Hnd Hx. apply NoDup_app. split; [done|]. split.
  - intros y Hy Hy'. apply list_elem_of_singleton in Hy'. by subst y.
  - apply NoDup_singleton.
Qed.

Lemma store_inv_ingest
    {np : Numpy} (embed embed_later : string → option vec) (e : Engine)
    (now now_vec : Z)
    (cid role content : string) :
  store_inv e →
  store_inv
    (ingest_interaction embed embed_later e now now_vec cid role content).2.
Proof.
  intros (Hkeys & Hback & Hvec).
  pose proof (next_rowid_fresh (i_id <$> interactions e)) as Hfresh.
  destruct (ingest_interaction_cases embed embed_later e now now_vec cid role
              content) as [[err ->]|(score & _ & _ & [-> | (v & _ & ->)])];
    simpl.
  - done.
  - split; [|split]; simpl.
    + rewrite fmap_app. by apply NoDup_snoc_fresh.
    + eapply backed_weaken; [|exact Hback].
      intros i Hi. apply elem_of_app. by left.
    + exact Hvec.
  - split; [|split]; unfold vector_rows; simpl.
    + rewrite fmap_app. by apply NoDup_snoc_fresh.
    + apply Forall_app. split.
      * eapply backed_weaken; [|exact Hback].
        intros i Hi. apply elem_of_app. by left.
      * constructor; [|constructor]. eexists. split.
        { apply elem_of_app. right. apply list_elem_of_here. }
        by repeat split.
    + rewrite fmap_app. apply NoDup_snoc_fresh; [done|]. simpl.
      intros Hin. apply list_elem_of_fmap in Hin as (r & Hid & Hr).
      rewrite Forall_forall in Hback.
      destruct (Hback r Hr) as (i & Hi & Hb & _).
      apply Hfresh. apply list_elem_of_fmap. exists i. split; [|done].
      apply str_inj. by rewrite <- Hb.
Qed.

Lemma store_inv_prune (e : Engine) (cid : string) (t : R) :
  store_inv e → store_inv (prune_interactions e cid t).2.
Proof.
  intros (Hkeys & Hback & Hvec).
  pose proof (prune_interactions_rows e cid t) as Hrows.
  pose proof (prune_interactions_vectors e cid t) as Hvecs.
  unfold store_inv, vector_rows in *. rewrite Hrows, Hvecs.
  split; [|split].
  - eapply sublist_NoDup; [exact Hkeys|].
    apply fmap_sublist, sublist_filter.
  - destruct (master_vectors e) as [table|]; simpl in *; [|constructor].
    apply Forall_forall. intros r Hr.
    apply list_elem_of_filter in Hr as [Hid Hr].
    rewrite Forall_forall in Hback.
    destruct (Hback r Hr) as (i & Hi & Hb).
    exists i. split; [|done]. apply list_elem_of_filter. split; [|done].
    intros Hdoomed. apply Hid. destruct Hb as (-> & _).
    apply list_elem_of_fmap in Hdoomed as (j & Hj & Hjin).
    unfold ids_to_prune. apply list_elem_of_fmap. exists j.
    split; [by rewrite Hj | done].
  - destruct (master_vectors e) as [table|]; simpl in *; [|constructor].
    eapply sublist_NoDup; [exact Hvec|].
    apply fmap_sublist, sublist_filter.
Qed.

(** X1: ingestion, pruning and consolidation keep the two stores coherent.
    From a state in which interaction identities are unique, every vector
    record is backed by an interaction with its identity and content, and
    vector identities are unique, each of the three operations leads to such
    a state again, whether it succeeds or fails. *)
Theorem store_inv_kept
    {np : Numpy} (embed embed_later : string → option vec) (e : Engine)
    (now now_vec : Z)
    (cid role content : string) (threshold : R) :
  store_inv e →
  store_inv
    (ingest_interaction embed embed_later e now now_vec cid role content).2
  ∧ store_inv (prune_interactions e cid threshold).2
  ∧ store_inv (consolidate_memory e cid).2.
Proof.
  intros Hinv. split; [by apply store_inv_ingest|].
  split; [by apply store_inv_prune|].
  unfold consolidate_memory.
  pose proof (store_inv_prune e cid 0.1 Hinv) as Hp.
  by destruct (prune_interactions e cid 0.1).
Qed.

Lemma store_inv_empty : store_inv empty_engine.
Proof. split; [|split]; simpl; constructor. Qed.

Lemma store_inv_kept_witness :
  store_inv
    (ingest_interaction (np := exact_numpy) embed_signed embed_signed
       empty_engine 1 2 "s1" "user" "hello").2
  ∧ store_inv (prune_interactions empty_engine "s1" 0.1).2
  ∧ store_inv (consolidate_memory empty_engine "s1").2.
Proof.
  apply (store_inv_kept (np := exact_numpy) embed_signed embed_signed
           empty_engine 1 2 "s1" "user" "hello" 0.1).
  apply store_inv_empty.
Defined.

(** ** Reading back what was ingested *)

(** [retrieve_episodic] reads the interaction table only. *)
Lemma retrieve_episodic_ext (e e' : Engine) (cid : string) (n : nat) :
  interactions e' = interactions e →
  retrieve_episodic e' cid n = retrieve_episodic e cid n.
Proof. intros H. unfold retrieve_episodic. by rewrite H. Qed.

Lemma retrieve_episodic_app_other
    (e e' : Engine) (row : Interaction) (cid : string) (n : nat) :
  interactions e' = interactions e ++ [row] →
  i_conversation_id row ≠ cid →
  retrieve_episodic e' cid n = retrieve_episodic e cid n.
Proof.
  intros Hrows Hother. unfold retrieve_episodic. rewrite Hrows.
  rewrite filter_app, filter_cons_False by done.
  by rewrite filter_nil, app_nil_r.
Qed.

(** The row [ingest_interaction] commits once the score is computed and
    is not [nan]. *)
Lemma ingest_interaction_committed
    {np : Numpy} (embed embed_later : string → option vec) (e : Engine)
    (now now_vec : Z)
    (cid role content : string) (score : npfloat) :
  calculate_surprise embed content (i_content <$> retrieve_episodic e cid 50)
  = Ok score →
  Np.is_nan score = false →
  interactions
    (ingest_interaction embed embed_later e now now_vec cid role content).2
  = interactions e
    ++ [mkInteraction (next_rowid (i_id <$> interactions e)) now role content
          score cid].
Proof.
  intros Hscore Hnan. unfold ingest_interaction.
  rewrite Hscore, Hnan, encode_one.
  by destruct (embed_later content).
Qed.

(** A row stamped after every row of its conversation is the first one read
    back. *)
Lemma retrieve_episodic_newest
    (e e' : Engine) (row : Interaction) (n : nat) :
  interactions e' = interactions e ++ [row] →
  Forall (λ i, i_conversation_id i = i_conversation_id row →
               (i_timestamp i < i_timestamp row)%Z) (interactions e) →
  head (retrieve_episodic e' (i_conversation_id row) (S n)) = Some row.
Proof.
  intros Hrows Holder. unfold retrieve_episodic. rewrite Hrows.
  rewrite filter_app, filter_cons_True by done. rewrite filter_nil.
  set (conv := filter _ (interactions e)).
  assert (Forall (λ i, (i_timestamp i < i_timestamp row)%Z) conv) as Hconv.
  { apply Forall_forall. intros i Hi. unfold conv in Hi.
    apply list_elem_of_filter in Hi as [Hcid Hi].
    rewrite Forall_forall in Holder. by apply Holder. }
  pose proof (merge_sort_Permutation newer_first (conv ++ [row])) as Hperm.
  assert (StronglySorted newer_first (merge_sort newer_first (conv ++ [row])))
    as Hsorted by (apply StronglySorted_merge_sort; apply _).
  destruct (merge_sort newer_first (conv ++ [row])) as [|h sorted].
  { symmetry in Hperm. apply Permutation_nil_r in Hperm.
    by apply app_eq_nil in Hperm as [_ ?]. }
  simpl. f_equal.
  assert (h ∈ conv ++ [row]) as Hh
    by (rewrite <- Hperm; apply list_elem_of_here).
  apply elem_of_app in Hh as [Hh|Hh]; [|by apply list_elem_of_singleton in Hh].
  exfalso.
  assert (row ∈ h :: sorted) as Hrow.
  { rewrite Hperm. apply elem_of_app. right. apply list_elem_of_here. }
  rewrite Forall_forall in Hconv. specialize (Hconv h Hh).
  apply elem_of_cons in Hrow as [->|Hrow]; [lia|].
  apply StronglySorted_inv in Hsorted as [_ Hfirst].
  rewrite Forall_forall in Hfirst. specialize (Hfirst row Hrow).
  unfold newer_first in Hfirst. lia.
Qed.

(** X2: read your writes. When the score of the new content is computed
    and is not [nan], [ingest_interaction] commits the row, whether or not
    the vector record follows; when moreover the clock reading of the row
    is later than that of every earlier row of the conversation,
    [retrieve_episodic] with any positive limit returns that row first. *)
Theorem ingest_then_retrieve
    {np : Numpy} (embed embed_later : string → option vec) (e : Engine)
    (now now_vec : Z)
    (cid role content : string) (score : npfloat) (n : nat) :
  calculate_surprise embed content (i_content <$> retrieve_episodic e cid 50)
  = Ok score →
  Np.is_nan score = false →
  Forall (λ i, i_conversation_id i = cid → (i_timestamp i < now)%Z)
    (interactions e) →
  head
    (retrieve_episodic
       (ingest_interaction embed embed_later e now now_vec cid role
          content).2 cid (S n))
  = Some
      (mkInteraction (next_rowid (i_id <$> interactions e)) now role content
         score cid).
Proof.
  intros Hscore Hnan Holder.
  set (row := mkInteraction _ now role content score cid).
  apply (retrieve_episodic_newest e _ row n); [|exact Holder].
  by apply ingest_interaction_committed.
Qed.

Lemma ingest_then_retrieve_witness :
  head
    (retrieve_episodic
       (ingest_interaction (np := exact_numpy) embed_signed embed_fail
          empty_engine 7 8 "s1" "user" "hello").2 "s1" 1)
  = Some
      (mkInteraction (next_rowid (i_id <$> interactions empty_engine)) 7
         "user" "hello" (Fin 1) "s1").
Proof.
  apply (ingest_then_retrieve (np := exact_numpy) embed_signed embed_fail
           empty_engine 7 8 "s1" "user" "hello" (Fin 1) 0).
  - reflexivity.
  - reflexivity.
  - simpl. constructor.
Defined.

(** ** Conversations do not interfere *)

(** X3: the rows read back for one conversation are not affected by what
    is done to another: an ingestion into another conversation, whatever its
    outcome, and a pruning or a consolidation of another conversation leave
    [retrieve_episodic] as it was. *)
Theorem conversations_isolated
    {np : Numpy} (embed embed_later : string → option vec) (e : Engine)
    (now now_vec : Z)
    (cid other role content : string) (threshold : R) (n : nat) :
  NoDup (i_id <$> interactions e) →
  other ≠ cid →
  retrieve_episodic
    (ingest_interaction embed embed_later e now now_vec cid role content).2
    other n
  = retrieve_episodic e other n
  ∧ retrieve_episodic (prune_interactions e cid threshold).2 other n
    = retrieve_episodic e other n
  ∧ retrieve_episodic (consolidate_memory e cid).2 other n
    = retrieve_episodic e other n.
Proof.
  intros Hkeys Hother.
  assert (∀ t, retrieve_episodic (prune_interactions e cid t).2 other n
               = retrieve_episodic e other n) as Hprune.
  { intros t. unfold retrieve_episodic.
    rewrite (prune_interactions_exact e cid t Hkeys).
    rewrite list_filter_filter_l; [done|].
    intros i Hi [Hcid _]. congruence. }
  split; [|split].
  - destruct (ingest_interaction_cases embed embed_later e now now_vec cid
                role content)
      as [[err ->]|(score & _ & _ & [-> | (v & _ & ->)])];
      simpl; [done| |];
      by apply (retrieve_episodic_app_other e _
                  (mkInteraction (next_rowid (i_id <$> interactions e)) now
                     role content score cid)).
  - apply Hprune.
  - unfold consolidate_memory. specialize (Hprune 0.1%R).
    by destruct (prune_interactions e cid 0.1).
Qed.

Lemma conversations_isolated_witness :
  retrieve_episodic
    (ingest_interaction (np := exact_numpy) embed_signed embed_signed
       example_engine 40 41 "s1" "user" "d").2 "s2" 10
  = retrieve_episodic example_engine "s2" 10
  ∧ retrieve_episodic (prune_interactions example_engine "s1" 0.1).2 "s2" 10
    = retrieve_episodic example_engine "s2" 10
  ∧ retrieve_episodic (consolidate_memory example_engine "s1").2 "s2" 10
    = retrieve_episodic example_engine "s2" 10.
Proof.
  apply (conversations_isolated (np := exact_numpy) embed_signed
           embed_signed example_engine 40 41 "s1" "s2" "user" "d" 0.1 10).
  - simpl. distinct_keys.
  - discriminate.
Defined.

(** ** Pruning twice, and what consolidation keeps *)

Lemma to_prune_after_prune (e : Engine) (cid : string) (t : R) :
  to_prune (prune_interactions e cid t).2 cid t = [].
Proof.
  unfold to_prune. apply filter_none. apply Forall_forall.
  intros i Hi. by apply prune_interactions_none_left in Hi.
Qed.

Lemma prune_interactions_nothing (e : Engine) (cid : string) (t : R) :
  to_prune e cid t = [] → prune_interactions e cid t = (0, e).
Proof.
  intros Hnone. unfold prune_interactions, ids_to_prune. by rewrite Hnone.
Qed.

(** X4: pruning is idempotent. A second [prune_interactions] with the same
    conversation and threshold deletes nothing, reports 0 and leaves both
    stores as the first left them; and a pruning that reports 0 has changed
    nothing. *)
Theorem prune_interactions_idempotent (e : Engine) (cid : string) (t : R) :
  prune_interactions (prune_interactions e cid t).2 cid t
  = (0, (prune_interactions e cid t).2)
  ∧ ((prune_interactions e cid t).1 = 0 → (prune_interactions e cid t).2 = e).
Proof.
  split.
  - apply prune_interactions_nothing, to_prune_after_prune.
  - rewrite prune_interactions_count. intros Hlen.
    apply nil_length_inv in Hlen.
    by rewrite (prune_interactions_nothing e cid t Hlen).
Qed.

Lemma gt_half_not_lt_tenth (x : npfloat) :
  Np.gt x 0.5%R → ¬ Np.lt x 0.1%R.
Proof.
  destruct x as [a| | |]; [|simpl; tauto..].
  rewrite gt_Fin, lt_Fin. lra.
Qed.

(** X5: consolidation never deletes what it promotes. Every interaction in
    the promoted list is still in the episodic store afterwards and is none
    of the pruned rows. *)
Theorem consolidate_memory_keeps_promoted (e : Engine) (cid : string) :
  NoDup (i_id <$> interactions e) →
  Forall (λ i, i ∈ interactions (consolidate_memory e cid).2
               ∧ i ∉ to_prune e cid 0.1)
    (consolidate_memory e cid).1.1.
Proof.
  intros Hkeys. unfold consolidate_memory.
  pose proof (prune_interactions_exact e cid 0.1 Hkeys) as Hrows.
  destruct (prune_interactions e cid 0.1) as [n e'] eqn:Hp. simpl in *.
  apply Forall_forall. intros i Hi.
  apply list_elem_of_filter in Hi as [Hgt Hi].
  destruct (retrieve_episodic_most_recent e cid 100) as (_ & _ & Hmem & _).
  destruct (Hmem i Hi) as [Hin Hcid].
  assert (¬ prunable cid 0.1 i) as Hkeep.
  { intros [_ Hlt]. by apply (gt_half_not_lt_tenth (i_surprise_score i)). }
  split.
  - rewrite Hrows. apply list_elem_of_filter. by split.
  - unfold to_prune. intros Hdoomed.
    by apply list_elem_of_filter in Hdoomed as [? _].
Qed.

Lemma consolidate_memory_keeps_promoted_witness :
  Forall (λ i, i ∈ interactions (consolidate_memory example_engine "s1").2
               ∧ i ∉ to_prune example_engine "s1" 0.1)
    (consolidate_memory example_engine "s1").1.1.
Proof.
  apply (consolidate_memory_keeps_promoted example_engine "s1").
  simpl. distinct_keys.
Defined.

(** ** Integrity of the knowledge graph *)

Lemma get_node_is_Some (e : Engine) (id : nat) :
  is_Some (get_node e id) ↔ id ∈ n_id <$> knowledge_nodes e.
Proof.
  unfold get_node. split.
  - intros [n Hn]. apply head_Some_elem_of in Hn.
    apply list_elem_of_filter in Hn as [<- Hin].
    apply list_elem_of_fmap. by exists n.
  - intros Hin. apply list_elem_of_fmap in Hin as (n & -> & Hin).
    destruct (filter _ _) as [|x l] eqn:Hf; [|by eexists].
    by destruct (filter_nil_not_elem_of _ _ n Hf).
Qed.

Lemma get_node_unique (e : Engine) (n : KnowledgeNode) :
  NoDup (n_id <$> knowledge_nodes e) → n ∈ knowledge_nodes e →
  get_node e (n_id n) = Some n.
Proof.
  intros Hnd Hin.
  destruct (proj2 (get_node_is_Some e (n_id n))) as [n' Hn'].
  { apply list_elem_of_fmap. by exists n. }
  rewrite Hn'. f_equal. apply get_node_Some in Hn' as [Hin' Hid].
  by apply (primary_key_inj n_id (knowledge_nodes e)).
Qed.

Lemma add_knowledge_node_ids
    (e : Engine) (entity description : string)
    (node_data : option (gmap string json)) (id : nat) :
  id ∈ n_id <$> knowledge_nodes e →
  id ∈ n_id
       <$> knowledge_nodes
             (add_knowledge_node e entity description node_data).2.
Proof.
  intros Hin. unfold add_knowledge_node.
  destruct (find_entity e entity) as [existing|]; simpl.
  - rewrite update_node_fmap_key; [done|]. intros n _ Heq. by rewrite Heq.
  - rewrite fmap_app. apply elem_of_app. by left.
Qed.

Lemma add_knowledge_node_edges
    (e : Engine) (entity description : string)
    (node_data : option (gmap string json)) :
  knowledge_edges (add_knowledge_node e entity description node_data).2
  = knowledge_edges e.
Proof.
  unfold add_knowledge_node. by destruct (find_entity e entity).
Qed.

Lemma graph_inv_empty : graph_inv empty_engine.
Proof.
  split; [apply nodes_wf_empty|]. split; simpl; constructor.
Qed.

Lemma graph_inv_node
    (e : Engine) (entity description : string)
    (node_data : option (gmap string json)) :
  graph_inv e →
  graph_inv (add_knowledge_node e entity description node_data).2.
Proof.
  intros [Hn [Hk Hends]]. split; [by apply add_knowledge_node_wf|].
  unfold edges_wf. rewrite add_knowledge_node_edges. split; [done|].
  eapply Forall_impl; [exact Hends|]. simpl. intros edge [Hs Ht].
  split; apply get_node_is_Some, add_knowledge_node_ids;
    by apply get_node_is_Some.
Qed.

Lemma graph_inv_edge
    (e : Engine) (source_entity target_entity relationship : string)
    (weight : R) :
  graph_inv e →
  graph_inv
    (add_knowledge_edge e source_entity target_entity relationship weight).2.
Proof.
  intros [Hn [Hk Hends]]. unfold add_knowledge_edge.
  destruct (find_entity e source_entity) as [s|] eqn:Hs; [|done].
  destruct (find_entity e target_entity) as [t|] eqn:Ht; [|done].
  apply find_entity_Some in Hs as [Hs _].
  apply find_entity_Some in Ht as [Ht _].
  split; [done|]. split; simpl.
  - rewrite fmap_app. apply NoDup_snoc_fresh; [done|].
    apply next_rowid_fresh.
  - apply Forall_app. split; [done|]. constructor; [|constructor]. simpl.
    split; apply get_node_is_Some, list_elem_of_fmap; by eexists.
Qed.

Lemma graph_inv_ext (e e' : Engine) :
  knowledge_nodes e' = knowledge_nodes e →
  knowledge_edges e' = knowledge_edges e →
  graph_inv e → graph_inv e'.
Proof.
  intros Hn He. unfold graph_inv, nodes_wf, edges_wf, get_node.
  by rewrite Hn, He.
Qed.

(** X6: the operations keep the knowledge graph well formed. From a state
    in which node identities, entity names and edge identities are unique
    and both ends of every edge are rows of the node table, adding a node,
    adding an edge (whether it succeeds or raises), ingesting and pruning
    lead to such a state again: no edge is ever left dangling. *)
Theorem graph_inv_kept
    {np : Numpy} (e : Engine) (entity description : string)
    (node_data : option (gmap string json))
    (source_entity target_entity relationship : string) (weight : R)
    (embed embed_later : string → option vec) (now now_vec : Z)
    (cid role content : string) (threshold : R) :
  graph_inv e →
  graph_inv (add_knowledge_node e entity description node_data).2
  ∧ graph_inv
      (add_knowledge_edge e source_entity target_entity relationship
         weight).2
  ∧ graph_inv
      (ingest_interaction embed embed_later e now now_vec cid role content).2
  ∧ graph_inv (prune_interactions e cid threshold).2.
Proof.
  intros Hinv. split; [by apply graph_inv_node|].
  split; [by apply graph_inv_edge|]. split.
  - destruct (ingest_interaction_cases embed embed_later e now now_vec cid
                role content)
      as [[err ->]|(score & _ & _ & [-> | (v & _ & ->)])];
      simpl; [done | by eapply graph_inv_ext..].
  - destruct (prune_interactions_graph e cid threshold) as [Hn He].
    by eapply graph_inv_ext.
Qed.

Lemma graph_inv_cyclic : graph_inv cyclic_engine.
Proof.
  split; [split; simpl; distinct_keys|]. split; [simpl; distinct_keys|].
  repeat constructor; by eexists.
Qed.

Lemma graph_inv_kept_witness :
  graph_inv (add_knowledge_node cyclic_engine "C" "third node" None).2
  ∧ graph_inv (add_knowledge_edge cyclic_engine "B" "A" "likes" 1).2
  ∧ graph_inv
      (ingest_interaction (np := exact_numpy) embed_signed embed_signed
         cyclic_engine 1 2 "s1" "user" "hello").2
  ∧ graph_inv (prune_interactions cyclic_engine "s1" 0.1).2.
Proof.
  apply (graph_inv_kept cyclic_engine "C" "third node" None "B" "A" "likes" 1
           embed_signed embed_signed 1 2 "s1" "user" "hello" 0.1).
  apply graph_inv_cyclic.
Defined.

(** ** Looking up what was added *)

Lemma filter_fmap_stable {A : Type} (P : A → Prop) `{∀ x, Decision (P x)}
    (f : A → A) (l : list A) :
  (∀ x, x ∈ l → P (f x) ↔ P x) →
  filter P (f <$> l) = f <$> filter P l.
Proof.
  induction l as [|x l IH]; intros Hf; [reflexivity|].
  rewrite fmap_cons, !filter_cons.
  rewrite IH by (intros y Hy; apply Hf; by apply list_elem_of_further).
  pose proof (Hf x (list_elem_of_here _ _)) as Hx.
  destruct (decide (P (f x))), (decide (P x)); tauto || reflexivity.
Qed.

Lemma head_fmap {A B : Type} (f : A → B) (l : list A) :
  head (f <$> l) = f <$> head l.
Proof. by destruct l. Qed.

(** After the update of a row, each entity resolves to the row it
    resolved to, updated. *)
Lemma find_entity_update
    (e : Engine) (existing updated : KnowledgeNode) (name : string) :
  NoDup (n_id <$> knowledge_nodes e) →
  existing ∈ knowledge_nodes e →
  n_id updated = n_id existing → n_entity updated = n_entity existing →
  head (filter (λ n, n_entity n = name)
          (update_node updated <$> knowledge_nodes e))
  = update_node updated <$> find_entity e name.
Proof.
  intros Hnd Hin Hid Hent. unfold find_entity.
  rewrite filter_fmap_stable; [apply head_fmap|].
  intros x Hx. unfold update_node.
  destruct (decide (n_id x = n_id updated)) as [Heq|_]; [|done].
  rewrite Hid in Heq.
  by rewrite (primary_key_inj n_id _ x existing Hnd Hx Hin Heq), Hent.
Qed.

Lemma get_node_update
    (e : Engine) (updated : KnowledgeNode) (id : nat) :
  head (filter (λ n, n_id n = id) (update_node updated <$> knowledge_nodes e))
  = update_node updated <$> get_node e id.
Proof.
  unfold get_node. rewrite filter_fmap_stable; [apply head_fmap|].
  intros x _. unfold update_node.
  destruct (decide (n_id x = n_id updated)) as [Heq|_]; [|done].
  by rewrite Heq.
Qed.

(** X7: after [add_knowledge_node] the entity resolves to the node whose
    identity was returned, by name and by identity, and the description of
    that node contains the text given; a new entity gets an identity no
    node had, with the description and the attributes given. Every other
    entity resolves to the node it resolved to before, and no edge
    changes. *)
Theorem add_knowledge_node_lookup
    (e : Engine) (entity description : string)
    (node_data : option (gmap string json)) :
  NoDup (n_id <$> knowledge_nodes e) →
  let out := add_knowledge_node e entity description node_data in
  (∃ n,
     find_entity out.2 entity = Some n
     ∧ get_node out.2 out.1 = Some n
     ∧ n_id n = out.1
     ∧ contains (n_description n) description
     ∧ (find_entity e entity = None →
        (out.1 ∉ n_id <$> knowledge_nodes e)
        ∧ n_description n = description
        ∧ n_node_data n = default ∅ node_data))
  ∧ (∀ other, other ≠ entity →
              find_entity out.2 other = find_entity e other)
  ∧ knowledge_edges out.2 = knowledge_edges e.
Proof.
  intros Hnd out. subst out.
  split; [|split; [|apply add_knowledge_node_edges]].
  - unfold add_knowledge_node.
    destruct (find_entity e entity) as [existing|] eqn:Hfind; simpl.
    + pose proof Hfind as Hfind'.
      apply find_entity_Some in Hfind' as [Hin He].
      eexists. unfold find_entity at 1, get_node at 1. simpl.
      rewrite (find_entity_update e existing) by done.
      rewrite get_node_update, Hfind, get_node_unique by done. simpl.
      rewrite update_node_hit by done.
      split; [reflexivity|]. split; [reflexivity|]. simpl.
      split; [reflexivity|]. split; [|done].
      apply contains_app_r, contains_suffix.
    + pose proof (next_rowid_fresh (n_id <$> knowledge_nodes e)) as Hfresh.
      eexists. unfold find_entity at 1, get_node at 1. simpl.
      rewrite !filter_app. unfold find_entity in Hfind.
      apply head_None in Hfind. rewrite Hfind.
      rewrite (filter_none (λ n, n_id n = _) (knowledge_nodes e)).
      2:{ apply Forall_forall. intros n Hn Heq. apply Hfresh.
          rewrite <- Heq. apply list_elem_of_fmap. by exists n. }
      rewrite !filter_cons_True by done. simpl.
      split; [reflexivity|]. split; [reflexivity|]. simpl.
      split; [reflexivity|]. split; [|done].
      exists EmptyString, EmptyString. by rewrite string_app_nil_r.
  - intros other Hother. unfold add_knowledge_node.
    destruct (find_entity e entity) as [existing|] eqn:Hfind; simpl.
    + pose proof Hfind as Hfind'.
      apply find_entity_Some in Hfind' as [Hin He].
      unfold find_entity at 1. simpl.
      rewrite (find_entity_update e existing) by done.
      destruct (find_entity e other) as [n|] eqn:Hn; [|done]. simpl.
      apply find_entity_Some in Hn as [Hn Hname].
      rewrite update_node_miss; [done|]. simpl. intros Heq.
      apply Hother.
      by rewrite <- Hname, (primary_key_inj n_id _ n existing Hnd Hn Hin Heq).
    + unfold find_entity. simpl. rewrite filter_app.
      rewrite filter_cons_False by (simpl; congruence).
      by rewrite filter_nil, app_nil_r.
Qed.

Lemma add_knowledge_node_lookup_witness :
  (∃ n,
     find_entity (add_knowledge_node cyclic_engine "C" "third node" None).2
       "C" = Some n
     ∧ n_id n = 3)
  ∧ find_entity (add_knowledge_node cyclic_engine "C" "third node" None).2
      "A" = Some node_a.
Proof.
  destruct (add_knowledge_node_lookup cyclic_engine "C" "third node" None)
    as ((n & Hn & _ & Hid & _) & Hother & _).
  - simpl. distinct_keys.
  - split; [by exists n|]. by rewrite Hother.
Defined.

(** ** Traversal: what is reached *)

Lemma reach_inv_skip
    (e : Engine) (s : KnowledgeNode) (max_depth : Z)
    (done : list (KnowledgeNode * nat)) (V : gset nat) (r : list Hop)
    (cur : KnowledgeNode) (depth : nat) (rest : list (KnowledgeNode * nat)) :
  (max_depth ≤ Z.of_nat depth)%Z →
  reach_inv e s max_depth done V r ((cur, depth) :: rest) →
  reach_inv e s max_depth (done ++ [(cur, depth)]) V r rest.
Proof.
  intros Hdeep (Hdisc & HV & Hdepth & Hle & Hcov & Hstart).
  simpl in Hdepth. apply depth_ok_pop in Hdepth as [Hdepth Hmin].
  split; [|split; [|split; [|split; [|split]]]].
  - by rewrite Hdisc, <- app_assoc.
  - done.
  - done.
  - intros x y Hx Hy. apply elem_of_app in Hx as [Hx|Hx].
    + apply Hle; [done|]. by apply list_elem_of_further.
    + apply list_elem_of_singleton in Hx as ->. simpl.
      rewrite Forall_fmap, Forall_forall in Hmin. by apply Hmin.
  - intros x edge t Hx Hd Hedge Hget. apply elem_of_app in Hx as [Hx|Hx].
    + destruct (Hcov x edge t Hx Hd Hedge Hget) as (y & Hy & Hid & Hl).
      exists y. split; [|done]. by rewrite <- app_assoc.
    + apply list_elem_of_singleton in Hx as ->. simpl in Hd. lia.
  - by rewrite <- app_assoc.
Qed.

Lemma reach_inv_expand
    (e : Engine) (s : KnowledgeNode) (max_depth : Z)
    (done : list (KnowledgeNode * nat)) (V : gset nat) (r : list Hop)
    (cur : KnowledgeNode) (depth : nat) (rest : list (KnowledgeNode * nat)) :
  reach_inv e s max_depth done V r ((cur, depth) :: rest) →
  reach_inv e s max_depth (done ++ [(cur, depth)])
    (list_to_set
       (target_ids (new_hops e cur (edges_from e (n_id cur)) V)) ∪ V)
    (r ++ new_hops e cur (edges_from e (n_id cur)) V)
    (rest ++ enqueue depth (new_hops e cur (edges_from e (n_id cur)) V)).
Proof.
  intros (Hdisc & HV & Hdepth & Hle & Hcov & Hstart).
  pose proof (new_hops_reach e cur (edges_from e (n_id cur)) V) as Hreach.
  set (hops := new_hops e cur (edges_from e (n_id cur)) V) in *.
  simpl in Hdepth. pose proof Hdepth as [_ Hbound].
  pose proof (depth_ok_pop _ _ Hdepth) as [_ Hmin].
  rewrite Forall_fmap, Forall_forall in Hbound.
  rewrite Forall_fmap, Forall_forall in Hmin.
  assert (discovered s (r ++ hops)
          = fst <$> ((done ++ [(cur, depth)]) ++ rest ++ enqueue depth hops))
    as Hdisc'.
  { unfold discovered in *. rewrite fmap_app, app_comm_cons, Hdisc.
    rewrite !fmap_app, enqueue_nodes. simpl. by rewrite <- !app_assoc. }
  assert (∀ y, y ∈ enqueue depth hops → y.2 = S depth) as Hnew.
  { intros y Hy. unfold enqueue in Hy.
    by apply list_elem_of_fmap in Hy as (h & -> & _). }
  assert ((cur, depth) ∈ (cur, depth) :: rest) as Hcur
    by apply list_elem_of_here.
  split; [|split; [|split; [|split; [|split]]]].
  - exact Hdisc'.
  - rewrite HV. unfold discovered. rewrite fmap_app. simpl.
    rewrite fmap_app, list_to_set_app_L.
    change (target_ids hops) with ((n_id ∘ hop_target) <$> hops).
    rewrite (list_fmap_compose hop_target n_id). set_solver.
  - rewrite fmap_app. eapply depth_ok_push; [exact Hdepth|].
    apply enqueue_depths.
  - intros x y Hx Hy.
    apply elem_of_app in Hx as [Hx|Hx]; apply elem_of_app in Hy as [Hy|Hy].
    + apply Hle; [done|]. by apply list_elem_of_further.
    + rewrite (Hnew y Hy). specialize (Hle x _ Hx Hcur). simpl in Hle. lia.
    + apply list_elem_of_singleton in Hx as ->. by apply Hmin.
    + apply list_elem_of_singleton in Hx as ->. rewrite (Hnew y Hy).
      simpl. lia.
  - intros x edge t Hx Hd Hedge Hget. apply elem_of_app in Hx as [Hx|Hx].
    + destruct (Hcov x edge t Hx Hd Hedge Hget) as (y & Hy & Hid & Hl).
      exists y. split; [|done].
      rewrite <- app_assoc. simpl.
      apply elem_of_app in Hy as [Hy|Hy]; apply elem_of_app; [by left|].
      right. rewrite app_comm_cons. apply elem_of_app. by left.
    + apply list_elem_of_singleton in Hx as ->. simpl in Hedge. simpl.
      rewrite Forall_forall in Hreach.
      specialize (Hreach edge Hedge t Hget).
      apply elem_of_union in Hreach as [Hin|Hin].
      * apply elem_of_list_to_set in Hin.
        apply list_elem_of_fmap in Hin as (h & Hid & Hh).
        exists (hop_target h, S depth). split; [|by split].
        apply elem_of_app. right. apply elem_of_app. right.
        unfold enqueue. apply list_elem_of_fmap. by exists h.
      * rewrite HV in Hin. apply elem_of_list_to_set in Hin.
        apply list_elem_of_fmap in Hin as (u & Hid & Hu).
        rewrite Hdisc in Hu.
        apply list_elem_of_fmap in Hu as (y & -> & Hy).
        exists y. split; [|split; [done|]].
        { rewrite <- app_assoc. simpl.
          apply elem_of_app in Hy as [Hy|Hy]; apply elem_of_app; [by left|].
          right. rewrite app_comm_cons. apply elem_of_app. by left. }
        apply elem_of_app in Hy as [Hy|Hy].
        { specialize (Hle y _ Hy Hcur). simpl in Hle. lia. }
        apply elem_of_cons in Hy as [->|Hy]; [simpl; lia|].
        by apply Hbound.
  - rewrite <- app_assoc. simpl.
    apply elem_of_app in Hstart as [H0|H0]; apply elem_of_app; [by left|].
    right. rewrite app_comm_cons. apply elem_of_app. by left.
Qed.

Lemma bfs_reach_result
    (e : Engine) (s : KnowledgeNode) (max_depth : Z) (fuel : nat)
    (done : list (KnowledgeNode * nat)) (V : gset nat) (r : list Hop)
    (q : list (KnowledgeNode * nat)) (res : list Hop) :
  reach_inv e s max_depth done V r q →
  bfs fuel e max_depth V r q = Some res →
  ∃ done' V', reach_inv e s max_depth done' V' res [].
Proof.
  revert done V r q. induction fuel as [|fuel IH]; intros done V r q Hinv Hrun.
  - destruct q as [|[cur depth] rest]; simpl in Hrun; [|discriminate].
    injection Hrun as <-. by exists done, V.
  - destruct q as [|[cur depth] rest]; simpl in Hrun.
    { injection Hrun as <-. by exists done, V. }
    destruct (decide (max_depth ≤ Z.of_nat depth)%Z) as [Hdeep|Hshallow].
    + eapply IH; [|exact Hrun].
      exact (reach_inv_skip e s max_depth done V r cur depth rest Hdeep Hinv).
    + rewrite expand_new_hops in Hrun.
      eapply IH; [|exact Hrun].
      exact (reach_inv_expand e s max_depth done V r cur depth rest Hinv).
Qed.

Lemma reach_inv_complete
    (e : Engine) (s : KnowledgeNode) (max_depth : Z)
    (done : list (KnowledgeNode * nat)) (V : gset nat) (res : list Hop)
    (k b : nat) :
  reach_inv e s max_depth done V res [] →
  reach e (n_id s) k b → (Z.of_nat k ≤ max_depth)%Z →
  ∃ y, y ∈ done ∧ n_id y.1 = b ∧ y.2 ≤ k.
Proof.
  intros (Hdisc & HV & Hdepth & Hle & Hcov & Hstart) Hreach.
  rewrite app_nil_r in Hstart.
  induction Hreach as [|k b edge t Hreach IH Hedge Hsrc Hget]; intros Hk.
  - by exists (s, 0).
  - destruct IH as (x & Hx & Hid & Hl); [lia|].
    destruct (Hcov x edge t) as (y & Hy & Hid' & Hl'); try done.
    + lia.
    + unfold edges_from. apply list_elem_of_filter. by rewrite Hid.
    + rewrite app_nil_r in Hy. exists y. split; [done|]. split; [done|]. lia.
Qed.

(** Every node within [max_depth] edges of the start node, the start node
    apart, is the target of a hop. *)
Lemma traverse_hops_complete
    (e : Engine) (start_entity : string) (max_depth : Z)
    (s : KnowledgeNode) (hops : list Hop) (k b : nat) :
  find_entity e start_entity = Some s →
  traverse_hops e start_entity max_depth = Some hops →
  reach e (n_id s) k b → (Z.of_nat k ≤ max_depth)%Z → b ≠ n_id s →
  b ∈ target_ids hops.
Proof.
  unfold traverse_hops. intros -> Hrun Hreach Hk Hb.
  apply (bfs_reach_result e s max_depth _ []) in Hrun as (done & V & Hinv).
  - destruct (reach_inv_complete e s max_depth done V hops k b Hinv Hreach Hk)
      as (y & Hy & Hid & _).
    destruct Hinv as (Hdisc & _). rewrite app_nil_r in Hdisc.
    assert (y.1 ∈ discovered s hops) as Hin.
    { rewrite Hdisc. apply list_elem_of_fmap. by exists y. }
    unfold discovered in Hin. apply elem_of_cons in Hin as [Heq|Hin].
    { destruct Hb. by rewrite <- Hid, Heq. }
    apply list_elem_of_fmap in Hin as (h & Hh & Hin).
    unfold target_ids. apply list_elem_of_fmap. exists h.
    split; [by rewrite <- Hid, Hh | done].
  - split; [|split; [|split; [|split; [|split]]]]; simpl.
    + reflexivity.
    + set_solver.
    + split; repeat constructor.
    + intros x y Hx. by apply elem_of_nil in Hx.
    + intros x edge t Hx. by apply elem_of_nil in Hx.
    + apply list_elem_of_here.
Qed.

Lemma sound_inv_expand
    (e : Engine) (s : KnowledgeNode) (max_depth : Z) (V : gset nat)
    (r : list Hop) (cur : KnowledgeNode) (depth : nat)
    (rest : list (KnowledgeNode * nat)) :
  ¬ (max_depth ≤ Z.of_nat depth)%Z →
  sound_inv e s max_depth r ((cur, depth) :: rest) →
  sound_inv e s max_depth
    (r ++ new_hops e cur (edges_from e (n_id cur)) V)
    (rest ++ enqueue depth (new_hops e cur (edges_from e (n_id cur)) V)).
Proof.
  intros Hshallow [Hq Hr].
  destruct (new_hops_spec e cur (edges_from e (n_id cur)) V) as [_ Hnew].
  set (hops := new_hops e cur (edges_from e (n_id cur)) V) in *.
  apply Forall_cons in Hq as [Hcur Hq]. simpl in Hcur.
  assert (Forall (λ h, reach e (n_id s) (S depth) (n_id (hop_target h))) hops)
    as Hstep.
  { eapply Forall_impl; [exact Hnew|]. simpl.
    intros h (_ & Hsrc & Hget & (before & after & Hsplit & _)).
    assert ((h.1).2 ∈ edges_from e (n_id cur)) as Hin.
    { rewrite Hsplit. apply elem_of_app. right. apply list_elem_of_here. }
    unfold edges_from in Hin. apply list_elem_of_filter in Hin as [Hfrom Hin].
    by eapply reach_step. }
  split; apply Forall_app; (split; [done|]).
  - unfold enqueue. rewrite Forall_fmap.
    eapply Forall_impl; [exact Hstep|]. done.
  - eapply Forall_impl; [exact Hstep|]. simpl. intros h Hh.
    exists (S depth). split; [lia|]. split; [lia | done].
Qed.

Lemma bfs_sound_result
    (e : Engine) (s : KnowledgeNode) (max_depth : Z) (fuel : nat)
    (V : gset nat) (r : list Hop) (q : list (KnowledgeNode * nat))
    (res : list Hop) :
  sound_inv e s max_depth r q →
  bfs fuel e max_depth V r q = Some res →
  sound_inv e s max_depth res [].
Proof.
  revert V r q. induction fuel as [|fuel IH]; intros V r q Hinv Hrun.
  - destruct q as [|[cur depth] rest]; simpl in Hrun; [|discriminate].
    by injection Hrun as <-.
  - destruct q as [|[cur depth] rest]; simpl in Hrun.
    { by injection Hrun as <-. }
    destruct (decide (max_depth ≤ Z.of_nat depth)%Z) as [Hdeep|Hshallow].
    + eapply IH; [|exact Hrun]. destruct Hinv as [Hq Hr].
      apply Forall_cons in Hq as [_ Hq]. by split.
    + rewrite expand_new_hops in Hrun.
      eapply IH; [|exact Hrun]. by apply sound_inv_expand.
Qed.

(** Every hop leads to a node that is at least one and at most [max_depth]
    edges away from the start node. *)
Lemma traverse_hops_sound
    (e : Engine) (start_entity : string) (max_depth : Z)
    (s : KnowledgeNode) (hops : list Hop) :
  find_entity e start_entity = Some s →
  traverse_hops e start_entity max_depth = Some hops →
  Forall (λ h, ∃ k, 1 ≤ k ∧ (Z.of_nat k ≤ max_depth)%Z
                    ∧ reach e (n_id s) k (n_id (hop_target h))) hops.
Proof.
  unfold traverse_hops. intros -> Hrun.
  apply (bfs_sound_result e s) in Hrun as [_ Hr]; [done|].
  split; [|constructor]. constructor; [|constructor]. simpl. constructor.
Qed.

(** X8: the traversal reaches exactly the nodes within [max_depth] edges.
    A node is the target of a hop of [traverse_graph] if and only if it is
    not the start node and a path of at most [max_depth] edges of the
    table, each to an existing row, leads to it from the start node. *)
Theorem traverse_hops_reachable
    (e : Engine) (start_entity : string) (max_depth : Z)
    (s : KnowledgeNode) (hops : list Hop) :
  find_entity e start_entity = Some s →
  traverse_hops e start_entity max_depth = Some hops →
  traverse_graph e start_entity max_depth = Some (record_of <$> hops)
  ∧ ∀ b, b ∈ target_ids hops
         ↔ b ≠ n_id s
           ∧ ∃ k, (Z.of_nat k ≤ max_depth)%Z ∧ reach e (n_id s) k b.
Proof.
  intros Hs Hrun. split; [unfold traverse_graph; by rewrite Hrun|].
  intros b. split.
  - intros Hb.
    destruct (traverse_hops_inv e start_entity max_depth s hops Hs Hrun)
      as [Hnd _].
    apply NoDup_cons in Hnd as [Hstart _].
    split; [by intros ->|].
    pose proof (traverse_hops_sound e start_entity max_depth s hops Hs Hrun)
      as Hsound.
    rewrite Forall_forall in Hsound.
    apply list_elem_of_fmap in Hb as (h & -> & Hh).
    destruct (Hsound h Hh) as (k & _ & Hk & Hreach). by exists k.
  - intros (Hb & k & Hk & Hreach). by eapply traverse_hops_complete.
Qed.

Lemma traverse_hops_reachable_witness :
  traverse_graph cyclic_engine "A" 5
  = Some (record_of <$> [(node_a, edge_ab, node_b)])
  ∧ ∀ b, b ∈ target_ids [(node_a, edge_ab, node_b)]
         ↔ b ≠ n_id node_a
           ∧ ∃ k, (Z.of_nat k ≤ 5)%Z ∧ reach cyclic_engine (n_id node_a) k b.
Proof.
  apply (traverse_hops_reachable cyclic_engine "A" 5 node_a
           [(node_a, edge_ab, node_b)]); reflexivity.
Defined.

(** ** Traversal after an edge was added, and the depth bound *)

Lemma traverse_graph_hops
    (e : Engine) (start_entity : string) (max_depth : Z)
    (records : list PathRecord) :
  traverse_graph e start_entity max_depth = Some records →
  ∃ hops, traverse_hops e start_entity max_depth = Some hops
          ∧ records = record_of <$> hops.
Proof.
  unfold traverse_graph.
  destruct (traverse_hops e start_entity max_depth) as [hops|]; [|done].
  intros [= <-]. by exists hops.
Qed.

(** The node a hop leads to is determined by its identity. *)
Lemma hop_target_by_id (e : Engine) (h h' : Hop) :
  hop_ok e h → hop_ok e h' →
  n_id (hop_target h) = n_id (hop_target h') → hop_target h = hop_target h'.
Proof.
  intros (_ & _ & Hget & _) (_ & _ & Hget' & _) Hid.
  pose proof (get_node_Some _ _ _ Hget) as [_ Ht].
  pose proof (get_node_Some _ _ _ Hget') as [_ Ht'].
  rewrite <- Ht, Hid, Ht', Hget' in Hget. by injection Hget.
Qed.

(** X9: an edge that was added is found by the traversal. When both
    entities are known and differ, [add_knowledge_edge] returns an identity
    no edge had and appends the edge between the two nodes; a traversal from
    the source entity with a depth of one or more then returns a record from
    the source entity to the target entity, with the description of the
    target node. *)
Theorem add_knowledge_edge_then_traverse
    (e : Engine) (source_entity target_entity relationship : string)
    (weight : R) (max_depth : Z) (s t : KnowledgeNode) :
  nodes_wf e →
  find_entity e source_entity = Some s →
  find_entity e target_entity = Some t →
  source_entity ≠ target_entity →
  (1 ≤ max_depth)%Z →
  let out :=
    add_knowledge_edge e source_entity target_entity relationship weight in
  (∃ id,
     out.1 = Ok id
     ∧ (id ∉ e_id <$> knowledge_edges e)
     ∧ knowledge_edges out.2
       = knowledge_edges e
         ++ [mkKnowledgeEdge id (n_id s) (n_id t) relationship weight]
     ∧ knowledge_nodes out.2 = knowledge_nodes e)
  ∧ ∃ records rel,
      traverse_graph out.2 source_entity max_depth = Some records
      ∧ mkPathRecord source_entity rel target_entity (n_description t)
        ∈ records.
Proof.
  intros [Hids Hents] Hs Ht Hne Hdepth out. subst out.
  unfold add_knowledge_edge. rewrite Hs, Ht. simpl.
  set (edge := mkKnowledgeEdge (next_rowid (e_id <$> knowledge_edges e))
                 (n_id s) (n_id t) relationship weight).
  set (e' := mkEngine (interactions e) (master_vectors e) (knowledge_nodes e)
               (knowledge_edges e ++ [edge])).
  split.
  { eexists. split; [reflexivity|]. split; [apply next_rowid_fresh | done]. }
  assert (find_entity e' source_entity = Some s) as Hs' by exact Hs.
  pose proof (find_entity_Some _ _ _ Hs) as [Hsin Hsname].
  pose proof (find_entity_Some _ _ _ Ht) as [Htin Htname].
  assert (get_node e' (n_id t) = Some t) as Hget
    by (by apply (get_node_unique e')).
  assert (n_id t ≠ n_id s) as Hdiff.
  { intros Heq. apply Hne.
    by rewrite <- Hsname, <- Htname,
         (primary_key_inj n_id _ t s Hids Htin Hsin Heq). }
  assert (edge ∈ knowledge_edges e') as Hedge.
  { simpl. apply elem_of_app. right. apply list_elem_of_here. }
  destruct (traverse_hops_total e' source_entity max_depth) as [hops Hrun].
  assert (n_id t ∈ target_ids hops) as Hreached.
  { apply (traverse_hops_complete e' source_entity max_depth s hops 1
             (n_id t) Hs' Hrun); [|lia|done].
    apply (reach_step e' (n_id s) 0 (n_id s) edge t); try done.
    constructor. }
  apply list_elem_of_fmap in Hreached as (h & Hid & Hh).
  destruct (traverse_hops_inv e' source_entity max_depth s hops Hs' Hrun)
    as [_ Hok].
  pose proof (traverse_hops_order e' source_entity max_depth s hops Hs' Hrun)
    as Hord.
  rewrite Forall_forall in Hok. rewrite Forall_forall in Hord.
  pose proof (Hok h Hh) as Hh_ok.
  destruct (Hord h Hh) as (earlier & later & Hsplit & Hnone).
  pose proof Hh_ok as (_ & _ & Hget_h & _).
  pose proof (get_node_Some _ _ _ Hget_h) as [Hin_h Hid_h].
  assert (hop_target h = t) as Htarget.
  { by apply (primary_key_inj n_id (knowledge_nodes e)). }
  assert ((h.1).1 = s) as Hsource.
  { destruct earlier as [|u earlier].
    - unfold discovered in Hsplit. simpl in Hsplit. by injection Hsplit.
    - unfold discovered in Hsplit. simpl in Hsplit.
      injection Hsplit as <- _.
      apply Forall_cons in Hnone as [Hnone _]. unfold no_edge_to in Hnone.
      rewrite Forall_forall in Hnone. destruct (Hnone edge).
      + unfold edges_from. by apply list_elem_of_filter.
      + simpl. simpl in Hid. congruence. }
  exists (record_of <$> hops), (e_relationship (h.1).2). split.
  { unfold traverse_graph. by rewrite Hrun. }
  apply list_elem_of_fmap. exists h. split; [|done].
  unfold record_of. unfold hop_target in Htarget.
  by rewrite Hsource, Htarget, Hsname, Htname.
Qed.

Lemma add_knowledge_edge_then_traverse_witness :
  ∃ records rel,
    traverse_graph (add_knowledge_edge cyclic_engine "B" "A" "likes" 1).2
      "B" 1 = Some records
    ∧ mkPathRecord "B" rel "A" "first node" ∈ records.
Proof.
  destruct (add_knowledge_edge_then_traverse cyclic_engine "B" "A" "likes" 1
              1 node_b node_a) as [_ Hfound].
  - split; simpl; distinct_keys.
  - reflexivity.
  - reflexivity.
  - discriminate.
  - lia.
  - exact Hfound.
Defined.

(** X10: the depth bound of a traversal. With a bound of zero or less the
    traversal returns no record, and raising the bound never loses a
    target: every entity named as target under a bound is named as target
    under every larger bound. *)
Theorem traverse_graph_depth
    (e : Engine) (start_entity : string) (d d' : Z)
    (records records' : list PathRecord) :
  traverse_graph e start_entity d = Some records →
  traverse_graph e start_entity d' = Some records' →
  (d ≤ d')%Z →
  ((d ≤ 0)%Z → records = [])
  ∧ ∀ name, name ∈ p_target <$> records → name ∈ p_target <$> records'.
Proof.
  intros (hops & Hrun & ->)%traverse_graph_hops
         (hops' & Hrun' & ->)%traverse_graph_hops Hle.
  destruct (find_entity e start_entity) as [s|] eqn:Hs.
  2:{ unfold traverse_hops in Hrun, Hrun'. rewrite Hs in Hrun, Hrun'.
      injection Hrun as <-. by injection Hrun' as <-. }
  pose proof (traverse_hops_sound e start_entity d s hops Hs Hrun) as Hsound.
  split.
  - intros Hzero. destruct hops as [|h hops]; [done|].
    apply Forall_cons in Hsound as [(k & Hk & Hd & _) _]. lia.
  - intros name Hname.
    apply list_elem_of_fmap in Hname as (rec & -> & Hrec).
    apply list_elem_of_fmap in Hrec as (h & -> & Hh).
    rewrite Forall_forall in Hsound.
    destruct (Hsound h Hh) as (k & Hk & Hd & Hreach).
    destruct (traverse_hops_inv e start_entity d s hops Hs Hrun)
      as [Hnd Hok].
    destruct (traverse_hops_inv e start_entity d' s hops' Hs Hrun')
      as [_ Hok'].
    rewrite Forall_forall in Hok. rewrite Forall_forall in Hok'.
    assert (n_id (hop_target h) ≠ n_id s) as Hstart.
    { apply NoDup_cons in Hnd as [Hnd _]. intros Heq. apply Hnd.
      rewrite <- Heq. apply list_elem_of_fmap. by exists h. }
    assert (n_id (hop_target h) ∈ target_ids hops') as Hin.
    { eapply traverse_hops_complete; try done. lia. }
    apply list_elem_of_fmap in Hin as (h' & Hid & Hh').
    apply list_elem_of_fmap. exists (record_of h'). split.
    + pose proof (hop_target_by_id e h h' (Hok h Hh) (Hok' h' Hh') Hid)
        as Heq.
      unfold hop_target in Heq. unfold record_of. simpl. by rewrite Heq.
    + apply list_elem_of_fmap. by exists h'.
Qed.

Lemma traverse_graph_depth_witness :
  ([] : list PathRecord) = []
  ∧ ∀ name,
      name ∈ p_target <$> ([] : list PathRecord) →
      name ∈ p_target <$> [mkPathRecord "A" "knows" "B" "second node"].
Proof.
  destruct (traverse_graph_depth cyclic_engine "A" 0 5 []
              [mkPathRecord "A" "knows" "B" "second node"]) as [Hnil Hsub].
  - reflexivity.
  - reflexivity.
  - lia.
  - split; [apply Hnil; lia | exact Hsub].
Defined.

(** ** The surprise scorer and the history *)





Section HistoryFacts.

Variable embed : string → option vec.

Lemma encode_cons (c : string) (h : list string) :
  encode embed (c :: h)
  = match embed c with
    | Some v =>
        match encode embed h with
        | Some hs => Some (v :: hs)
        | None => None
        end
    | None => None
    end.
Proof.
  unfold encode. simpl. destruct (embed c) as [v|]; [|reflexivity].
  simpl. by destruct (mapM embed h).
Qed.




End HistoryFacts.











(** ** The registry and the other projects *)

(** X14: the registry entries of other projects are never touched.
    [get_conversation_id] and [reset_conversation_id] leave the working
    directory and the entry of every other directory as they were; a
    directory that is registered keeps its entry through
    [get_conversation_id], which then writes nothing; and after a reset the
    new identifier is the entry of the directory, so that a process started
    afresh there gets it. *)
Theorem registry_isolation (s : Server) (fresh fresh' : string) :
  let got := (get_conversation_id fresh s).2 in
  let new := (reset_conversation_id fresh s).2 in
  cwd got = cwd s
  ∧ cwd new = cwd s
  ∧ (∀ d, d ≠ cwd s →
          load_project_registry got !! d = load_project_registry s !! d
          ∧ load_project_registry new !! d = load_project_registry s !! d)
  ∧ (is_Some (load_project_registry s !! cwd s) →
     registry_file got = registry_file s)
  ∧ load_project_registry new !! cwd s = Some fresh
  ∧ (get_conversation_id fresh' (restart new)).1 = fresh.
Proof.
  intros got new. subst got new.
  unfold get_conversation_id, reset_conversation_id.
  destruct (current_conversation_id s) as [cur|];
    destruct (load_project_registry s !! cwd s) as [id|] eqn:Hreg; simpl;
    unfold load_project_registry; simpl;
    rewrite ?lookup_insert_eq;
    (split; [done|]); (split; [done|]); (split; [|split; [|done]]);
    try done;
    try (intros d Hd; by rewrite ?lookup_insert_ne by done);
    try (by intros [? [=]]).
Qed.

(** ** Recent activity *)

Lemma fetch_recent_activities_done (e : Engine) (now hours : Z) :
  window_ok now hours →
  fetch_recent_activities e now hours
  = Done
      (merge_sort newer_first
         (filter (λ i, (now - hours * 3600000000 ≤ i_timestamp i)%Z)
            (interactions e))).
Proof.
  intros [Hdays Hcut]. unfold fetch_recent_activities, timedelta_hours.
  destruct (decide _) as [_|Hno]; [|done]. simpl. unfold datetime_sub.
  by destruct (decide _) as [_|Hno].
Qed.

Lemma fetch_recent_activities_raises (e : Engine) (now hours : Z) :
  ¬ window_ok now hours →
  fetch_recent_activities e now hours = Raise OverflowError.
Proof.
  intros Hno. unfold fetch_recent_activities, timedelta_hours.
  destruct (decide _) as [Hdays|_]; [|done]. simpl. unfold datetime_sub.
  destruct (decide _) as [Hcut|_]; [|done]. by destruct Hno.
Qed.

Lemma retrieve_episodic_elem (e : Engine) (cid : string) (n : nat)
    (i : Interaction) :
  i ∈ retrieve_episodic e cid n →
  i ∈ interactions e ∧ i_conversation_id i = cid.
Proof.
  unfold retrieve_episodic. intros Hi.
  apply (subseteq_take n) in Hi.
  rewrite merge_sort_Permutation in Hi.
  apply list_elem_of_filter in Hi. tauto.
Qed.

(** X15: [fetch_recent_activities] returns the rows in the window, of all
    conversations, newest first. It raises [OverflowError] when [hours] is
    more than a [timedelta] holds or the start of the window is not a
    [datetime]. Otherwise a row is returned exactly when it is stored and
    stamped no earlier than [hours] before the call, and as often as it is
    stored; a longer window returns every row of a shorter one; every row
    [retrieve_episodic] returns for a conversation is returned when it lies
    in the window; and a row just ingested, whose score is not [nan], is
    returned when the window reaches back to its time stamp. *)
Theorem fetch_recent_activities_window
    {np : Numpy} (e : Engine) (now hours hours' : Z)
    (embed embed_later : string → option vec) (now0 now_vec : Z)
    (cid role content : string) (score : npfloat) :
  let cutoff := (now - hours * 3600000000)%Z in
  (¬ window_ok now hours →
   fetch_recent_activities e now hours = Raise OverflowError)
  ∧ (window_ok now hours →
     ∃ recent,
       fetch_recent_activities e now hours = Done recent
       ∧ StronglySorted newer_first recent
       ∧ recent ≡ₚ filter (λ i, (cutoff ≤ i_timestamp i)%Z) (interactions e)
       ∧ (∀ i, i ∈ recent ↔ i ∈ interactions e ∧ (cutoff ≤ i_timestamp i)%Z)
       ∧ ((hours ≤ hours')%Z → window_ok now hours' →
          ∃ recent',
            fetch_recent_activities e now hours' = Done recent'
            ∧ ∀ i, i ∈ recent → i ∈ recent')
       ∧ (∀ c n i, i ∈ retrieve_episodic e c n →
                   (cutoff ≤ i_timestamp i)%Z → i ∈ recent)
       ∧ (calculate_surprise embed content
            (i_content <$> retrieve_episodic e cid 50) = Ok score →
          Np.is_nan score = false →
          (cutoff ≤ now0)%Z →
          ∃ recent1,
            fetch_recent_activities
              (ingest_interaction embed embed_later e now0 now_vec cid role
                 content).2 now hours = Done recent1
            ∧ mkInteraction (next_rowid (i_id <$> interactions e)) now0 role
                content score cid ∈ recent1)).
Proof.
  intros cutoff. subst cutoff.
  split; [apply fetch_recent_activities_raises|]. intros Hok.
  eexists. split; [by apply fetch_recent_activities_done|].
  assert (∀ e0 h i,
            i ∈ merge_sort newer_first
                  (filter (λ i, (now - h * 3600000000 ≤ i_timestamp i)%Z)
                     (interactions e0))
            ↔ i ∈ interactions e0
              ∧ (now - h * 3600000000 ≤ i_timestamp i)%Z) as Helem.
  { intros e0 h i. rewrite merge_sort_Permutation, list_elem_of_filter.
    tauto. }
  split; [apply StronglySorted_merge_sort; apply _|].
  split; [apply merge_sort_Permutation|].
  split; [apply Helem|].
  split; [|split].
  - intros Hle Hok'. eexists.
    split; [by apply fetch_recent_activities_done|].
    intros i Hi. apply Helem in Hi as [Hin Hts].
    apply Helem. split; [done|]. nia.
  - intros c n i Hi Hts. apply retrieve_episodic_elem in Hi as [Hin _].
    by apply Helem.
  - intros Hscore Hnan Hts. eexists.
    split; [by apply fetch_recent_activities_done|].
    apply Helem.
    rewrite (ingest_interaction_committed _ _ _ _ _ _ _ _ score Hscore Hnan).
    split; [|done]. apply elem_of_app. right. apply list_elem_of_here.
Qed.

(** ** The log ingester: paths into a record *)

Lemma split_on_nonempty (sep : Ascii.ascii) (s : string) :
  split_on sep s ≠ [].
Proof.
  destruct s as [|c s]; simpl; [done|].
  destruct (decide (c = sep)); [done|]. by destruct (split_on sep s).
Qed.

Lemma split_on_plain (sep : Ascii.ascii) (s : string) :
  occurs sep s = false → split_on sep s = [s].
Proof.
  induction s as [|c s IH]; simpl; [done|].
  destruct (decide (c = sep)); [done|]. intros Hs. by rewrite IH.
Qed.

Lemma split_on_app (sep : Ascii.ascii) (k p : string) :
  occurs sep k = false →
  split_on sep (k +:+ String sep p) = k :: split_on sep p.
Proof.
  induction k as [|c k IH]; intros Hk.
  - change (split_on sep (String sep p) = EmptyString :: split_on sep p).
    simpl. by destruct (decide (sep = sep)).
  - change (split_on sep (String c (k +:+ String sep p))
            = String c k :: split_on sep p).
    simpl in *. destruct (decide (c = sep)); [done|]. by rewrite IH.
Qed.

Lemma extract_keys_null (keys : list string) :
  keys ≠ [] → extract_keys VNull keys = VNull.
Proof. by destruct keys. Qed.

Lemma extract_keys_cons (val : jvalue) (k : string) (keys : list string) :
  keys ≠ [] →
  extract_keys val (k :: keys) = extract_keys (get_key val k) keys.
Proof.
  intros Hne. destruct val; simpl; try done; by rewrite extract_keys_null.
Qed.

(** X16: a dotted path is resolved key by key. For a first key that is
    not empty and has no dot, and a rest that is not empty, the field at
    [key.rest] is the field at [rest] of the field at [key]; the field at a
    single key is what [dict.get] gives, [None] when the key is missing; and
    in a value that is not a dictionary every path leads to [None] instead
    of an error. *)
Theorem extract_field_nested (record : jvalue) (k p : string) :
  k ≠ EmptyString → p ≠ EmptyString → occurs "."%char k = false →
  _extract_field record (k +:+ "." +:+ p)
  = _extract_field (_extract_field record k) p
  ∧ _extract_field record k = get_key record k
  ∧ ((∀ d, record ≠ VDict d) →
     ∀ path, _extract_field record path = VNull).
Proof.
  intros Hk Hp Hdot.
  assert (_extract_field record k = get_key record k) as Hone.
  { unfold _extract_field. destruct k as [|c k]; [done|].
    rewrite split_on_plain by done. by destruct record. }
  split; [|split; [done|]].
  - rewrite Hone. unfold _extract_field.
    destruct k as [|c k]; [done|]. destruct p as [|c' p]; [done|].
    change (String c k +:+ "." +:+ String c' p)
      with (String c (k +:+ String "."%char (String c' p))).
    change (String c (k +:+ String "."%char (String c' p)))
      with (String c k +:+ String "."%char (String c' p)) at 2.
    rewrite split_on_app by done.
    apply extract_keys_cons, split_on_nonempty.
  - intros Hnot path. unfold _extract_field.
    destruct path as [|c path]; [done|].
    pose proof (split_on_nonempty "."%char (String c path)) as Hne.
    destruct (split_on "."%char (String c path)) as [|key keys]; [done|].
    destruct record; try done. by destruct (Hnot d).
Qed.

Lemma extract_field_nested_witness :
  _extract_field
    (VDict {["metadata" := VDict {["created_at" := VInt 5]}]})
    ("metadata" +:+ "." +:+ "created_at")
  = _extract_field
      (_extract_field
         (VDict {["metadata" := VDict {["created_at" := VInt 5]}]})
         "metadata")
      "created_at".
Proof.
  destruct (extract_field_nested
              (VDict {["metadata" := VDict {["created_at" := VInt 5]}]})
              "metadata" "created_at") as [Hnested _]; done.
Defined.

(** ** The log ingester: time stamps *)

Lemma to_seconds_millis (n : Z) :
  (100000000 < n)%Z → to_seconds (Qc_of_Z (n * 1000)) = Qc_of_Z n.
Proof.
  intros Hn. unfold to_seconds, millis_from.
  destruct (decide _) as [_|Hsmall].
  - rewrite Z2Qc_inj_mul. apply Qcdiv_mult_l.
    rewrite <- Z2Qc_inj_0. intros Heq. by apply Z2Qc_inj in Heq.
  - destruct Hsmall. apply (proj1 (Z2Qc_inj_lt _ _)). lia.
Qed.

Lemma to_seconds_seconds (n : Z) :
  (n ≤ 100000000000)%Z → to_seconds (Qc_of_Z n) = Qc_of_Z n.
Proof.
  intros Hn. unfold to_seconds, millis_from.
  destruct (decide _) as [Hbig|_]; [|done].
  apply (proj2 (Z2Qc_inj_lt _ _)) in Hbig. lia.
Qed.

Lemma truthy_int (n : Z) : n ≠ 0%Z → truthy (VInt n) = true.
Proof. intros Hn. simpl. by rewrite bool_decide_eq_false_2. Qed.

Lemma float_max_int_large : (100000000000000 < float_max_int)%Z.
Proof. reflexivity. Qed.

(** An integer that is not zero and converts to a float is a number of
    seconds or of milliseconds. *)
Lemma parse_timestamp_int (iso_timestamp : string → option Qc) (n : Z) :
  n ≠ 0%Z → (- float_max_int < n < float_max_int)%Z →
  _parse_timestamp iso_timestamp (VInt n)
  = Done (Some (to_seconds (Qc_of_Z n))).
Proof.
  intros Hn Hrange. unfold _parse_timestamp. rewrite truthy_int by done.
  by destruct (decide _).
Qed.

(** X17: seconds and milliseconds are told apart by the bound [1e11].
    An integer time stamp of more than [1e8] and at most [1e11] seconds
    (from 1973 to the year 5138) parses to the same number of seconds
    whether it is given in seconds or in milliseconds. A number of
    milliseconds of at most [1e11] (a date before March 1973) is taken for
    seconds, and zero is taken for a missing time stamp. An integer too
    large for a float raises [OverflowError]. *)
Theorem parse_timestamp_units
    (iso_timestamp : string → option Qc) (n : Z) :
  (100000000 < n ≤ 100000000000)%Z →
  _parse_timestamp iso_timestamp (VInt n) = Done (Some (Qc_of_Z n))
  ∧ _parse_timestamp iso_timestamp (VInt (n * 1000))
    = Done (Some (Qc_of_Z n))
  ∧ (∀ m, (0 < m)%Z → (m * 1000 ≤ 100000000000)%Z →
          _parse_timestamp iso_timestamp (VInt (m * 1000))
          = Done (Some (Qc_of_Z (m * 1000))))
  ∧ _parse_timestamp iso_timestamp (VInt 0) = Done None
  ∧ (∀ m, (float_max_int ≤ m)%Z →
          _parse_timestamp iso_timestamp (VInt m) = Raise OverflowError).
Proof.
  intros [Hlo Hhi]. pose proof float_max_int_large as Hbig.
  split; [|split; [|split; [|split; [done|]]]].
  - rewrite parse_timestamp_int by lia. by rewrite to_seconds_seconds.
  - rewrite parse_timestamp_int by lia. by rewrite to_seconds_millis.
  - intros m Hm Hsmall. rewrite parse_timestamp_int by lia.
    by rewrite to_seconds_seconds.
  - intros m Hm. unfold _parse_timestamp. rewrite truthy_int by lia.
    destruct (decide _) as [Hin|_]; [lia | done].
Qed.

Lemma parse_timestamp_units_witness :
  _parse_timestamp (λ _, None) (VInt 1700000000)
  = Done (Some (Qc_of_Z 1700000000))
  ∧ _parse_timestamp (λ _, None) (VInt (1700000000 * 1000))
    = Done (Some (Qc_of_Z 1700000000)).
Proof.
  destruct (parse_timestamp_units (λ _, None) 1700000000) as (Hs & Hms & _).
  - lia.
  - by split.
Defined.

(** ** The log ingester: what a scan reports *)

Section IngesterFacts.

Variable iso_timestamp : string → option Qc.
Variable representable : Qc → bool.
Variable strip : string → string.
Variable loads : string → option jvalue.

Lemma mapped_field_truthy
    (record : jvalue) (mapping : gmap string string) (key : string)
    (dflt : jvalue) :
  truthy dflt = true → truthy (mapped_field record mapping key dflt) = true.
Proof.
  intros Hd. unfold mapped_field, py_or.
  destruct (mapping !! key) as [path|]; [|done].
  by destruct (truthy (_extract_field record path)) eqn:Ht.
Qed.

(** An item [_map_record] returns has content taken from the record. *)
Lemma map_record_item
    (record : jvalue) (name : string) (mapping : gmap string string)
    (file_ts cutoff_ts : Qc) (item : Activity) :
  _map_record iso_timestamp representable record name mapping file_ts
    cutoff_ts = Mapped item →
  recent_item representable name cutoff_ts item
  ∧ ∃ path, mapping !! "content" = Some path
            ∧ a_content item = _extract_field record path.
Proof.
  unfold _map_record.
  destruct (match mapping !! "timestamp" with
            | Some _ => _ | None => _ end) as [ts|err]; [|done].
  destruct (decide (ts < cutoff_ts)%Qc) as [|Hts]; [done|].
  destruct (truthy (mapped_field record mapping "content" _)) eqn:Hc;
    [|done].
  destruct (representable ts) eqn:Hr; [|done].
  intros [= <-]. split.
  - split; [done|]. split; [done|]. simpl.
    split; [by apply mapped_field_truthy|].
    split; [by apply mapped_field_truthy|].
    split; [by apply Qcnot_lt_le | done].
  - simpl. unfold mapped_field, py_or in *.
    destruct (mapping !! "content") as [path|]; [|done].
    exists path. split; [done|].
    by destruct (truthy (_extract_field record path)).
Qed.

Lemma jsonl_items_elem
    (name : string) (mapping : gmap string string) (file_ts cutoff_ts : Qc)
    (lines : list string) (item : Activity) :
  item ∈ jsonl_items iso_timestamp representable strip loads name mapping
           file_ts cutoff_ts lines →
  ∃ line record,
    line ∈ lines ∧ loads line = Some record
    ∧ _map_record iso_timestamp representable record name mapping file_ts
        cutoff_ts = Mapped item.
Proof.
  induction lines as [|line lines IH]; simpl; intros Hin.
  { by apply elem_of_nil in Hin. }
  assert (item ∈ jsonl_items iso_timestamp representable strip loads name
                   mapping file_ts cutoff_ts lines →
          ∃ line0 record,
            line0 ∈ line :: lines ∧ loads line0 = Some record
            ∧ _map_record iso_timestamp representable record name mapping
                file_ts cutoff_ts = Mapped item) as Hrest.
  { intros H. destruct (IH H) as (l0 & r & Hl0 & Hr).
    exists l0, r. split; [by apply list_elem_of_further | done]. }
  destruct (decide (strip line = EmptyString)); [by apply Hrest|].
  destruct (loads line) as [record|] eqn:Hload; [|by apply Hrest].
  destruct (_map_record _ _ record name mapping file_ts cutoff_ts)
    as [it| |] eqn:Hmap; try by apply Hrest.
  apply elem_of_cons in Hin as [->|Hin]; [|by apply Hrest].
  exists line, record. split; [apply list_elem_of_here | done].
Qed.

Lemma json_items_elem
    (name : string) (mapping : gmap string string) (file_ts cutoff_ts : Qc)
    (records : list jvalue) (item : Activity) :
  item ∈ json_items iso_timestamp representable name mapping file_ts
           cutoff_ts records →
  ∃ record,
    record ∈ records
    ∧ _map_record iso_timestamp representable record name mapping file_ts
        cutoff_ts = Mapped item.
Proof.
  induction records as [|record records IH]; simpl; intros Hin.
  { by apply elem_of_nil in Hin. }
  destruct (_map_record _ _ record name mapping file_ts cutoff_ts)
    as [it| |] eqn:Hmap.
  - apply elem_of_cons in Hin as [->|Hin].
    + exists record. split; [apply list_elem_of_here | done].
    + destruct (IH Hin) as (r & Hr & Hm).
      exists r. split; [by apply list_elem_of_further | done].
  - destruct (IH Hin) as (r & Hr & Hm).
    exists r. split; [by apply list_elem_of_further | done].
  - by apply elem_of_nil in Hin.
Qed.

Lemma text_items_elem
    (name : string) (file_ts : Qc) (lines : list string) (item : Activity) :
  item ∈ text_items representable strip name file_ts lines →
  representable file_ts = true
  ∧ ∃ line, line ∈ lines ∧ strip line ≠ EmptyString
            ∧ item = mkActivity name (VStr "Log File") file_ts
                       (VStr "system") (VStr (strip line)).
Proof.
  induction lines as [|line lines IH]; simpl; intros Hin.
  { by apply elem_of_nil in Hin. }
  assert (item ∈ text_items representable strip name file_ts lines →
          representable file_ts = true
          ∧ ∃ line0, line0 ∈ line :: lines ∧ strip line0 ≠ EmptyString
                     ∧ item = mkActivity name (VStr "Log File") file_ts
                                (VStr "system") (VStr (strip line0)))
    as Hrest.
  { intros H. destruct (IH H) as (Hr & l0 & Hl0 & Hne & Heq).
    split; [done|]. exists l0. split; [by apply list_elem_of_further|done]. }
  destruct (decide (strip line = EmptyString)) as [|Hne]; [by apply Hrest|].
  destruct (representable file_ts) eqn:Hr;
    [|by apply elem_of_nil in Hin].
  apply elem_of_cons in Hin as [->|Hin]; [|by apply Hrest].
  split; [done|]. exists line. split; [apply list_elem_of_here | done].
Qed.

Lemma truthy_str (s : string) : s ≠ EmptyString → truthy (VStr s) = true.
Proof. intros Hs. simpl. by rewrite bool_decide_eq_false_2. Qed.

Lemma scan_file_elem
    (name format_type : string) (mapping : gmap string string)
    (cutoff_ts : Qc) (f : LogFile) (item : Activity) :
  item ∈ scan_file iso_timestamp representable strip loads name format_type
           mapping cutoff_ts f →
  (cutoff_ts ≤ f_mtime f)%Qc ∧ is_Some (f_lines f)
  ∧ recent_item representable name cutoff_ts item.
Proof.
  unfold scan_file.
  destruct (decide (f_mtime f < cutoff_ts)%Qc) as [|Hnew].
  { intros Hin. by apply elem_of_nil in Hin. }
  apply Qcnot_lt_le in Hnew. intros Hin. split; [done|].
  destruct (decide (format_type = "jsonl")) as [_|_];
    [|destruct (decide (format_type = "json")) as [_|_];
      [|destruct (decide (format_type = "text")) as [_|_]]].
  - unfold _parse_jsonl in Hin.
    destruct (f_lines f) as [lines|]; [|by apply elem_of_nil in Hin].
    split; [by eexists|].
    apply jsonl_items_elem in Hin as (line & record & _ & _ & Hmap).
    by apply map_record_item in Hmap as [Hok _].
  - unfold _parse_json in Hin.
    destruct (f_lines f) as [lines|]; [|by apply elem_of_nil in Hin].
    split; [by eexists|].
    destruct (loads _) as [data|]; [|by apply elem_of_nil in Hin].
    destruct (iterate _) as [records|]; [|by apply elem_of_nil in Hin].
    apply json_items_elem in Hin as (record & _ & Hmap).
    by apply map_record_item in Hmap as [Hok _].
  - unfold _parse_text in Hin.
    destruct (decide (f_mtime f < cutoff_ts)%Qc);
      [by apply elem_of_nil in Hin|].
    destruct (f_lines f) as [lines|]; [|by apply elem_of_nil in Hin].
    split; [by eexists|].
    apply text_items_elem in Hin as (Hr & line & _ & Hne & ->).
    split; [done|]. split; [by apply truthy_str|]. by repeat split.
  - by apply elem_of_nil in Hin.
Qed.

End IngesterFacts.

Lemma elem_of_concat {A : Type} (x : A) (ls : list (list A)) :
  x ∈ concat ls → ∃ l, x ∈ l ∧ l ∈ ls.
Proof.
  induction ls as [|l ls IH]; simpl; intros Hin.
  { by apply elem_of_nil in Hin. }
  apply elem_of_app in Hin as [Hin|Hin].
  - exists l. split; [done | apply list_elem_of_here].
  - destruct (IH Hin) as (l' & Hx & Hl').
    exists l'. split; [done | by apply list_elem_of_further].
Qed.

(** X18: what a scan reports is recent and has content. Every item of
    [scan_all] comes from a file of a configured source that can be read
    and was modified within the window; its source is the name of that
    source, its content, project and role are not empty, and its time
    stamp is within the window. *)
Theorem scan_all_items
    (iso_timestamp : string → option Qc) (representable : Qc → bool)
    (strip : string → string) (loads : string → option jvalue)
    (sources : list Source) (now : Qc) (hours : Z) (item : Activity) :
  item ∈ scan_all iso_timestamp representable strip loads sources now hours →
  let cutoff_ts := (now - Qc_of_Z hours * Qc_of_Z 3600)%Qc in
  ∃ source f,
    source ∈ sources ∧ f ∈ s_files source
    ∧ (cutoff_ts ≤ f_mtime f)%Qc ∧ is_Some (f_lines f)
    ∧ recent_item representable (default "Unknown Source" (s_name source))
        cutoff_ts item.
Proof.
  intros Hin cutoff_ts. unfold scan_all in Hin. fold cutoff_ts in Hin.
  apply elem_of_concat in Hin as (items & Hin & Hitems).
  apply list_elem_of_fmap in Hitems as (source & -> & Hsource).
  unfold _scan_source in Hin.
  apply elem_of_concat in Hin as (items & Hin & Hitems).
  apply list_elem_of_fmap in Hitems as (f & -> & Hf).
  apply scan_file_elem in Hin as (Hnew & Hread & Hok).
  by exists source, f.
Qed.

Lemma scan_all_items_witness :
  ∃ source f,
    source ∈ [mkSource (Some "OpenWork") (Some "text") None
                [mkLogFile (Qc_of_Z 100) (Some ["hello"])]]
    ∧ f ∈ s_files source
    ∧ (Qc_of_Z 100 - Qc_of_Z 1 * Qc_of_Z 3600 ≤ f_mtime f)%Qc
    ∧ is_Some (f_lines f)
    ∧ recent_item (λ _, true) (default "Unknown Source" (s_name source))
        (Qc_of_Z 100 - Qc_of_Z 1 * Qc_of_Z 3600)%Qc
        (mkActivity "OpenWork" (VStr "Log File") (Qc_of_Z 100)
           (VStr "system") (VStr "hello")).
Proof.
  apply (scan_all_items (λ _, None) (λ _, true) (λ s, s) (λ _, None)
           [mkSource (Some "OpenWork") (Some "text") None
              [mkLogFile (Qc_of_Z 100) (Some ["hello"])]]
           (Qc_of_Z 100) 1).
  apply list_elem_of_here.
Defined.

(** ** The log ingester: records that cannot be used *)

Section IngesterLoops.

Variable iso_timestamp : string → option Qc.
Variable representable : Qc → bool.
Variable strip : string → string.
Variable loads : string → option jvalue.

Lemma jsonl_items_app
    (name : string) (mapping : gmap string string) (file_ts cutoff_ts : Qc)
    (l1 l2 : list string) :
  jsonl_items iso_timestamp representable strip loads name mapping file_ts
    cutoff_ts (l1 ++ l2)
  = jsonl_items iso_timestamp representable strip loads name mapping file_ts
      cutoff_ts l1
    ++ jsonl_items iso_timestamp representable strip loads name mapping
         file_ts cutoff_ts l2.
Proof.
  induction l1 as [|line l1 IH]; simpl; [done|].
  destruct (decide (strip line = EmptyString)); [done|].
  destruct (loads line) as [record|]; [|done].
  destruct (_map_record _ _ record name mapping file_ts cutoff_ts); try done.
  by rewrite IH.
Qed.

Lemma json_items_raised
    (name : string) (mapping : gmap string string) (file_ts cutoff_ts : Qc)
    (r1 r2 : list jvalue) (bad : jvalue) :
  _map_record iso_timestamp representable bad name mapping file_ts cutoff_ts
  = Raised →
  json_items iso_timestamp representable name mapping file_ts cutoff_ts
    (r1 ++ bad :: r2)
  = json_items iso_timestamp representable name mapping file_ts cutoff_ts r1.
Proof.
  intros Hbad. induction r1 as [|record r1 IH]; simpl.
  - by rewrite Hbad.
  - destruct (_map_record _ _ record name mapping file_ts cutoff_ts);
      try done. by rewrite IH.
Qed.

Lemma json_items_no_item
    (name : string) (mapping : gmap string string) (file_ts cutoff_ts : Qc)
    (r1 r2 : list jvalue) (bad : jvalue) :
  _map_record iso_timestamp representable bad name mapping file_ts cutoff_ts
  = NoItem →
  json_items iso_timestamp representable name mapping file_ts cutoff_ts
    (r1 ++ bad :: r2)
  = json_items iso_timestamp representable name mapping file_ts cutoff_ts
      (r1 ++ r2).
Proof.
  intros Hbad. induction r1 as [|record r1 IH]; simpl.
  - by rewrite Hbad.
  - destruct (_map_record _ _ record name mapping file_ts cutoff_ts);
      try done. by rewrite IH.
Qed.

(** A record that is not a dictionary gives no item. *)
Lemma map_record_not_dict
    (record : jvalue) (name : string) (mapping : gmap string string)
    (file_ts cutoff_ts : Qc) :
  (∀ d, record ≠ VDict d) →
  _map_record iso_timestamp representable record name mapping file_ts
    cutoff_ts = NoItem.
Proof.
  intros Hnot.
  assert (∀ path, _extract_field record path = VNull) as Hnull.
  { intros path. unfold _extract_field. destruct path as [|c path]; [done|].
    pose proof (split_on_nonempty "."%char (String c path)) as Hne.
    destruct (split_on "."%char (String c path)) as [|key keys]; [done|].
    destruct record; try done. by destruct (Hnot d). }
  unfold _map_record, mapped_field.
  destruct (mapping !! "timestamp") as [path|];
    [rewrite Hnull; simpl|];
    (destruct (decide (file_ts < cutoff_ts)%Qc); [done|]);
    (destruct (mapping !! "content") as [path'|];
       [by rewrite Hnull | done]).
Qed.

Lemma json_items_not_dict
    (name : string) (mapping : gmap string string) (file_ts cutoff_ts : Qc)
    (records : list jvalue) :
  Forall (λ record, ∀ d, record ≠ VDict d) records →
  json_items iso_timestamp representable name mapping file_ts cutoff_ts
    records = [].
Proof.
  induction 1 as [|record records Hrec _ IH]; simpl; [done|].
  by rewrite map_record_not_dict.
Qed.

Lemma text_items_length (name : string) (file_ts : Qc) (lines : list string) :
  length (text_items representable strip name file_ts lines) ≤ length lines.
Proof.
  induction lines as [|line lines IH]; simpl; [done|].
  destruct (decide (strip line = EmptyString)); [lia|].
  destruct (representable file_ts); simpl; lia.
Qed.

End IngesterLoops.

(** X19: a record that cannot be used costs a [.jsonl] file one line and a
    [.json] file the rest of the document. In a [.jsonl] file every line
    counts on its own: the items of the lines are the items of a first part
    followed by those of the rest, and a line that is blank, is not JSON or
    makes [_map_record] raise changes nothing else. In a [.json] file a
    record that makes [_map_record] raise ends the scan: the items found
    before it are kept and all records after it are lost, whereas a record
    that gives no item is passed over. *)
Theorem bad_records_skipped
    (iso_timestamp : string → option Qc) (representable : Qc → bool)
    (strip : string → string) (loads : string → option jvalue)
    (name : string) (mapping : gmap string string) (file_ts cutoff_ts : Qc)
    (l1 l2 : list string) (bad_line : string)
    (r1 r2 : list jvalue) (bad : jvalue) :
  let jsonl :=
    jsonl_items iso_timestamp representable strip loads name mapping file_ts
      cutoff_ts in
  let json :=
    json_items iso_timestamp representable name mapping file_ts cutoff_ts in
  let map_record r :=
    _map_record iso_timestamp representable r name mapping file_ts
      cutoff_ts in
  jsonl (l1 ++ l2) = jsonl l1 ++ jsonl l2
  ∧ (strip bad_line = EmptyString ∨ loads bad_line = None
     ∨ (∃ r, loads bad_line = Some r ∧ map_record r = Raised) →
     jsonl (l1 ++ bad_line :: l2) = jsonl (l1 ++ l2))
  ∧ (map_record bad = Raised → json (r1 ++ bad :: r2) = json r1)
  ∧ (map_record bad = NoItem → json (r1 ++ bad :: r2) = json (r1 ++ r2)).
Proof.
  intros jsonl json map_record. subst jsonl json map_record.
  split; [apply jsonl_items_app|]. split; [|split].
  - intros Hbad. rewrite !jsonl_items_app. f_equal. simpl.
    destruct Hbad as [Hblank|[Hjson|(r & Hr & Hraise)]].
    + by destruct (decide (strip bad_line = EmptyString)).
    + destruct (decide (strip bad_line = EmptyString)); [done|].
      by rewrite Hjson.
    + destruct (decide (strip bad_line = EmptyString)); [done|].
      by rewrite Hr, Hraise.
  - apply json_items_raised.
  - apply json_items_no_item.
Qed.

(** X20: the shapes of a [.json] document. The records are the entries
    of a root list, or of the list under ["messages"] of a root dictionary,
    whose other fields are then not read; a root dictionary without
    ["messages"] is the one record. A ["messages"] value that is not a list,
    a root that is neither list nor dictionary, and list entries that are
    not dictionaries give no item and no error. *)
Theorem parse_json_shapes
    (iso_timestamp : string → option Qc) (representable : Qc → bool)
    (loads : string → option jvalue)
    (f : LogFile) (name : string) (mapping : gmap string string)
    (cutoff_ts : Qc) (lines : list string) (data : jvalue) :
  f_lines f = Some lines →
  loads (String.concat EmptyString lines) = Some data →
  let items :=
    _parse_json iso_timestamp representable loads f name mapping cutoff_ts in
  let json :=
    json_items iso_timestamp representable name mapping (f_mtime f)
      cutoff_ts in
  (∀ l, data = VList l → items = json l)
  ∧ (∀ d l, data = VDict d → d !! "messages" = Some (VList l) →
            items = json l)
  ∧ (∀ d, data = VDict d → d !! "messages" = None → items = json [data])
  ∧ (∀ d m, data = VDict d → d !! "messages" = Some m →
            (∀ l, m ≠ VList l) → items = [])
  ∧ ((∀ l, data ≠ VList l) → (∀ d, data ≠ VDict d) → items = [])
  ∧ (∀ l, data = VList l → Forall (λ r, ∀ d, r ≠ VDict d) l → items = []).
Proof.
  intros Hlines Hdata items json. subst items json.
  unfold _parse_json. rewrite Hlines, Hdata.
  split; [|split; [|split; [|split; [|split]]]].
  - by intros l ->.
  - intros d l -> Hm. simpl. by rewrite Hm.
  - intros d -> Hm. simpl. by rewrite Hm.
  - intros d m -> Hm Hnot. simpl. rewrite Hm.
    destruct m as [| | | |s|l|d']; simpl; try done.
    + apply json_items_not_dict. apply Forall_fmap, Forall_true. done.
    + by destruct (Hnot l).
    + apply json_items_not_dict. apply Forall_fmap, Forall_true. done.
  - intros Hl Hd.
    destruct data as [| | | |s|l|d]; simpl;
      try (by rewrite map_record_not_dict).
    + by destruct (Hl l).
    + by destruct (Hd d).
  - intros l -> Hall. simpl. by apply json_items_not_dict.
Qed.

Lemma parse_json_shapes_witness :
  _parse_json (λ _, None) (λ _, true)
    (λ _, Some (VDict {["messages" := VStr "none"]}))
    (mkLogFile (Qc_of_Z 100) (Some ["{}"])) "Gemini CLI" ∅ (Qc_of_Z 0)
  = [].
Proof.
  destruct (parse_json_shapes (λ _, None) (λ _, true)
              (λ _, Some (VDict {["messages" := VStr "none"]}))
              (mkLogFile (Qc_of_Z 100) (Some ["{}"])) "Gemini CLI" ∅
              (Qc_of_Z 0) ["{}"] (VDict {["messages" := VStr "none"]}))
    as (_ & _ & _ & Hbad & _); [done..|].
  apply (Hbad {["messages" := VStr "none"]} (VStr "none")); done.
Defined.

(** X21: a text log gives at most 100 items. [_parse_text] reports
    nothing for a file modified before the cutoff, and otherwise at most
    one item for each of the last 100 lines: an item has the stripped line
    as content, which is not empty, the modification time of the file as
    time stamp, the project ["Log File"] and the role ["system"]. *)
Theorem parse_text_items
    (representable : Qc → bool) (strip : string → string)
    (f : LogFile) (name : string) (cutoff_ts : Qc) :
  let items := _parse_text representable strip f name cutoff_ts in
  length items ≤ 100
  ∧ ((f_mtime f < cutoff_ts)%Qc → items = [])
  ∧ ∀ item, item ∈ items →
      ∃ lines line,
        f_lines f = Some lines
        ∧ line ∈ drop (length lines - 100) lines
        ∧ strip line ≠ EmptyString
        ∧ item = mkActivity name (VStr "Log File") (f_mtime f)
                   (VStr "system") (VStr (strip line)).
Proof.
  intros items. subst items. unfold _parse_text.
  destruct (decide (f_mtime f < cutoff_ts)%Qc) as [Hold|Hnew].
  { split; [simpl; lia|]. split; [done|].
    intros item Hin. by apply elem_of_nil in Hin. }
  destruct (f_lines f) as [lines|].
  2:{ split; [simpl; lia|]. split; [done|].
      intros item Hin. by apply elem_of_nil in Hin. }
  split; [|split; [done|]].
  - pose proof (text_items_length representable strip name (f_mtime f)
                  (drop (length lines - 100) lines)) as Hlen.
    rewrite length_drop in Hlen. lia.
  - intros item Hin.
    apply text_items_elem in Hin as (_ & line & Hline & Hne & ->).
    by exists lines, line.
Qed.

(** ** The configuration: merging the defaults *)

Lemma union_insert_present
    (fc m : gmap string jvalue) (sk : string) (sv : jvalue) :
  is_Some (fc !! sk) → fc ∪ <[sk := sv]> m = fc ∪ m.
Proof.
  intros [v Hv]. apply map_eq. intros k. rewrite !lookup_union.
  destruct (decide (k = sk)) as [->|Hne].
  - rewrite Hv, lookup_insert_eq. by destruct (m !! sk).
  - by rewrite lookup_insert_ne.
Qed.

(** The inner loop on a section that is a dictionary. *)
Lemma merge_section_dict
    (d : gmap string jvalue) (key : string) (fc : gmap string jvalue)
    (items : list (string * jvalue)) :
  d !! key = Some (VDict fc) →
  foldl (λ acc sub, and_then acc (λ cfg, merge_sub_key cfg key sub))
    (Done (VDict d)) items
  = Done (VDict (<[key := VDict (fc ∪ list_to_map items)]> d)).
Proof.
  revert d fc. induction items as [|[sk sv] items IH]; intros d fc Hkey.
  - simpl. rewrite (right_id_L ∅ (∪)). by rewrite insert_id.
  - simpl. unfold merge_sub_key at 2. simpl. rewrite Hkey. simpl.
    destruct (bool_decide (is_Some (fc !! sk))) eqn:Hpresent.
    + apply bool_decide_eq_true_1 in Hpresent.
      rewrite (IH d fc Hkey). by rewrite union_insert_present.
    + apply bool_decide_eq_false_1 in Hpresent.
      rewrite (IH _ (<[sk := sv]> fc) (lookup_insert_eq _ _ _)).
      rewrite insert_insert_eq. do 3 f_equal.
      rewrite <- insert_union_l. f_equal. apply insert_union_r.
      by apply eq_None_not_Some.
Qed.

(** One turn of the outer loop on a configuration that is a dictionary. *)
Lemma merge_key_dict
    (d : gmap string jvalue) (k : string) (dv : default_value) :
  (∀ items v, dv = DDict items → d !! k = Some v → ∃ fc, v = VDict fc) →
  merge_key (VDict d) (k, dv)
  = Done (VDict (<[k := with_defaults (d !! k) dv]> d)).
Proof.
  intros Hdict. unfold merge_key. simpl.
  destruct (d !! k) as [v|] eqn:Hk.
  - rewrite bool_decide_eq_true_2 by (by eexists). simpl.
    destruct dv as [items|other].
    + destruct (Hdict items v eq_refl eq_refl) as [fc ->].
      by apply merge_section_dict.
    + simpl. rewrite insert_id; [done|]. by destruct v.
  - rewrite bool_decide_eq_false_2 by (by intros [? ?]). done.
Qed.

Lemma merge_all_dict
    (items : list (string * default_value)) (d : gmap string jvalue) :
  NoDup items.*1 →
  (∀ k sub v, (k, DDict sub) ∈ items → d !! k = Some v →
              ∃ fc, v = VDict fc) →
  ∃ d',
    foldl (λ acc item, and_then acc (λ cfg, merge_key cfg item))
      (Done (VDict d)) items = Done (VDict d')
    ∧ (∀ k dv, (k, dv) ∈ items → d' !! k = Some (with_defaults (d !! k) dv))
    ∧ (∀ k, k ∉ items.*1 → d' !! k = d !! k).
Proof.
  revert d. induction items as [|[k dv] items IH]; intros d Hnd Hdict.
  { exists d. split; [done|]. split; [|done].
    intros k dv Hin. by apply elem_of_nil in Hin. }
  rewrite fmap_cons in Hnd. apply NoDup_cons in Hnd as [Hk Hnd]. simpl in Hk.
  simpl. rewrite merge_key_dict.
  2:{ intros sub v -> Hv. eapply Hdict; [apply list_elem_of_here | done]. }
  set (d1 := <[k := with_defaults (d !! k) dv]> d).
  assert (∀ j, j ∈ items.*1 → d1 !! j = d !! j) as Hsame.
  { intros j Hj. unfold d1. rewrite lookup_insert_ne; [done|].
    by intros ->. }
  destruct (IH d1 Hnd) as (d' & Hrun & Hdef & Hother).
  { intros j sub v Hj Hv. rewrite Hsame in Hv.
    - eapply Hdict; [by apply list_elem_of_further | done].
    - apply list_elem_of_fmap. by exists (j, DDict sub). }
  exists d'. split; [done|]. split.
  - intros j dv' Hin. apply elem_of_cons in Hin as [[= -> ->]|Hin].
    + rewrite Hother by done. unfold d1. by rewrite lookup_insert_eq.
    + rewrite (Hdef j dv' Hin), Hsame; [done|].
      apply list_elem_of_fmap. by exists (j, dv').
  - intros j Hj. apply not_elem_of_cons in Hj as [Hjk Hj].
    rewrite Hother by done. unfold d1. by rewrite lookup_insert_ne.
Qed.

Lemma default_items_keys : NoDup default_items.*1.
Proof. simpl. distinct_keys. Qed.

(** X22: [load_config] completes the file with the defaults and never
    overrides it. In a new process whose configuration file holds a
    dictionary in which ["auto_ingest"] and ["storage"], where present, are
    dictionaries, the configuration returned holds, for each key of the
    defaults, the default where the file has no value, the entries of the
    file completed with the missing default entries where the default is a
    dictionary, and the value of the file otherwise; every other key is as
    in the file; and the file is left as it is. *)
Theorem load_config_merges (s : Settings) (f : gmap string jvalue) :
  _config s = None →
  config_file s = GoodFile (VDict f) →
  (∀ k sub v, (k, DDict sub) ∈ default_items → f !! k = Some v →
              ∃ fc, v = VDict fc) →
  ∃ d,
    (load_config s).1 = VDict d
    ∧ _config (load_config s).2 = Some (VDict d)
    ∧ config_file (load_config s).2 = GoodFile (VDict f)
    ∧ (∀ k dv, (k, dv) ∈ default_items →
               d !! k = Some (with_defaults (f !! k) dv))
    ∧ (∀ k, k ∉ default_items.*1 → d !! k = f !! k).
Proof.
  intros Hnew Hfile Hdict.
  destruct (merge_all_dict default_items f default_items_keys Hdict)
    as (d & Hrun & Hdef & Hother).
  exists d. unfold load_config. rewrite Hnew, Hfile.
  unfold merge_defaults. rewrite Hrun. simpl. by rewrite ?Hfile.
Qed.

Lemma load_config_merges_witness :
  ∃ d,
    (load_config
       (mkSettings None
          (GoodFile
             (VDict {["auto_ingest" := VDict {["enabled" := VBool false]}]}))
          true)).1 = VDict d
    ∧ d !! "auto_ingest"
      = Some (VDict ({["enabled" := VBool false]}
                     ∪ list_to_map
                         [("enabled", VBool true); ("log_queries", VBool true);
                          ("log_responses", VBool true);
                          ("conversation_timeout_minutes", VInt 30)])).
Proof.
  destruct (load_config_merges
              (mkSettings None
                 (GoodFile
                    (VDict
                       {["auto_ingest" := VDict {["enabled" := VBool false]}]}))
                 true)
              {["auto_ingest" := VDict {["enabled" := VBool false]}]})
    as (d & Hd & _ & _ & Hdef & _).
  - reflexivity.
  - reflexivity.
  - intros k sub v Hin Hv.
    destruct (decide (k = "auto_ingest")) as [->|Hne].
    + rewrite lookup_singleton_eq in Hv. injection Hv as <-. by eexists.
    + by rewrite lookup_singleton_ne in Hv.
  - exists d. split; [exact Hd|].
    rewrite (Hdef "auto_ingest" _ (list_elem_of_here _ _)).
    by rewrite lookup_singleton_eq.
Defined.

(** ** The configuration: what is always there *)

Lemma fold_raise {A B : Type} (g : A → B → outcome A) (err : py_error)
    (l : list B) :
  foldl (λ acc x, and_then acc (λ c, g c x)) (Raise err) l = Raise err.
Proof. induction l as [|x l IH]; [done|]. simpl. apply IH. Qed.

Lemma merge_sub_fold_keys
    (key : string) (items : list (string * jvalue))
    (d : gmap string jvalue) (c : jvalue) :
  foldl (λ acc sub, and_then acc (λ cfg, merge_sub_key cfg key sub))
    (Done (VDict d)) items = Done c →
  ∃ d', c = VDict d' ∧ ∀ j, is_Some (d !! j) → is_Some (d' !! j).
Proof.
  revert d. induction items as [|[sk sv] items IH]; intros d Hrun.
  { injection Hrun as <-. by exists d. }
  simpl in Hrun.
  destruct (merge_sub_key (VDict d) key (sk, sv)) as [c1|err] eqn:Hstep.
  2:{ by rewrite fold_raise in Hrun. }
  assert (∃ d1, c1 = VDict d1 ∧ ∀ j, is_Some (d !! j) → is_Some (d1 !! j))
    as (d1 & -> & Hkeys).
  { unfold merge_sub_key in Hstep. simpl in Hstep.
    destruct (d !! key) as [section|]; [|done]. simpl in Hstep.
    destruct (py_in sk section) as [[|]|]; simpl in Hstep; try done.
    - injection Hstep as <-. by exists d.
    - destruct (py_setitem section sk sv) as [section'|]; [|done].
      simpl in Hstep. injection Hstep as <-. eexists. split; [done|].
      intros j Hj. apply lookup_insert_is_Some'. by right. }
  destruct (IH d1 Hrun) as (d' & -> & Hkeys').
  exists d'. split; [done|]. intros j Hj. by apply Hkeys', Hkeys.
Qed.

Lemma merge_key_keys
    (d : gmap string jvalue) (k : string) (dv : default_value) (c : jvalue) :
  merge_key (VDict d) (k, dv) = Done c →
  ∃ d', c = VDict d' ∧ is_Some (d' !! k)
        ∧ ∀ j, is_Some (d !! j) → is_Some (d' !! j).
Proof.
  unfold merge_key. simpl.
  destruct (bool_decide (is_Some (d !! k))) eqn:Hpresent; simpl.
  - apply bool_decide_eq_true_1 in Hpresent. destruct dv as [items|other].
    + intros Hrun. apply merge_sub_fold_keys in Hrun as (d' & -> & Hkeys).
      exists d'. split; [done|]. split; [by apply Hkeys | done].
    + intros [= <-]. by exists d.
  - intros [= <-]. eexists. split; [done|]. split.
    + rewrite lookup_insert_eq. by eexists.
    + intros j Hj. apply lookup_insert_is_Some'. by right.
Qed.

Lemma merge_fold_keys
    (items : list (string * default_value)) (d : gmap string jvalue)
    (c : jvalue) :
  foldl (λ acc item, and_then acc (λ cfg, merge_key cfg item))
    (Done (VDict d)) items = Done c →
  ∃ d', c = VDict d'
        ∧ (∀ k, k ∈ items.*1 → is_Some (d' !! k))
        ∧ ∀ j, is_Some (d !! j) → is_Some (d' !! j).
Proof.
  revert d. induction items as [|[k dv] items IH]; intros d Hrun.
  { injection Hrun as <-. exists d. split; [done|]. split; [|done].
    intros k Hk. by apply elem_of_nil in Hk. }
  simpl in Hrun.
  destruct (merge_key (VDict d) (k, dv)) as [c1|err] eqn:Hstep.
  2:{ by rewrite fold_raise in Hrun. }
  apply merge_key_keys in Hstep as (d1 & -> & Hk & Hkeys).
  destruct (IH d1 Hrun) as (d' & -> & Hall & Hkeys').
  exists d'. split; [done|]. split.
  - intros j Hj. rewrite fmap_cons in Hj.
    apply elem_of_cons in Hj as [->|Hj]; [by apply Hkeys' | by apply Hall].
  - intros j Hj. by apply Hkeys', Hkeys.
Qed.

(** A value that is not a dictionary cannot be completed. *)
Lemma merge_defaults_not_dict (v : jvalue) :
  (∀ d, v ≠ VDict d) → ∃ err, merge_defaults v = Raise err.
Proof.
  intros Hnot. unfold merge_defaults, default_items.
  destruct v as [| | | |s|l|d]; simpl; try by eexists.
  - unfold merge_key. simpl. destruct (str_in "auto_ingest" s); simpl;
      by eexists.
  - unfold merge_key. simpl. destruct (existsb _ l); simpl; by eexists.
  - by destruct (Hnot d).
Qed.

Lemma with_defaults_again (fv : option jvalue) (dv : default_value) :
  (∀ sub v, dv = DDict sub → fv = Some v → ∃ fc, v = VDict fc) →
  with_defaults (Some (with_defaults fv dv)) dv = with_defaults fv dv
  ∧ ∀ sub, dv = DDict sub → ∃ fc, with_defaults fv dv = VDict fc.
Proof.
  intros Hdict. destruct dv as [items|other].
  - destruct fv as [v|].
    + destruct (Hdict items v eq_refl eq_refl) as [fc ->]. simpl. split.
      * by rewrite <- (assoc_L (∪)), (idemp_L (∪)).
      * intros sub _. by eexists.
    + simpl. split; [by rewrite (idemp_L (∪))|]. intros sub _. by eexists.
  - split; [|done]. destruct fv as [v|]; simpl; [by destruct v|].
    by destruct other.
Qed.

Lemma complete_default : complete DEFAULT_CONFIG.
Proof.
  eexists. split; [reflexivity|]. intros k dv Hin.
  exists (to_jvalue dv).
  assert ((list_to_map
             ((λ item : string * default_value, (item.1, to_jvalue item.2))
                <$> default_items) : gmap string jvalue) !! k
          = Some (to_jvalue dv)) as Hk.
  { apply elem_of_list_to_map_1.
    - rewrite <- list_fmap_compose. apply default_items_keys.
    - apply list_elem_of_fmap. by exists (k, dv). }
  split; [exact Hk|].
  destruct (with_defaults_again None dv) as [Hagain Hdict]; [done|].
  split; [exact Hagain | exact Hdict].
Qed.

Lemma complete_load (s : Settings) :
  _config s = None →
  (∀ v, config_file s = GoodFile v → sections_are_dicts v) →
  complete (load_config s).1.
Proof.
  intros Hnew Hfile. unfold load_config. rewrite Hnew.
  destruct (config_file s) as [| |v] eqn:Hcf; simpl;
    try apply complete_default.
  destruct v as [| | | |x|l|f];
    try (match goal with
         | |- context [merge_defaults ?v] =>
             destruct (merge_defaults_not_dict v) as [err ->];
             [done | apply complete_default]
         end).
  destruct (merge_all_dict default_items f default_items_keys)
    as (d & Hrun & Hdef & _).
  { intros k sub v Hin Hv. by eapply (Hfile _ eq_refl f k sub v). }
  unfold merge_defaults. rewrite Hrun.
  exists d. split; [done|]. intros k dv Hin.
  exists (with_defaults (f !! k) dv). split; [by apply Hdef|].
  apply with_defaults_again. intros sub v -> Hv.
  by eapply (Hfile _ eq_refl f k sub v).
Qed.

Lemma complete_merge (c : jvalue) : complete c → merge_defaults c = Done c.
Proof.
  intros (d & -> & Hall).
  destruct (merge_all_dict default_items d default_items_keys)
    as (d' & Hrun & Hdef & Hother).
  { intros k sub v Hin Hv. destruct (Hall k _ Hin) as (v' & Hv' & _ & Hd).
    rewrite Hv in Hv'. injection Hv' as <-. by eapply Hd. }
  unfold merge_defaults. rewrite Hrun. do 2 f_equal. apply map_eq. intros k.
  destruct (decide (k ∈ default_items.*1)) as [Hk|Hk].
  - apply list_elem_of_fmap in Hk as ([k' dv] & -> & Hin). simpl.
    destruct (Hall k' dv Hin) as (v & Hv & Hagain & _).
    by rewrite (Hdef k' dv Hin), Hv, Hagain.
  - by apply Hother.
Qed.

(** X23: [load_config] always gives a dictionary with the keys of the
    defaults, reads the file once, and falls back on the defaults. In a
    new process the value returned is a dictionary that holds every key of
    [DEFAULT_CONFIG]; it is kept in [_config], so that a second call
    returns it and touches nothing. A file that cannot be read or does not
    hold a dictionary gives the defaults; a file that exists is never
    written; a missing file gives the defaults and is created with them
    when it can be written. *)
Theorem load_config_total (s : Settings) :
  let c := (load_config s).1 in
  let s' := (load_config s).2 in
  _config s = None →
  (∃ d, c = VDict d ∧ ∀ k, k ∈ default_items.*1 → is_Some (d !! k))
  ∧ load_config s' = (c, s')
  ∧ (config_file s = BadFile
     ∨ (∃ v, config_file s = GoodFile v ∧ ∀ d, v ≠ VDict d) →
     c = DEFAULT_CONFIG)
  ∧ (config_file s ≠ NoFile → config_file s' = config_file s)
  ∧ (config_file s = NoFile →
     c = DEFAULT_CONFIG
     ∧ config_file s'
       = if config_writable s then GoodFile DEFAULT_CONFIG else NoFile).
Proof.
  intros c s' Hnew. subst c s'.
  assert (∃ d, DEFAULT_CONFIG = VDict d
               ∧ ∀ k, k ∈ default_items.*1 → is_Some (d !! k)) as Hdefault.
  { destruct complete_default as (d & Hd & Hall). exists d.
    split; [done|]. intros k Hk.
    apply list_elem_of_fmap in Hk as ([k' dv] & -> & Hin).
    destruct (Hall k' dv Hin) as (v & Hv & _). by eexists. }
  split; [|split; [|split; [|split]]].
  - unfold load_config. rewrite Hnew.
    destruct (config_file s) as [| |v]; simpl; try exact Hdefault.
    destruct (merge_defaults v) as [c|err] eqn:Hrun; [|exact Hdefault].
    destruct v as [| | | |x|l|f];
      try (match type of Hrun with
           | merge_defaults ?v = _ =>
               destruct (merge_defaults_not_dict v) as [err' Herr];
               [|rewrite Herr in Hrun]; done
           end).
    apply merge_fold_keys in Hrun as (d & -> & Hall & _). by exists d.
  - unfold load_config. rewrite Hnew.
    by destruct (config_file s) as [| |v].
  - unfold load_config. rewrite Hnew.
    intros [->|(v & -> & Hnot)]; [done|]. simpl.
    by destruct (merge_defaults_not_dict v Hnot) as [err ->].
  - unfold load_config. rewrite Hnew.
    by destruct (config_file s) as [| |v].
  - unfold load_config. rewrite Hnew. by intros ->.
Qed.

Lemma load_config_total_witness :
  (load_config (mkSettings None NoFile true)).1 = DEFAULT_CONFIG
  ∧ config_file (load_config (mkSettings None NoFile true)).2
    = GoodFile DEFAULT_CONFIG.
Proof.
  destruct (load_config_total (mkSettings None NoFile true))
    as (_ & _ & _ & _ & Hnew); [reflexivity|].
  apply Hnew. reflexivity.
Defined.

(** ** The configuration: settings that persist *)

Lemma auto_ingest_default (dv : default_value) :
  ("auto_ingest", dv) ∈ default_items → ∃ sub, dv = DDict sub.
Proof.
  unfold default_items. intros Hin.
  apply elem_of_cons in Hin as [[= ->]|Hin]; [by eexists|].
  apply elem_of_cons in Hin as [[=]|Hin].
  apply elem_of_cons in Hin as [[=]|Hin].
  by apply elem_of_nil in Hin.
Qed.

(** Setting a flag of a complete configuration. *)
Lemma complete_set_flag (c : jvalue) (key : string) (value : bool) :
  complete c →
  ∃ c',
    set_flag c key value = Done c'
    ∧ complete c'
    ∧ auto_ingest_flag c' key = Done (VBool value)
    ∧ ∀ key', key' ≠ key → auto_ingest_flag c' key' = auto_ingest_flag c key'.
Proof.
  intros (d & -> & Hall).
  destruct (Hall "auto_ingest" _ (list_elem_of_here _ _))
    as (v & Hv & Hagain & Hdict).
  destruct (Hdict _ eq_refl) as [fc ->].
  eexists. split.
  { unfold set_flag. simpl. rewrite Hv. simpl. reflexivity. }
  split; [|split].
  - eexists. split; [reflexivity|]. intros k dv Hin.
    destruct (decide (k = "auto_ingest")) as [->|Hne].
    + rewrite lookup_insert_eq. eexists. split; [reflexivity|].
      destruct (auto_ingest_default dv Hin) as [sub ->].
      destruct (Hall "auto_ingest" _ Hin) as (v' & Hv' & Hagain' & _).
      rewrite Hv in Hv'. injection Hv' as <-. simpl in Hagain'.
      injection Hagain' as Hunion. split.
      * simpl. by rewrite <- insert_union_l, Hunion.
      * intros sub' _. by eexists.
    + rewrite lookup_insert_ne by done. by apply Hall.
  - unfold auto_ingest_flag. simpl.
    by rewrite lookup_insert_eq; simpl; rewrite lookup_insert_eq.
  - intros key' Hne. unfold auto_ingest_flag. simpl.
    rewrite lookup_insert_eq, Hv. simpl. by rewrite lookup_insert_ne.
Qed.

(** X24: the settings of [configure_auto_ingest] persist. In a new
    process whose configuration file can be written and, where it holds a
    dictionary, has dictionaries under ["auto_ingest"] and ["storage"], the
    call succeeds; the three flags then read as they were given; the file
    holds the configuration in memory; and a process started afresh loads
    that same configuration. *)
Theorem configure_auto_ingest_persists
    (s : Settings) (enabled log_queries log_responses : bool) :
  _config s = None →
  config_writable s = true →
  (∀ v, config_file s = GoodFile v → sections_are_dicts v) →
  ∃ c,
    configure_auto_ingest s enabled log_queries log_responses
    = (Done (), mkSettings (Some c) (GoodFile c) true)
    ∧ auto_ingest_flag c "enabled" = Done (VBool enabled)
    ∧ auto_ingest_flag c "log_queries" = Done (VBool log_queries)
    ∧ auto_ingest_flag c "log_responses" = Done (VBool log_responses)
    ∧ (load_config (restart_settings (mkSettings (Some c) (GoodFile c) true))).1
      = c.
Proof.
  intros Hnew Hwrite Hfile.
  pose proof (complete_load s Hnew Hfile) as Hc0.
  unfold configure_auto_ingest.
  destruct (load_config s) as [c0 s0] eqn:Hload. simpl in Hc0.
  assert (config_writable s0 = true) as Hwrite0.
  { unfold load_config in Hload. rewrite Hnew in Hload.
    destruct (config_file s); injection Hload as _ <-; done. }
  destruct (complete_set_flag c0 "enabled" enabled Hc0)
    as (c1 & -> & Hc1 & He1 & _).
  destruct (complete_set_flag c1 "log_queries" log_queries Hc1)
    as (c2 & -> & Hc2 & Hq2 & Hother2).
  destruct (complete_set_flag c2 "log_responses" log_responses Hc2)
    as (c3 & -> & Hc3 & Hr3 & Hother3).
  exists c3. unfold save_config. simpl. rewrite Hwrite0.
  split; [done|]. split; [|split; [|split; [done|]]].
  - by rewrite Hother3, Hother2.
  - by rewrite Hother3.
  - unfold load_config, restart_settings. simpl.
    by rewrite (complete_merge c3 Hc3).
Qed.

Lemma configure_auto_ingest_persists_witness :
  ∃ c,
    configure_auto_ingest (mkSettings None NoFile true) false true true
    = (Done (), mkSettings (Some c) (GoodFile c) true)
    ∧ auto_ingest_flag c "enabled" = Done (VBool false)
    ∧ auto_ingest_flag c "log_queries" = Done (VBool true)
    ∧ auto_ingest_flag c "log_responses" = Done (VBool true)
    ∧ (load_config (restart_settings (mkSettings (Some c) (GoodFile c) true))).1
      = c.
Proof.
  apply (configure_auto_ingest_persists (mkSettings None NoFile true) false
           true true); done.
Defined.

(** ** Automatic logging *)

(** Whatever its outcome, [ingest_interaction] leaves the rows there were
    and the knowledge graph, and adds at most the row it was given. *)
Lemma ingest_interaction_appends
    {np : Numpy} (embed embed_later : string → option vec) (e : Engine)
    (now now_vec : Z)
    (cid role content : string) :
  let e' :=
    (ingest_interaction embed embed_later e now now_vec cid role content).2 in
  knowledge_nodes e' = knowledge_nodes e
  ∧ knowledge_edges e' = knowledge_edges e
  ∧ ∃ rows,
      interactions e' = interactions e ++ rows
      ∧ (rows = []
         ∨ ∃ id score, rows = [mkInteraction id now role content score cid]).
Proof.
  intros e'. subst e'.
  destruct (ingest_interaction_cases embed embed_later e now now_vec cid role
              content) as [[err ->]|(score & _ & _ & [-> | (v & _ & ->)])];
    simpl; (split; [done|]); (split; [done|]).
  - exists []. split; [by rewrite app_nil_r | by left].
  - eexists. split; [done|]. right. by eexists _, _.
  - eexists. split; [done|]. right. by eexists _, _.
Qed.

Lemma given_Some (text : option string) :
  given text = true →
  ∃ content, text = Some content ∧ content ≠ EmptyString
             ∧ default EmptyString text = content.
Proof.
  destruct text as [[|c content]|]; try done. intros _. by eexists.
Qed.

Lemma log_if_spec
    {np : Numpy} (embed embed_later : string → option vec) (now now_vec : Z)
    (config : jvalue) (flag : string) (text : option string)
    (conv_id role : string) (p : Process) :
  let out :=
    log_if embed embed_later now now_vec config flag text conv_id role p in
  settings out.2 = settings p
  ∧ server out.2 = server p
  ∧ engine_set out.2 = engine_set p
  ∧ knowledge_nodes (engine out.2) = knowledge_nodes (engine p)
  ∧ knowledge_edges (engine out.2) = knowledge_edges (engine p)
  ∧ (∃ rows,
       interactions (engine out.2) = interactions (engine p) ++ rows
       ∧ (rows = []
          ∨ ∃ id score content,
              text = Some content ∧ content ≠ EmptyString
              ∧ rows = [mkInteraction id now role content score conv_id]))
  ∧ ((∃ v, auto_ingest_flag config flag = Done v) → out.1 = Done ()).
Proof.
  intros out. subst out. unfold log_if.
  assert (∃ rows : list Interaction,
            interactions (engine p) = interactions (engine p) ++ rows
            ∧ (rows = []
               ∨ ∃ id score content,
                   text = Some content ∧ content ≠ EmptyString
                   ∧ rows = [mkInteraction id now role content score conv_id]))
    as Hnone.
  { exists []. split; [by rewrite app_nil_r | by left]. }
  destruct (given text) eqn:Hgiven; [|by repeat split].
  destruct (auto_ingest_flag config flag) as [wanted|err];
    [|repeat split; try done; by intros [v [=]]].
  destruct (truthy wanted); [|by repeat split]. simpl.
  apply given_Some in Hgiven as (content & -> & Hne & Hcontent).
  simpl in *.
  destruct (ingest_interaction_appends embed embed_later (engine p) now
              now_vec conv_id role content) as (Hn & He & rows & Hrows & Hrow).
  repeat split; try done.
  exists rows. split; [done|].
  destruct Hrow as [->|(id & score & ->)]; [by left|].
  right. by exists id, score, content.
Qed.

Lemma auto_ingest_flag_complete (config : jvalue) (flag : string) :
  complete config → ∃ v, auto_ingest_flag config flag = Done v.
Proof.
  intros (d & -> & Hall).
  destruct (Hall "auto_ingest" _ (list_elem_of_here _ _))
    as (v & Hv & _ & Hdict).
  destruct (Hdict _ eq_refl) as [fc ->].
  unfold auto_ingest_flag. simpl. rewrite Hv. simpl. by eexists.
Qed.

Section AutoLogFacts.

Context {np : Numpy}.

Variable embed_q embed_q_later embed_r embed_r_later : string → option vec.
Variable now_q now_q_vec now_r now_r_vec : Z.
Variable fresh : string.

(** X25: automatic logging only adds, and at most two rows. Whatever
    its outcome, [auto_log_interaction] leaves the rows there were and the
    knowledge graph; the rows it adds are at most one for the query, with
    role ["user"], followed by at most one for the response, with role
    ["assistant"], each with the text given, which is not empty, and all in
    one conversation. When a conversation identifier is given, that is the
    conversation, and the registry is not touched. *)
Theorem auto_log_interaction_appends
    (p : Process) (query_text response_text conversation_id : option string) :
  let out :=
    auto_log_interaction embed_q embed_q_later embed_r embed_r_later now_q
      now_q_vec now_r now_r_vec fresh p query_text response_text
      conversation_id in
  ∃ rows conv,
    interactions (engine out.2) = interactions (engine p) ++ rows
    ∧ i_role <$> rows `sublist_of` ["user"; "assistant"]
    ∧ Forall (λ i, i_conversation_id i = conv
                   ∧ i_content i ≠ EmptyString
                   ∧ ((i_role i = "user" ∧ query_text = Some (i_content i))
                      ∨ (i_role i = "assistant"
                         ∧ response_text = Some (i_content i)))) rows
    ∧ knowledge_nodes (engine out.2) = knowledge_nodes (engine p)
    ∧ knowledge_edges (engine out.2) = knowledge_edges (engine p)
    ∧ (given conversation_id = true →
       conversation_id = Some conv ∧ server out.2 = server p).
Proof.
  intros out. subst out.
  set (conv := if given conversation_id
               then default EmptyString conversation_id
               else (get_conversation_id fresh (server p)).1).
  assert (given conversation_id = true → conversation_id = Some conv)
    as Hconv.
  { intros Hg. unfold conv. rewrite Hg.
    by apply given_Some in Hg as (c & -> & _ & _). }
  assert (∀ p' : Process,
            engine p' = engine p → server p' = server p →
            ∃ rows conv,
              interactions (engine p') = interactions (engine p) ++ rows
              ∧ i_role <$> rows `sublist_of` ["user"; "assistant"]
              ∧ Forall (λ i, i_conversation_id i = conv
                             ∧ i_content i ≠ EmptyString
                             ∧ ((i_role i = "user"
                                 ∧ query_text = Some (i_content i))
                                ∨ (i_role i = "assistant"
                                   ∧ response_text = Some (i_content i))))
                  rows
              ∧ knowledge_nodes (engine p') = knowledge_nodes (engine p)
              ∧ knowledge_edges (engine p') = knowledge_edges (engine p)
              ∧ (given conversation_id = true →
                 conversation_id = Some conv ∧ server p' = server p))
    as Hnothing.
  { intros p' He Hs. exists [], conv. rewrite He, app_nil_r.
    split; [done|]. split; [simpl; repeat constructor|].
    split; [constructor|]. split; [done|]. split; [done|].
    intros Hg. split; [by apply Hconv | done]. }
  unfold auto_log_interaction.
  destruct (load_config (settings p)) as [config s].
  destruct (auto_ingest_flag config "enabled") as [enabled|err];
    [|by apply Hnothing].
  destruct (truthy enabled); [|by apply Hnothing].
  set (p0 := mkProcess s (server p) (engine_set p) (engine p)
                  (store_opens p)).
  assert (∃ p1 o, get_engine p0 = (o, p1)
                  ∧ engine p1 = engine p ∧ server p1 = server p)
    as (p1 & o & -> & He1 & Hs1).
  { unfold get_engine. destruct (engine_set p0); [by eexists _, _|].
    destruct (load_config (settings p0)) as [c' s'].
    destruct (engine_base_path c'); [|by eexists _, _].
    destruct (store_opens p0); by eexists _, _. }
  destruct o as [[]|err]; [|by apply Hnothing].
  assert (∃ srv,
            (if given conversation_id
             then (default EmptyString conversation_id, server p1)
             else get_conversation_id fresh (server p1)) = (conv, srv)
            ∧ (given conversation_id = true → srv = server p))
    as (srv & -> & Hsrv).
  { unfold conv. rewrite Hs1. destruct (given conversation_id).
    - by eexists.
    - destruct (get_conversation_id fresh (server p)) as [c srv'].
      by eexists. }
  set (p2 := mkProcess (settings p1) srv (engine_set p1) (engine p1)
                  (store_opens p1)).
  pose proof (log_if_spec embed_q embed_q_later now_q now_q_vec config
                "log_queries" query_text conv "user" p2)
    as (_ & Hsrv3 & _ & Hn3 & Hg3 & (rows1 & Hrows1 & Hrow1) & _).
  destruct (log_if embed_q embed_q_later now_q now_q_vec config
              "log_queries" query_text conv "user" p2) as [o3 p3].
  simpl in Hsrv3, Hn3, Hg3, Hrows1.
  assert (∃ p4,
            (match o3 with
             | Done _ =>
                 log_if embed_r embed_r_later now_r now_r_vec config
                   "log_responses" response_text conv "assistant" p3
             | Raise err => (Raise err, p3)
             end).2 = p4
            ∧ server p4 = srv
            ∧ knowledge_nodes (engine p4) = knowledge_nodes (engine p)
            ∧ knowledge_edges (engine p4) = knowledge_edges (engine p)
            ∧ ∃ rows2,
                interactions (engine p4)
                = interactions (engine p) ++ rows1 ++ rows2
                ∧ (rows2 = []
                   ∨ ∃ id score content,
                       response_text = Some content
                       ∧ content ≠ EmptyString
                       ∧ rows2 = [mkInteraction id now_r "assistant" content
                                    score conv]))
    as (p4 & Hp4 & Hsrv4 & Hn4 & Hg4 & rows2 & Hrows2 & Hrow2).
  { destruct o3 as [[]|err].
    - pose proof (log_if_spec embed_r embed_r_later now_r now_r_vec config
                    "log_responses" response_text conv "assistant" p3)
        as (_ & Hsrv4 & _ & Hn4 & Hg4 & (rows2 & Hrows2 & Hrow2) & _).
      eexists. split; [reflexivity|].
      split; [by rewrite Hsrv4|].
      split; [by rewrite Hn4, Hn3, He1|].
      split; [by rewrite Hg4, Hg3, He1|].
      exists rows2. split; [|done].
      by rewrite Hrows2, Hrows1, He1, <- app_assoc.
    - exists p3. split; [done|]. split; [done|].
      split; [by rewrite Hn3, He1|]. split; [by rewrite Hg3, He1|].
      exists []. split; [|by left].
      by rewrite Hrows1, He1, app_nil_r. }
  match goal with
  | |- context [interactions (engine ?x.2)] =>
      replace x.2 with p4 by (by rewrite <- Hp4; destruct o3 as [[]|])
  end.
  exists (rows1 ++ rows2), conv. split; [done|].
  split; [|split; [|split; [done|split; [done|]]]].
  - rewrite fmap_app.
    destruct Hrow1 as [->|(id1 & s1 & c1 & _ & _ & ->)];
      destruct Hrow2 as [->|(id2 & s2 & c2 & _ & _ & ->)];
      simpl; repeat constructor.
  - apply Forall_app. split.
    + destruct Hrow1 as [->|(id1 & s1 & c1 & Hq & Hne & ->)];
        constructor; [|constructor]. simpl. split; [done|].
      split; [done|]. by left.
    + destruct Hrow2 as [->|(id2 & s2 & c2 & Hr & Hne & ->)];
        constructor; [|constructor]. simpl. split; [done|].
      split; [done|]. by right.
  - intros Hg. split; [by apply Hconv|]. rewrite Hsrv4. by apply Hsrv.
Qed.

(** X26: the switch and the safety of automatic logging. When the flag
    ["enabled"] of the configuration is false, nothing is logged: the store
    and the registry are as before and no conversation identifier is made.
    When a conversation identifier is given, so that the registry is not
    read, the configuration is complete, and the engine is there already or
    can be made (the base path is a string and the constructor succeeds),
    the call returns without raising, whatever the embedding model and the
    commits of the rows do. *)
Theorem auto_log_interaction_safe
    (p : Process) (query_text response_text conversation_id : option string) :
  let loaded := load_config (settings p) in
  let out :=
    auto_log_interaction embed_q embed_q_later embed_r embed_r_later now_q
      now_q_vec now_r now_r_vec fresh p query_text response_text
      conversation_id in
  (∀ flag, auto_ingest_flag loaded.1 "enabled" = Done flag →
           truthy flag = false →
           out = (Done (),
                  mkProcess loaded.2 (server p) (engine_set p) (engine p)
                    (store_opens p)))
  ∧ (complete loaded.1 →
     given conversation_id = true →
     engine_set p = true
     ∨ ((∃ path, engine_base_path loaded.1 = Done path)
        ∧ store_opens p = true) →
     out.1 = Done ()).
Proof.
  intros loaded out. subst loaded out. unfold auto_log_interaction.
  destruct (load_config (settings p)) as [config s] eqn:Hload. simpl.
  split.
  - intros flag -> Hoff. by rewrite Hoff.
  - intros Hcomplete Hgiven Hengine.
    destruct (auto_ingest_flag_complete config "enabled" Hcomplete)
      as [enabled ->].
    destruct (truthy enabled); [|done].
    set (p0 := mkProcess s (server p) (engine_set p) (engine p)
                  (store_opens p)).
    assert (_config s = Some config) as Hcached.
    { unfold load_config in Hload.
      destruct (_config (settings p)) as [c|] eqn:Hc.
      - injection Hload as <- <-. done.
      - destruct (config_file (settings p));
          injection Hload as <- <-; done. }
    assert (∃ p1, get_engine p0 = (Done (), p1)) as [p1 ->].
    { unfold get_engine. simpl.
      destruct (engine_set p) eqn:Hset; [by eexists|].
      unfold load_config. rewrite Hcached.
      destruct Hengine as [?|[[path ->] ->]]; [done | by eexists]. }
    rewrite Hgiven.
    set (conv := default EmptyString conversation_id).
    set (srv := server p1).
    set (p2 := mkProcess (settings p1) srv (engine_set p1) (engine p1)
                  (store_opens p1)).
    pose proof (log_if_spec embed_q embed_q_later now_q now_q_vec config
                  "log_queries" query_text conv "user" p2)
      as (_ & _ & _ & _ & _ & _ & Hdone).
    destruct (log_if embed_q embed_q_later now_q now_q_vec config
                "log_queries" query_text conv "user" p2) as [o3 p3].
    simpl in Hdone.
    rewrite (Hdone (auto_ingest_flag_complete config "log_queries" Hcomplete)).
    by apply log_if_spec, auto_ingest_flag_complete.
Qed.

End AutoLogFacts.

(** ** Logging to the conversation of the project *)

Lemma get_engine_keeps (p : Process) :
  server (get_engine p).2 = server p ∧ engine (get_engine p).2 = engine p.
Proof.
  unfold get_engine. destruct (engine_set p); [done|].
  destruct (load_config (settings p)) as [config s].
  destruct (engine_base_path config); [|done].
  by destruct (store_opens p).
Qed.

Lemma log_interaction_rows
    {np : Numpy} (embed embed_later : string → option vec) (now now_vec : Z)
    (fresh : string) (p : Process) (content role : string) :
  let out :=
    log_interaction embed embed_later now now_vec fresh p content role in
  server out.2 = (get_conversation_id fresh (server p)).2
  ∧ knowledge_nodes (engine out.2) = knowledge_nodes (engine p)
  ∧ knowledge_edges (engine out.2) = knowledge_edges (engine p)
  ∧ ∃ rows,
      interactions (engine out.2) = interactions (engine p) ++ rows
      ∧ Forall (λ i, i_conversation_id i
                     = (get_conversation_id fresh (server p)).1
                     ∧ i_role i = role ∧ i_content i = content) rows.
Proof.
  intros out. subst out. unfold log_interaction.
  destruct (get_conversation_id fresh (server p)) as [conv_id srv]. simpl.
  set (p0 := mkProcess (settings p) srv (engine_set p) (engine p)
                  (store_opens p)).
  destruct (get_engine_keeps p0) as [Hs He].
  destruct (get_engine p0) as [[[]|err] p1]; simpl in *.
  - destruct (ingest_interaction_appends embed embed_later (engine p1) now
                now_vec conv_id role content) as (Hn & Hg & rows & Hrows & Hrow).
    destruct (ingest_interaction embed embed_later (engine p1) now now_vec
                conv_id role content) as [r e]. simpl in *.
    rewrite He in Hn, Hg, Hrows.
    split; [done|]. split; [done|]. split; [done|].
    exists rows. split; [done|].
    destruct Hrow as [->|(id & score & ->)]; [constructor|].
    by repeat constructor.
  - split; [done|]. rewrite He. split; [done|]. split; [done|].
    exists []. split; [by rewrite app_nil_r | constructor].
Qed.

(** X27: what is logged from a project goes to the conversation of the
    project. The rows two calls of [log_interaction] add are all in the
    conversation [get_conversation_id] gave at the first call, and the rows
    and the knowledge graph there were are kept. When the first process had
    no identifier yet, the same holds when the second call is made in a
    process started afresh in the same directory. *)
Theorem log_interaction_conversation
    {np : Numpy} (embed1 later1 embed2 later2 : string → option vec)
    (now1 vec1 now2 vec2 : Z) (fresh1 fresh2 : string)
    (p : Process) (content1 role1 content2 role2 : string) :
  let cid := (get_conversation_id fresh1 (server p)).1 in
  let first :=
    log_interaction embed1 later1 now1 vec1 fresh1 p content1 role1 in
  let again :=
    log_interaction embed2 later2 now2 vec2 fresh2 first.2 content2 role2 in
  let later :=
    log_interaction embed2 later2 now2 vec2 fresh2 (restart_process first.2)
      content2 role2 in
  (∃ rows,
     interactions (engine again.2) = interactions (engine p) ++ rows
     ∧ Forall (λ i, i_conversation_id i = cid) rows
     ∧ length rows ≤ 2)
  ∧ (current_conversation_id (server p) = None →
     ∃ rows,
       interactions (engine later.2) = interactions (engine p) ++ rows
       ∧ Forall (λ i, i_conversation_id i = cid) rows
       ∧ length rows ≤ 2).
Proof.
  intros cid first again later. subst cid first again later.
  pose proof (log_interaction_rows embed1 later1 now1 vec1 fresh1 p content1
                role1) as (Hsrv & _ & _ & rows1 & Hrows1 & Hall1).
  set (first := log_interaction embed1 later1 now1 vec1 fresh1 p content1
                  role1) in *.
  simpl in Hsrv, Hrows1.
  assert (length rows1 ≤ 1) as Hlen1.
  { unfold first, log_interaction in Hrows1.
    destruct (get_conversation_id fresh1 (server p)) as [c srv].
    set (p0 := mkProcess (settings p) srv (engine_set p) (engine p)
                  (store_opens p)) in *.
    destruct (get_engine_keeps p0) as [_ He].
    destruct (get_engine p0) as [[[]|err] p1]; simpl in *.
    - destruct (ingest_interaction_appends embed1 later1 (engine p1) now1
                  vec1 c role1 content1) as (_ & _ & rows & Hrows & Hrow).
      destruct (ingest_interaction embed1 later1 (engine p1) now1 vec1 c
                  role1 content1) as [r e]. simpl in *.
      rewrite He, Hrows1 in Hrows. apply app_inv_head in Hrows. subst rows.
      destruct Hrow as [->|(id & score & ->)]; simpl; lia.
    - rewrite He in Hrows1.
      rewrite <- (app_nil_r (interactions (engine p))) in Hrows1 at 1.
      apply app_inv_head in Hrows1. subst rows1. simpl. lia. }
  assert (∀ p' : Process,
            engine p' = engine first.2 →
            (get_conversation_id fresh2 (server p')).1
            = (get_conversation_id fresh1 (server p)).1 →
            ∃ rows,
              interactions
                (engine
                   (log_interaction embed2 later2 now2 vec2 fresh2 p'
                      content2 role2).2)
              = interactions (engine p) ++ rows
              ∧ Forall (λ i, i_conversation_id i
                             = (get_conversation_id fresh1 (server p)).1)
                  rows
              ∧ length rows ≤ 2) as Hsecond.
  { intros p' He Hcid.
    pose proof (log_interaction_rows embed2 later2 now2 vec2 fresh2 p'
                  content2 role2) as (_ & _ & _ & rows2 & Hrows2 & Hall2).
    simpl in Hrows2. rewrite Hcid in Hall2.
    assert (length rows2 ≤ 1) as Hlen2.
    { unfold log_interaction in Hrows2.
      destruct (get_conversation_id fresh2 (server p')) as [c srv].
      set (p0 := mkProcess (settings p') srv (engine_set p') (engine p')
                    (store_opens p')) in *.
      destruct (get_engine_keeps p0) as [_ He0].
      destruct (get_engine p0) as [[[]|err] p1]; simpl in *.
      - destruct (ingest_interaction_appends embed2 later2 (engine p1) now2
                    vec2 c role2 content2) as (_ & _ & rows & Hrows & Hrow).
        destruct (ingest_interaction embed2 later2 (engine p1) now2 vec2 c
                    role2 content2) as [r e]. simpl in *.
        rewrite He0, Hrows2 in Hrows. apply app_inv_head in Hrows.
        subst rows. destruct Hrow as [->|(id & score & ->)]; simpl; lia.
      - rewrite He0 in Hrows2.
        rewrite <- (app_nil_r (interactions (engine p'))) in Hrows2 at 1.
        apply app_inv_head in Hrows2. subst rows2. simpl. lia. }
    exists (rows1 ++ rows2). rewrite Hrows2, He, Hrows1, <- app_assoc.
    split; [done|]. split.
    - apply Forall_app. split.
      + eapply Forall_impl; [exact Hall1|]. simpl. tauto.
      + eapply Forall_impl; [exact Hall2|]. simpl. tauto.
    - rewrite length_app. lia. }
  split.
  - apply Hsecond; [done|]. rewrite Hsrv.
    pose proof (get_conversation_id_sets fresh1 (server p)) as Hset.
    unfold get_conversation_id at 1. by rewrite Hset.
  - intros Hnone. apply Hsecond; [done|]. simpl. rewrite Hsrv.
    pose proof (get_conversation_id_registered fresh1 (server p) Hnone)
      as Hreg.
    unfold get_conversation_id at 1. simpl.
    unfold load_project_registry, restart in *. simpl in *.
    by rewrite Hreg.
Qed.

(** ** cli.py: the configuration of the client *)

(** X28: [update_json_config] adds its entry and keeps the others. On a
    file that holds a dictionary whose ["mcpServers"], where present, is a
    dictionary, the call writes the same dictionary with the entry
    ["openmemx"] under ["mcpServers"] set to the value given: every other
    key and every other server are as before, and a second call changes
    nothing. A missing file, and a file that is not JSON, is replaced by a
    dictionary with that one entry; a file that cannot be written is left
    as it is. *)
Theorem update_json_config_keeps_others
    (d : gmap string jvalue) (key_path : string) (config_val : jvalue) :
  (∀ v, d !! "mcpServers" = Some v → ∃ servers, v = VDict servers) →
  let servers :=
    match d !! "mcpServers" with
    | Some (VDict sv) => sv
    | _ => ∅
    end in
  let d' :=
    <["mcpServers" := VDict (<["openmemx" := config_val]> servers)]> d in
  let only :=
    VDict {["mcpServers" := VDict {["openmemx" := config_val]}]} in
  update_json_config (GoodFile (VDict d)) true key_path config_val
  = (Done (), GoodFile (VDict d'))
  ∧ (∀ k, k ≠ "mcpServers" → d' !! k = d !! k)
  ∧ (∀ name, name ≠ "openmemx" →
             (<["openmemx" := config_val]> servers) !! name
             = servers !! name)
  ∧ update_json_config (GoodFile (VDict d')) true key_path config_val
    = (Done (), GoodFile (VDict d'))
  ∧ update_json_config NoFile true key_path config_val
    = (Done (), GoodFile only)
  ∧ update_json_config BadFile true key_path config_val
    = (Done (), GoodFile only)
  ∧ (update_json_config (GoodFile (VDict d)) false key_path config_val).2
    = GoodFile (VDict d).
Proof.
  intros Hdict servers d' only. subst servers d' only.
  assert (∀ w : bool,
            update_json_config (GoodFile (VDict d)) w key_path config_val
            = if w
              then (Done (),
                    GoodFile
                      (VDict
                         (<["mcpServers" :=
                              VDict (<["openmemx" := config_val]>
                                       match d !! "mcpServers" with
                                       | Some (VDict sv) => sv
                                       | _ => ∅
                                       end)]> d)))
              else (Raise OSError, GoodFile (VDict d))) as Hrun.
  { intros w. unfold update_json_config. simpl.
    destruct (d !! "mcpServers") as [v|] eqn:Hv.
    - destruct (Hdict v eq_refl) as [sv ->].
      rewrite bool_decide_eq_true_2 by (by eexists). simpl. by rewrite Hv.
    - rewrite bool_decide_eq_false_2 by (by intros [? ?]). simpl.
      rewrite lookup_insert_eq. simpl. by rewrite insert_insert_eq. }
  split; [by rewrite Hrun|].
  split; [by intros k Hk; rewrite lookup_insert_ne|].
  split; [by intros name Hname; rewrite lookup_insert_ne|].
  split.
  - unfold update_json_config. simpl. rewrite lookup_insert_eq.
    rewrite bool_decide_eq_true_2 by (by eexists). simpl.
    rewrite lookup_insert_eq. simpl.
    by rewrite !insert_insert_eq.
  - split; [|split]; [done | done | by rewrite Hrun].
Qed.

Lemma update_json_config_keeps_others_witness :
  update_json_config
    (GoodFile (VDict {["mcpServers" := VDict {["other" := VStr "x"]}]}))
    true "openmemx" (VStr "cmd")
  = (Done (),
     GoodFile
       (VDict
          (<["mcpServers" :=
               VDict (<["openmemx" := VStr "cmd"]> {["other" := VStr "x"]})]>
             {["mcpServers" := VDict {["other" := VStr "x"]}]}))).
Proof.
  destruct (update_json_config_keeps_others
              {["mcpServers" := VDict {["other" := VStr "x"]}]} "openmemx"
              (VStr "cmd")) as [Hrun _].
  - intros v Hv. rewrite lookup_singleton_eq in Hv. injection Hv as <-.
    by eexists.
  - exact Hrun.
Defined.

(** ** cli.py: migration *)

Lemma encode_all (embed : string → option vec) (h : list string) :
  (∀ c, is_Some (embed c)) →
  ∃ hs, encode embed h = Some hs ∧ length hs = length h.
Proof.
  intros Htotal. induction h as [|c h (hs & Hhs & Hlen)].
  - by exists [].
  - destruct (Htotal c) as [v Hv]. exists (v :: hs).
    rewrite encode_cons, Hv, Hhs. split; [done|]. simpl. by rewrite Hlen.
Qed.

(** A model that embeds every text gives every content a score. *)
Lemma calculate_surprise_total
    {np : Numpy} (embed : string → option vec) (c : string)
    (h : list string) :
  (∀ c, is_Some (embed c)) → ∃ s, calculate_surprise embed c h = Ok s.
Proof.
  intros Htotal. destruct (decide (h = [])) as [->|Hne]; [by eexists|].
  destruct (Htotal c) as [v Hv].
  destruct (encode_all embed h Htotal) as (hs & Hhs & Hlen).
  rewrite (calculate_surprise_unfold embed c h v hs Hne Hv Hhs).
  destruct (max_is_Some (map (similarity v) hs)) as [m ->]; [|by eexists].
  intros Hnil. apply map_eq_nil in Hnil. subst hs. by destruct h.
Qed.

(** With a model that embeds every text, and scores that are never
    [nan], [ingest_interaction] returns an identity. *)
Lemma ingest_interaction_total
    {np : Numpy} (embed embed_later : string → option vec) (e : Engine)
    (now now_vec : Z) (cid role content : string) :
  (∀ c, is_Some (embed c)) → (∀ c, is_Some (embed_later c)) →
  (∀ c h, calculate_surprise embed c h ≠ Ok NaN) →
  ∃ id e',
    ingest_interaction embed embed_later e now now_vec cid role content
    = (Ok id, e').
Proof.
  intros Htotal Hlater Hnan. unfold ingest_interaction.
  destruct (calculate_surprise_total embed content
              (i_content <$> retrieve_episodic e cid 50) Htotal)
    as [s Hs].
  rewrite Hs.
  assert (Np.is_nan s = false) as ->.
  { destruct s; try done. by apply Hnan in Hs. }
  rewrite encode_one. destruct (Hlater content) as [v ->]. simpl.
  by eexists _, _.
Qed.

(** The row a successful [ingest_interaction] has added. *)
Lemma ingest_interaction_ok
    {np : Numpy} (embed embed_later : string → option vec) (e e' : Engine)
    (now now_vec : Z) (cid role content : string) (id : nat) :
  ingest_interaction embed embed_later e now now_vec cid role content
  = (Ok id, e') →
  ∃ score,
    interactions e'
    = interactions e ++ [mkInteraction id now role content score cid].
Proof.
  intros Hrun.
  destruct (ingest_interaction_cases embed embed_later e now now_vec cid role
              content)
    as [[err Herr]|(score & _ & _ & [Herr | (v & _ & Hok)])].
  - rewrite Hrun in Herr. by injection Herr.
  - rewrite Hrun in Herr. by injection Herr.
  - rewrite Hrun in Hok. injection Hok as -> ->. by exists score.
Qed.

Section MigrateFacts.

Context {np : Numpy}.

Variable re_split : string → list string.
Variable strip : string → string.
Variable embed embed_later : string → option vec.
Variable now now_vec : nat → Z.

Lemma migrate_parts_spec
    (e : Engine) (conv_id : string) (count : nat) (parts : list string) :
  let segments := filter (λ s, s ≠ EmptyString) (strip <$> parts) in
  let out :=
    migrate_parts strip embed embed_later now now_vec e conv_id count parts in
  ∃ rows,
    interactions out.2 = interactions e ++ rows
    ∧ i_content <$> rows `prefix_of` segments
    ∧ Forall (λ i, i_role i = "user" ∧ i_conversation_id i = conv_id) rows
    ∧ knowledge_nodes out.2 = knowledge_nodes e
    ∧ knowledge_edges out.2 = knowledge_edges e
    ∧ (∀ n, out.1 = Ok n →
            n = count + length segments ∧ i_content <$> rows = segments)
    ∧ ((∀ c, is_Some (embed c)) → (∀ c, is_Some (embed_later c)) →
       (∀ c h, calculate_surprise embed c h ≠ Ok NaN) →
       out.1 = Ok (count + length segments)).
Proof.
  revert e count. induction parts as [|part parts IH]; intros e count; simpl.
  { exists []. rewrite app_nil_r. split; [done|]. split; [done|].
    split; [constructor|]. split; [done|]. split; [done|]. split.
    - intros n [= <-]. split; [lia | done].
    - intros _ _ _. f_equal. lia. }
  rewrite filter_cons.
  destruct (decide (strip part = EmptyString)) as [Hblank|Hne].
  { rewrite decide_False by (by intros ?). apply IH. }
  rewrite decide_True by done.
  destruct (ingest_interaction_appends embed embed_later e (now count)
              (now_vec count) conv_id "user" (strip part))
    as (Hn & Hg & rows0 & Hrows0 & Hrow0).
  destruct (ingest_interaction embed embed_later e (now count)
              (now_vec count) conv_id "user" (strip part))
    as [[id|err] e1] eqn:Hrun; simpl in Hn, Hg, Hrows0.
  - apply ingest_interaction_ok in Hrun as [score Hrow].
    destruct (IH e1 (S count))
      as (rows & Hrows & Hprefix & Hall & Hn' & Hg' & Hok & Htotal).
    exists (mkInteraction id (now count) "user" (strip part) score conv_id
            :: rows).
    split; [by rewrite Hrows, Hrow, <- app_assoc|].
    split; [simpl; by apply prefix_cons|].
    split; [by constructor|].
    split; [by rewrite Hn'|]. split; [by rewrite Hg'|]. split.
    + intros n Hn0. destruct (Hok n Hn0) as [-> Hcontents]. simpl.
      split; [by rewrite Nat.add_succ_r | f_equal; exact Hcontents].
    + intros Hemb Hlater Hnan. rewrite (Htotal Hemb Hlater Hnan). simpl.
      by rewrite Nat.add_succ_r.
  - simpl. exists rows0. split; [done|]. split.
    + destruct Hrow0 as [->|(id & score & ->)]; simpl.
      * apply prefix_nil.
      * apply prefix_cons, prefix_nil.
    + split.
      * destruct Hrow0 as [->|(id & score & ->)]; by repeat constructor.
      * split; [done|]. split; [done|]. split; [done|].
        intros Hemb Hlater Hnan.
        destruct (ingest_interaction_total embed embed_later e (now count)
                    (now_vec count) conv_id "user" (strip part) Hemb Hlater
                    Hnan)
          as (id & e' & Hok).
        rewrite Hok in Hrun. by injection Hrun.
Qed.

(** X29: a migration stores the segments in order, as far as it gets.
    The rows [migrate_command] adds are in the conversation named, or in
    ["migration_import"] when none is named, and all have the role
    ["user"]; their contents are the first of the segments of the file that
    are not blank, stripped and in order; the rows and the knowledge graph
    there were are kept. When the command ends without an exception, every
    segment was stored and their number is reported; with a model that
    embeds every text, and scores that are never [nan], it always does. *)
Theorem migrate_command_segments
    (e : Engine) (content : string) (conversation_id : option string) :
  let conv_id :=
    if given conversation_id then default EmptyString conversation_id
    else "migration_import" in
  let segments :=
    filter (λ s, s ≠ EmptyString) (strip <$> re_split content) in
  let out :=
    migrate_command re_split strip embed embed_later now now_vec e
      (Some content) conversation_id in
  ∃ rows,
    interactions out.2 = interactions e ++ rows
    ∧ i_content <$> rows `prefix_of` segments
    ∧ Forall (λ i, i_role i = "user" ∧ i_conversation_id i = conv_id) rows
    ∧ knowledge_nodes out.2 = knowledge_nodes e
    ∧ knowledge_edges out.2 = knowledge_edges e
    ∧ (∀ n, out.1 = Ok n →
            n = length segments ∧ i_content <$> rows = segments)
    ∧ ((∀ c, is_Some (embed c)) → (∀ c, is_Some (embed_later c)) →
       (∀ c h, calculate_surprise embed c h ≠ Ok NaN) →
       out.1 = Ok (length segments)).
Proof.
  intros conv_id segments out. subst conv_id segments out.
  unfold migrate_command.
  apply (migrate_parts_spec e _ 0 (re_split content)).
Qed.

End MigrateFacts.
